(** * revtron.database.main: the dynamic table-access layer

    A shallow embedding of the [Database] class of
    [src/revtron/database/main.py] and of the part of SQLAlchemy and
    PostgreSQL its methods drive, followed by the properties the
    specification states about it.

    Layout:
    - [Py]: Python values, ordered dictionaries, exceptions, the
      state-and-exception monad the methods run in, [range] and slicing;
    - [Pg]: the catalog, the statements the methods build and what the
      server does with them;
    - [Database]: the methods themselves, named as in the source;
    - the properties the specification states, then further properties of
      the methods: reads, deletes, predicates, sorting, upserts, tables and
      columns, updates.

    The [verbose] flag of the methods only prints the statement; printing is
    not part of the state modelled here and the flag is left out. *)

From Stdlib Require Import List String Ascii DecimalString ZArith Lia Bool Arith
  Permutation.
Import ListNotations.
Local Open Scope string_scope.
Local Open Scope list_scope.

(* ===================================================================== *)
(** ** Python values and control *)
(* ===================================================================== *)

Module Py.

(** The values the methods receive: [None], integers, strings, lists and
    dictionaries.  A dictionary keeps its insertion order, which
    [keys()] and [items()] expose. *)
#[warnings="-register-all"]
Inductive pyval : Type :=
| PNone
| PInt (z : Z)
| PStr (s : string)
| PList (l : list pyval)
| PDict (d : list (string * pyval)).

Definition dict : Type := list (string * pyval).

(** An exception is identified by its class and carries one argument. *)
Record exn : Type := Raise { exn_class : string; exn_arg : string }.

Definition Exception (msg : string) : exn := Raise "Exception" msg.
Definition KeyError (key : string) : exn := Raise "KeyError" key.
Definition IndexError (msg : string) : exn := Raise "IndexError" msg.
Definition AttributeError (msg : string) : exn := Raise "AttributeError" msg.
Definition TypeError (msg : string) : exn := Raise "TypeError" msg.
Definition ValueError (msg : string) : exn := Raise "ValueError" msg.

Definition result (A : Type) : Type := (exn + A)%type.

Definition rbind {A B} (r : result A) (k : A -> result B) : result B :=
  match r with
  | inl e => inl e
  | inr a => k a
  end.

(** Code that reads and writes a store of type [S] and may raise.  The
    store survives an exception: what was written before the [raise]
    stays written. *)
Definition M (S A : Type) : Type := S -> S * result A.

Definition ret {S A} (a : A) : M S A := fun s => (s, inr a).

Definition raise {S A} (e : exn) : M S A := fun s => (s, inl e).

Definition bind {S A B} (m : M S A) (k : A -> M S B) : M S B :=
  fun s =>
    match m s with
    | (s', inl e) => (s', inl e)
    | (s', inr a) => k a s'
    end.

Definition lift {S A} (r : result A) : M S A := fun s => (s, r).

Declare Scope py_scope.
Delimit Scope py_scope with py.

Notation "x <- c1 ;; c2" := (bind c1 (fun x => c2))
  (at level 61, c1 at next level, right associativity) : py_scope.
Notation "c1 ;; c2" := (bind c1 (fun _ => c2))
  (at level 61, right associativity) : py_scope.
Notation "x <~ c1 ;; c2" := (rbind c1 (fun x => c2))
  (at level 61, c1 at next level, right associativity) : py_scope.

Local Open Scope py_scope.

(** [for x in l: acc = body(acc, x)] *)
Fixpoint for_fold {S A B} (body : B -> A -> M S B) (acc : B) (l : list A)
  : M S B :=
  match l with
  | [] => ret acc
  | x :: l' => acc' <- body acc x ;; for_fold body acc' l'
  end.

(** The same loop for code that only builds a value. *)
Fixpoint rfold {A B} (body : B -> A -> result B) (acc : B) (l : list A)
  : result B :=
  match l with
  | [] => inr acc
  | x :: l' => acc' <~ body acc x ;; rfold body acc' l'
  end.

(** *** Strings *)

Definition lower_ascii (c : ascii) : ascii :=
  let n := nat_of_ascii c in
  if Nat.leb 65 n && Nat.leb n 90 then ascii_of_nat (n + 32) else c.

(** [s.lower()] *)
Fixpoint lower (s : string) : string :=
  match s with
  | EmptyString => EmptyString
  | String c s' => String (lower_ascii c) (lower s')
  end.

(** The characters of a string, as [for c in s] yields them. *)
Fixpoint chars (s : string) : list string :=
  match s with
  | EmptyString => []
  | String c s' => String c EmptyString :: chars s'
  end.

Definition type_name (v : pyval) : string :=
  match v with
  | PNone => "NoneType"
  | PInt _ => "int"
  | PStr _ => "str"
  | PList _ => "list"
  | PDict _ => "dict"
  end.

Definition no_attribute (v : pyval) (attr : string) : exn :=
  AttributeError
    ("'" ++ type_name v ++ "' object has no attribute '" ++ attr ++ "'")%string.

(** [bool(v)], the test of [if v:] *)
Definition truthy (v : pyval) : bool :=
  match v with
  | PNone => false
  | PInt z => negb (z =? 0)%Z
  | PStr s => negb (s =? "")
  | PList l => match l with [] => false | _ => true end
  | PDict d => match d with [] => false | _ => true end
  end.

(** [bool(v)] for an optional integer argument ([int | None]). *)
Definition truthy_int (v : option Z) : bool :=
  match v with
  | None => false
  | Some z => negb (z =? 0)%Z
  end.

(** *** Dictionaries *)

Fixpoint dict_get (k : string) (d : dict) : option pyval :=
  match d with
  | [] => None
  | (k', v) :: d' => if k' =? k then Some v else dict_get k d'
  end.

Definition dict_keys (d : dict) : list string := map fst d.

Definition dict_has (k : string) (d : dict) : bool :=
  match dict_get k d with Some _ => true | None => false end.

Fixpoint dict_remove (k : string) (d : dict) : dict :=
  match d with
  | [] => []
  | (k', v) :: d' =>
      if k' =? k then dict_remove k d' else (k', v) :: dict_remove k d'
  end.

(** [d[k] = v]: an existing key keeps its place, a new one goes last. *)
Fixpoint dict_set (k : string) (v : pyval) (d : dict) : dict :=
  match d with
  | [] => [(k, v)]
  | (k', v') :: d' =>
      if k' =? k then (k, v) :: d' else (k', v') :: dict_set k v d'
  end.

(** [d[k]] *)
Definition dict_getitem (d : dict) (k : string) : result pyval :=
  match dict_get k d with
  | Some v => inr v
  | None => inl (KeyError k)
  end.

(** [d.pop(k)] *)
Definition dict_pop (k : string) (d : dict) : result (pyval * dict) :=
  match dict_get k d with
  | Some v => inr (v, dict_remove k d)
  | None => inl (KeyError k)
  end.

Definition mem (k : string) (l : list string) : bool :=
  existsb (String.eqb k) l.

(** *** [range] and slices *)

(** [list(range(start, stop, step))]; the length is computed as CPython
    does. *)
Definition py_range (start stop step : Z) : result (list Z) :=
  if (step =? 0)%Z then inl (ValueError "range() arg 3 must not be zero")
  else
    let len :=
      if (0 <? step)%Z
      then (if (start <? stop)%Z then (stop - start - 1) / step + 1 else 0)%Z
      else (if (stop <? start)%Z then (start - stop - 1) / (- step) + 1 else 0)%Z
    in
    inr (map (fun i => (start + Z.of_nat i * step)%Z) (seq 0 (Z.to_nat len))).

(** [l[i:j]], with negative bounds counted from the end and both bounds
    clamped to the list. *)
Definition py_slice {A} (l : list A) (i j : Z) : list A :=
  let n := Z.of_nat (List.length l) in
  let clamp x := if (x <? 0)%Z then Z.max 0 (x + n) else Z.min x n in
  let lo := clamp i in
  let hi := clamp j in
  firstn (Z.to_nat (hi - lo)) (skipn (Z.to_nat lo) l).

End Py.

Import Py.
Local Open Scope py_scope.

(* ===================================================================== *)
(** ** The database side *)
(* ===================================================================== *)

(** What the methods hand to SQLAlchemy and what PostgreSQL does with it.
    Statements are kept as the syntax trees SQLAlchemy builds, and as
    their text where the method writes the text itself; values travel in
    the trees as bound parameters.  The server runs one statement
    atomically: a statement that raises leaves the relation as it was.
    Uniqueness is enforced for the primary key and the unique columns.

    The limits of the model, which the properties stay within:
    - the catalog holds tables only (no views, sequences or indexes), and
      foreign keys and defaults computed at run time are not enforced;
    - an integer column stores integers of its range and a text column
      strings; what the server does with a value of another kind
      (coercion of the literal, or an error) is not modelled, and such a
      value is refused;
    - values are compared with values of their own kind, strings byte by
      byte, and letters are lowered in ASCII only;
    - a new row version is stored after the rows there are, which is the
      order a SELECT without ORDER BY then returns;
    - a column outside the primary key takes NULL, and check constraints
      and triggers are not modelled. *)
Module Pg.

Record column : Type := Column {
  col_name : string;
  col_type : string;
  col_default : option pyval;
  col_server_default : option pyval;
  col_autoincrement : option bool;
  col_foreign_key : option string
}.

Record relation : Type := Relation {
  rel_columns : list column;
  rel_primary_key : list string;
  rel_uniques : list string;
  rel_rows : list dict
}.

Definition column_names (r : relation) : list string :=
  map col_name (rel_columns r).

(** *** Column types *)

(** The range of an integer type. *)
Definition int_range (ty : string) : option (Z * Z) :=
  if ty =? "SMALLINT" then Some (-32768, 32767)%Z
  else if (ty =? "INTEGER") || (ty =? "INT") then Some (-2147483648, 2147483647)%Z
  else if ty =? "BIGINT" then Some (-9223372036854775808, 9223372036854775807)%Z
  else None.

Definition text_type (ty : string) : bool :=
  (ty =? "TEXT") || (ty =? "VARCHAR").

Fixpoint has_nul (s : string) : bool :=
  match s with
  | EmptyString => false
  | String c s' => Ascii.eqb c "000"%char || has_nul s'
  end.

(** The value is of the kind the type stores: NULL, an integer for an
    integer type, a string for a text type. *)
Definition of_kind (ty : string) (v : pyval) : bool :=
  match v with
  | PNone => true
  | PInt _ => match int_range ty with Some _ => true | None => false end
  | PStr s => text_type ty && negb (has_nul s)
  | _ => false
  end.

Definition in_range (ty : string) (v : pyval) : bool :=
  match v, int_range ty with
  | PInt z, Some (lo, hi) => (lo <=? z)%Z && (z <=? hi)%Z
  | _, _ => true
  end.

(** The values a column of type [ty] stores as they are given. *)
Definition accepts (ty : string) (v : pyval) : bool :=
  of_kind ty v && in_range ty v.

Definition type_of (cols : list column) (c : string) : option string :=
  option_map col_type (find (fun col => col_name col =? c) cols).

Definition column_check (test : string -> pyval -> bool) (cols : list column)
  (cv : string * pyval) : bool :=
  match type_of cols (fst cv) with
  | Some ty => test ty (snd cv)
  | None => false
  end.

(** The value is one the column [c] of [cols] stores as it is given. *)
Definition fits_column (cols : list column) (c : string) (v : pyval) : bool :=
  column_check accepts cols (c, v).

(** A cell absent from a stored row is NULL. *)
Definition row_get (c : string) (row : dict) : pyval :=
  match dict_get c row with
  | Some v => v
  | None => PNone
  end.

Definition is_null (v : pyval) : bool :=
  match v with PNone => true | _ => false end.

(** *** Three-valued comparison *)

Definition sql_eq (a b : pyval) : option bool :=
  match a, b with
  | PInt x, PInt y => Some (x =? y)%Z
  | PStr x, PStr y => Some (x =? y)
  | _, _ => None
  end.

Definition sql_le (a b : pyval) : option bool :=
  match a, b with
  | PInt x, PInt y => Some (x <=? y)%Z
  | PStr x, PStr y => Some (String.leb x y)
  | _, _ => None
  end.

Definition not3 (a : option bool) : option bool := option_map negb a.

Definition and3 (a b : option bool) : option bool :=
  match a, b with
  | Some false, _ | _, Some false => Some false
  | Some true, Some true => Some true
  | _, _ => None
  end.

Definition or3 (a b : option bool) : option bool :=
  match a, b with
  | Some true, _ | _, Some true => Some true
  | Some false, Some false => Some false
  | _, _ => None
  end.

Definition is_true3 (a : option bool) : bool :=
  match a with Some true => true | _ => false end.

(** [LIKE] with [%], [_] and the escape character, the backslash: the
    character after it stands for itself. *)
Fixpoint like_chars (p : list ascii) : list ascii -> bool :=
  match p with
  | [] => fun t => match t with [] => true | _ => false end
  | c :: p' =>
      if Ascii.eqb c "%"%char then
        fix star (t : list ascii) : bool :=
          like_chars p' t || match t with [] => false | _ :: t' => star t' end
      else if Ascii.eqb c "_"%char then
        fun t => match t with [] => false | _ :: t' => like_chars p' t' end
      else if Ascii.eqb c "\"%char then
        match p' with
        | [] => fun _ => false
        | c' :: p'' =>
            fun t =>
              match t with
              | [] => false
              | x :: t' => Ascii.eqb c' x && like_chars p'' t'
              end
        end
      else
        fun t =>
          match t with
          | [] => false
          | c' :: t' => Ascii.eqb c c' && like_chars p' t'
          end
  end.

(** A pattern that ends in the escape character. *)
Fixpoint dangling_escape (p : list ascii) : bool :=
  match p with
  | [] => false
  | c :: p' =>
      if Ascii.eqb c "\"%char
      then match p' with
           | [] => true
           | _ :: p'' => dangling_escape p''
           end
      else dangling_escape p'
  end.

(** The server refuses a pattern that ends in the escape character; the
    comparison is then left unknown here. *)
Definition sql_like (a pattern : pyval) : option bool :=
  match a, pattern with
  | PStr s, PStr p =>
      if dangling_escape (list_ascii_of_string p) then None
      else Some (like_chars (list_ascii_of_string p) (list_ascii_of_string s))
  | _, _ => None
  end.

(** *** Conditions *)

Inductive cond : Type :=
| CEq (c : string) (v : pyval)                (* column == v *)
| CIn (c : string) (v : pyval)                (* column.in_(v) *)
| CNotIn (c : string) (v : pyval)             (* column.notin_(v) *)
| CLike (c : string) (v : pyval)              (* column.like(v) *)
| CNotLike (c : string) (v : pyval)           (* column.notlike(v) *)
| CIsNull (c : string)                        (* column.is_(None) *)
| CIsNotNull (c : string)                     (* column.isnot(None) *)
| CBetween (c : string) (lo hi : pyval)       (* column.between(lo, hi) *)
| CNot (x : cond)                             (* ~x *)
| COp (c : string) (op : string) (v : pyval). (* column.op(op)(v) *)

(** What SQLAlchemy compiles a condition to: SQL text, names, which it
    quotes itself, and bound parameters, whose values travel apart from
    the text.  The operator of [column.op(...)] is written into the text
    as it is given. *)
Inductive piece : Type :=
| Text (s : string)
| Name (c : string)
| Param (v : pyval).

Fixpoint render (x : cond) : list piece :=
  match x with
  | CEq c v =>
      if is_null v then [Name c; Text " IS NULL"] else [Name c; Text " = "; Param v]
  | CIn c v => [Name c; Text " IN ("; Param v; Text ")"]
  | CNotIn c v => [Name c; Text " NOT IN ("; Param v; Text ")"]
  | CLike c v => [Name c; Text " LIKE "; Param v]
  | CNotLike c v => [Name c; Text " NOT LIKE "; Param v]
  | CIsNull c => [Name c; Text " IS NULL"]
  | CIsNotNull c => [Name c; Text " IS NOT NULL"]
  | CBetween c lo hi => [Name c; Text " BETWEEN "; Param lo; Text " AND "; Param hi]
  | CNot y =>
      match y with
      | CBetween c lo hi =>
          [Name c; Text " NOT BETWEEN "; Param lo; Text " AND "; Param hi]
      | _ => Text "NOT (" :: render y ++ [Text ")"]
      end
  | COp c op v => [Name c; Text " "; Text op; Text " "; Param v]
  end.

Section Dialect.

(** The operators of [column.op(...)] are the server's own: the code
    hands their text over as it is, and what they compute is a parameter
    here. *)
Variable dialect_op : string -> pyval -> pyval -> option bool.

Definition sql_in (a : pyval) (v : pyval) : option bool :=
  match v with
  | PList l => fold_right (fun x acc => or3 (sql_eq a x) acc) (Some false) l
  | _ => None
  end.

Fixpoint eval_cond (row : dict) (x : cond) : option bool :=
  match x with
  | CEq c v =>
      (* SQLAlchemy renders [column == None] as IS NULL *)
      if is_null v then Some (is_null (row_get c row))
      else sql_eq (row_get c row) v
  | CIn c v => sql_in (row_get c row) v
  | CNotIn c v => not3 (sql_in (row_get c row) v)
  | CLike c v => sql_like (row_get c row) v
  | CNotLike c v => not3 (sql_like (row_get c row) v)
  | CIsNull c => Some (is_null (row_get c row))
  | CIsNotNull c => Some (negb (is_null (row_get c row)))
  | CBetween c lo hi =>
      and3 (sql_le lo (row_get c row)) (sql_le (row_get c row) hi)
  | CNot y => not3 (eval_cond row y)
  | COp c op v => dialect_op op (row_get c row) v
  end.

(** The criteria of a statement are a conjunction: a row is kept when
    every one of them is true. *)
Definition holds (criteria : list cond) (row : dict) : bool :=
  forallb (fun x => is_true3 (eval_cond row x)) criteria.

End Dialect.

(** *** Statements *)

Inductive sqlexpr : Type :=
| Excluded (k : string)                 (* stmt.excluded[k] *)
| TableCol (k : string)                 (* table.c[k] *)
| Coalesce (a b : sqlexpr).             (* func.coalesce(a, b) *)

Record insert_stmt : Type := Insert {
  ins_into : string * string;
  ins_values : list dict;
  ins_returning : list string;
  ins_index_elements : list string;
  ins_set : list (string * sqlexpr)
}.

Record select_stmt : Type := Select {
  sel_from : string * string;
  sel_columns : list string;
  sel_where : list cond;
  sel_offset : option Z;
  sel_order_by : option string;
  sel_limit : option Z
}.

Record delete_stmt : Type := Delete {
  del_from : string * string;
  del_where : list cond
}.

(** [UPDATE t SET k = :k ... WHERE c = :_c ... RETURNING ...]: each pair
    is a column and the name of the parameter bound to it. *)
Record update_stmt : Type := Update {
  upd_table : string * string;
  upd_returning : list string;
  upd_where : list (string * string);
  upd_values : list (string * string)
}.

Inductive ddl : Type :=
| AddColumn (tbl : string * string) (column_name dialect_type : string)
| CreateTable (tbl : string * string) (columns : list column)
    (primary_key uniques : list string).

Inductive statement : Type :=
| SInsert (s : insert_stmt)
| SSelect (s : select_stmt)
| SDelete (s : delete_stmt)
| SUpdate (s : update_stmt) (params : list dict)
| SDDL (s : ddl)
| SText (query : string).       (* a statement handed over as text *)

(** Statements that take criteria through [.where(...)]. *)
Class HasWhere (S : Type) : Type := where_ : S -> cond -> S.

#[export] Instance select_where : HasWhere select_stmt :=
  fun s x =>
    Select (sel_from s) (sel_columns s) (sel_where s ++ [x])
      (sel_offset s) (sel_order_by s) (sel_limit s).

#[export] Instance delete_where : HasWhere delete_stmt :=
  fun s x => Delete (del_from s) (del_where s ++ [x]).

(** The bare list of criteria is such a statement too. *)
#[export] Instance criteria_where : HasWhere (list cond) :=
  fun l x => l ++ [x].

(** *** The store *)

Record database : Type := DB {
  db_relations : list ((string * string) * relation);
  db_log : list statement
}.

Definition same_name (a b : string * string) : bool :=
  (fst a =? fst b) && (snd a =? snd b).

Fixpoint find_relation (l : list ((string * string) * relation))
  (n : string * string) : option relation :=
  match l with
  | [] => None
  | (n', r) :: l' => if same_name n' n then Some r else find_relation l' n
  end.

Fixpoint set_relation (l : list ((string * string) * relation))
  (n : string * string) (r : relation) : list ((string * string) * relation) :=
  match l with
  | [] => [(n, r)]
  | (n', r') :: l' =>
      if same_name n' n then (n, r) :: l' else (n', r') :: set_relation l' n r
  end.

Definition ProgrammingError (msg : string) : exn := Raise "ProgrammingError" msg.
Definition IntegrityError (msg : string) : exn := Raise "IntegrityError" msg.
Definition DataError (msg : string) : exn := Raise "DataError" msg.
Definition CompileError (msg : string) : exn := Raise "CompileError" msg.
Definition StatementError (msg : string) : exn := Raise "StatementError" msg.
Definition NoSuchTableError (name : string) : exn := Raise "NoSuchTableError" name.
Definition NoSuchColumnError (name : string) : exn := Raise "NoSuchColumnError" name.
Definition ArgumentError (msg : string) : exn := Raise "ArgumentError" msg.

(** Stands for a run the model does not follow; no property is stated at
    an input that gives it. *)
Definition NotModelledError (msg : string) : exn := Raise "NotModelled" msg.

(** The values given for columns, before a row is written: a value of
    another kind than its column is outside the model, an integer outside
    the range of its column is refused by the server. *)
Definition check_stored (cols : list column) (cvs : list (string * pyval))
  : result unit :=
  if negb (forallb (column_check of_kind cols) cvs)
  then inl (NotModelledError "a value of another kind than its column")
  else if negb (forallb (column_check in_range cols) cvs)
  then inl (DataError "integer out of range")
  else inr tt.


(** *** INSERT ... ON CONFLICT DO UPDATE ... RETURNING *)

Definition key_of (index : list string) (row : dict) : list pyval :=
  map (fun c => row_get c row) index.

Fixpoint same_key (a b : list pyval) : bool :=
  match a, b with
  | [], [] => true
  | x :: a', y :: b' => is_true3 (sql_eq x y) && same_key a' b'
  | _, _ => false
  end.

(** A multi-row VALUES clause takes its columns from the first record;
    a later record may carry more keys, which are not read, but not
    fewer. *)
Definition insert_columns (values : list dict) : list string :=
  match values with
  | [] => []
  | r0 :: _ => dict_keys r0
  end.

Definition check_values (rel : relation) (values : list dict) : result unit :=
  let cols := insert_columns values in
  if negb (forallb (fun c => mem c (column_names rel)) cols)
  then inl (CompileError "Unconsumed column names")
  else if negb (forallb (fun r => forallb (fun c => dict_has c r) cols) values)
  then inl (CompileError "a value is required for every column of the VALUES clause")
  else inr tt.

(** The row proposed for insertion, which ON CONFLICT calls EXCLUDED: the
    columns of the statement take the record's values, the others their
    server default or NULL. *)
Definition proposed_row (rel : relation) (cols : list string) (r : dict) : dict :=
  map (fun c =>
         (col_name c,
          if mem (col_name c) cols then row_get (col_name c) r
          else match col_server_default c with
               | Some v => v
               | None => PNone
               end))
      (rel_columns rel).

Fixpoint eval_expr (excluded stored : dict) (e : sqlexpr) : pyval :=
  match e with
  | Excluded k => row_get k excluded
  | TableCol k => row_get k stored
  | Coalesce a b =>
      match eval_expr excluded stored a with
      | PNone => eval_expr excluded stored b
      | v => v
      end
  end.

(** DO UPDATE SET: every right-hand side is computed from the stored row
    and EXCLUDED, then assigned. *)
Definition resolve (set_ : list (string * sqlexpr)) (excluded stored : dict) : dict :=
  fold_left (fun row ke => dict_set (fst ke) (eval_expr excluded stored (snd ke)) row)
    set_ stored.

(** The stored row with the key of the proposed one.  The index is
    unique, so there is one such row at most; the one stored last is
    taken. *)
Fixpoint find_conflict (index : list string) (key : list pyval) (rows : list dict)
  : option (list dict * dict * list dict) :=
  match rows with
  | [] => None
  | r :: rows' =>
      match find_conflict index key rows' with
      | Some (before, stored, after) => Some (r :: before, stored, after)
      | None => if same_key (key_of index r) key then Some ([], r, rows') else None
      end
  end.

Definition violates_unique (uniques : list string) (others : list dict) (row : dict)
  : bool :=
  existsb (fun u =>
    existsb (fun o => is_true3 (sql_eq (row_get u o) (row_get u row))) others)
    uniques.

Definition returning (cols : list string) (row : dict) : dict :=
  map (fun c => (c, row_get c row)) cols.

Record insert_state : Type := InsertState {
  st_rows : list dict;
  st_touched : list (list pyval);
  st_returned : list dict
}.

Definition insert_row (rel : relation) (s : insert_stmt) (cols : list string)
  (st : insert_state) (r : dict) : result insert_state :=
  let excluded := proposed_row rel cols r in
  let key := key_of (ins_index_elements s) excluded in
  _ <~ check_stored (rel_columns rel) (map (fun c => (c, row_get c r)) cols) ;;
  if existsb is_null (key_of (rel_primary_key rel) excluded)
  then inl (IntegrityError "null value in a primary key column")
  else if existsb (same_key key) (st_touched st)
  then inl (ProgrammingError
              "ON CONFLICT DO UPDATE command cannot affect row a second time")
  else
    match find_conflict (ins_index_elements s) key (st_rows st) with
    | Some (before, stored, after) =>
        let row' := resolve (ins_set s) excluded stored in
        if violates_unique (rel_uniques rel) (before ++ after) row'
        then inl (IntegrityError "duplicate key value violates unique constraint")
        else inr (InsertState (before ++ after ++ [row'])
                    (st_touched st ++ [key])
                    (st_returned st ++ [returning (ins_returning s) row']))
    | None =>
        if violates_unique (rel_uniques rel) (st_rows st) excluded
        then inl (IntegrityError "duplicate key value violates unique constraint")
        else inr (InsertState (st_rows st ++ [excluded])
                    (st_touched st ++ [key])
                    (st_returned st ++ [returning (ins_returning s) excluded]))
    end.

Definition with_rows (rel : relation) (rows : list dict) : relation :=
  Relation (rel_columns rel) (rel_primary_key rel) (rel_uniques rel) rows.

Definition exec_insert (s : insert_stmt) (rel : relation)
  : result (relation * list dict) :=
  _ <~ check_values rel (ins_values s) ;;
  st <~ rfold (insert_row rel s (insert_columns (ins_values s)))
         (InsertState (rel_rows rel) [] []) (ins_values s) ;;
  inr (with_rows rel (st_rows st), st_returned st).

(** *** SELECT and DELETE *)

Definition value_leb (a b : pyval) : bool :=
  match a, b with
  | PInt x, PInt y => (x <=? y)%Z
  | PStr x, PStr y => String.leb x y
  | PNone, PNone => true
  | PNone, _ => false            (* NULLs sort last *)
  | _, _ => true
  end.

Fixpoint insert_sorted (c : string) (row : dict) (sorted : list dict) : list dict :=
  match sorted with
  | [] => [row]
  | r :: sorted' =>
      if value_leb (row_get c r) (row_get c row)
      then r :: insert_sorted c row sorted'
      else row :: r :: sorted'
  end.

Definition order_by (c : string) (rows : list dict) : list dict :=
  fold_left (fun sorted row => insert_sorted c row sorted) rows [].

Section Queries.

Variable dialect_op : string -> pyval -> pyval -> option bool.

Definition exec_select (s : select_stmt) (rel : relation) : result (list dict) :=
  if negb (forallb (fun c => mem c (column_names rel)) (sel_columns s))
  then inl (ProgrammingError "column does not exist")
  else
    let rows := filter (holds dialect_op (sel_where s)) (rel_rows rel) in
    rows <~ match sel_order_by s with
            | None => inr rows
            | Some c =>
                if mem c (column_names rel) then inr (order_by c rows)
                else inl (ProgrammingError "column does not exist")
            end ;;
    rows <~ match sel_offset s with
            | None => inr rows
            | Some o =>
                if (o <? 0)%Z then inl (DataError "OFFSET must not be negative")
                else inr (skipn (Z.to_nat o) rows)
            end ;;
    rows <~ match sel_limit s with
            | None => inr rows
            | Some n =>
                if (n <? 0)%Z then inl (DataError "LIMIT must not be negative")
                else inr (firstn (Z.to_nat n) rows)
            end ;;
    inr (map (returning (sel_columns s)) rows).

Definition exec_delete (s : delete_stmt) (rel : relation) : result relation :=
  inr (with_rows rel
         (filter (fun row => negb (holds dialect_op (del_where s) row))
            (rel_rows rel))).

End Queries.

(** *** UPDATE with a list of parameter sets *)

(** The values a parameter set gives to the named parameters. *)
Definition bind_params (pairs : list (string * string)) (p : dict)
  : result (list (string * pyval)) :=
  rfold (fun acc cn =>
           match dict_get (snd cn) p with
           | Some v => inr (acc ++ [(fst cn, v)])
           | None =>
               inl (StatementError
                      ("A value is required for bind parameter " ++ snd cn)%string)
           end)
        [] pairs.

Definition row_matches (wh : list (string * pyval)) (row : dict) : bool :=
  forallb (fun cv => is_true3 (sql_eq (row_get (fst cv) row) (snd cv))) wh.

Definition assign (vals : list (string * pyval)) (row : dict) : dict :=
  fold_left (fun r cv => dict_set (fst cv) (snd cv) r) vals row.

Fixpoint keys_distinct (index : list string) (rows : list dict) : bool :=
  match rows with
  | [] => true
  | r :: rows' =>
      negb (existsb (fun o => same_key (key_of index o) (key_of index r)) rows')
      && keys_distinct index rows'
  end.

(** Uniqueness is checked again for the constraints whose columns the
    statement assigns. *)
Definition constraints_kept (rel : relation) (assigned : list string)
  (rows : list dict) : bool :=
  (if existsb (fun k => mem k (rel_primary_key rel)) assigned
   then forallb (fun r => negb (existsb is_null (key_of (rel_primary_key rel) r))) rows
        && keys_distinct (rel_primary_key rel) rows
   else true)
  && forallb (fun u => if mem u assigned then keys_distinct [u] rows else true)
       (rel_uniques rel).

(** The rows the criteria locate are rewritten, after the others. *)
Definition update_one (rel : relation) (s : update_stmt)
  (st : list dict * Z) (p : dict) : result (list dict * Z) :=
  wh <~ bind_params (upd_where s) p ;;
  vals <~ bind_params (upd_values s) p ;;
  _ <~ check_stored (rel_columns rel) (wh ++ vals) ;;
  let rows' :=
    filter (fun row => negb (row_matches wh row)) (fst st)
    ++ map (assign vals) (filter (row_matches wh) (fst st)) in
  if constraints_kept rel (map fst vals) rows'
  then inr (rows',
            (snd st + Z.of_nat (List.length (filter (row_matches wh) (fst st))))%Z)
  else inl (IntegrityError "duplicate key value violates unique constraint").

(** The statement is run once per parameter set, in order; [rowcount] is
    the total over the sets.  An UPDATE whose SET list is empty is not
    SQL. *)
Definition exec_update (s : update_stmt) (params : list dict) (rel : relation)
  : result (relation * Z) :=
  if negb (forallb (fun cn => mem (fst cn) (column_names rel)) (upd_values s))
  then inl (CompileError "Unconsumed column names")
  else
    match upd_values s with
    | [] => inl (ProgrammingError "syntax error at or near WHERE")
    | _ :: _ =>
        st <~ rfold (update_one rel s) (rel_rows rel, 0%Z) params ;;
        inr (with_rows rel (fst st), snd st)
    end.

(** *** DDL *)

Fixpoint distinct (l : list string) : bool :=
  match l with
  | [] => true
  | x :: l' => negb (mem x l') && distinct l'
  end.

Definition exec_ddl (s : ddl) (db : list ((string * string) * relation))
  : result (list ((string * string) * relation)) :=
  match s with
  | AddColumn tbl column_name dialect_type =>
      match find_relation db tbl with
      | None => inl (ProgrammingError "relation does not exist")
      | Some rel =>
          if mem column_name (column_names rel)
          then inl (ProgrammingError
                      ("column " ++ column_name ++ " of relation already exists")%string)
          else inr (set_relation db tbl
                      (Relation
                         (rel_columns rel ++
                            [Column column_name dialect_type None None None None])
                         (rel_primary_key rel) (rel_uniques rel) (rel_rows rel)))
      end
  | CreateTable tbl columns primary_key uniques =>
      match find_relation db tbl with
      | Some _ => inl (ProgrammingError "relation already exists")
      | None =>
          if negb (distinct (map col_name columns))
          then inl (ProgrammingError "column specified more than once")
          else if negb (forallb (fun k => mem k (map col_name columns))
                          (primary_key ++ uniques))
          then inl (ProgrammingError "column named in key does not exist")
          else inr (set_relation db tbl (Relation columns primary_key uniques []))
      end
  end.

(** *** Statements given as text *)

(** [add_column] writes its statement itself.  The server reads such a
    text token by token: words, which it folds to lower case, names in
    double quotes, where a doubled quote stands for one, and single
    characters.  A quoted name that is not closed, or is empty, is a
    syntax error. *)
Inductive token : Type :=
| TWord (w : string)
| TQuoted (s : string)
| TSym (c : ascii).

Inductive scanning : Type :=
| Idle
| InWord (w : string)
| InQuoted (s : string)
| AfterQuote (s : string).       (* a quote met inside a quoted name *)

Definition dquote : ascii := "034"%char.

Definition is_space (c : ascii) : bool :=
  let n := nat_of_ascii c in
  Nat.eqb n 32 || Nat.eqb n 9 || Nat.eqb n 10 || Nat.eqb n 13.

Definition is_digit (c : ascii) : bool :=
  let n := nat_of_ascii c in Nat.leb 48 n && Nat.leb n 57.

Definition is_word_char (c : ascii) : bool :=
  let n := nat_of_ascii c in
  is_digit c || (Nat.leb 65 n && Nat.leb n 90) || (Nat.leb 97 n && Nat.leb n 122)
  || Nat.eqb n 95.

Definition idle_step (c : ascii) : list token * scanning :=
  if is_space c then ([], Idle)
  else if Ascii.eqb c dquote then ([], InQuoted "")
  else if is_word_char c then ([], InWord (String c ""))
  else ([TSym c], Idle).

Definition close_quoted (s : string) : option token :=
  if s =? "" then None else Some (TQuoted s).

Fixpoint scan (m : scanning) (cs : list ascii) : option (list token) :=
  match cs with
  | [] =>
      match m with
      | Idle => Some []
      | InWord w => Some [TWord (lower w)]
      | InQuoted _ => None
      | AfterQuote s => option_map (fun t => [t]) (close_quoted s)
      end
  | c :: cs' =>
      match m with
      | Idle =>
          let (toks, m') := idle_step c in option_map (app toks) (scan m' cs')
      | InWord w =>
          if is_word_char c then scan (InWord (w ++ String c "")) cs'
          else
            let (toks, m') := idle_step c in
            option_map (app (TWord (lower w) :: toks)) (scan m' cs')
      | InQuoted s =>
          if Ascii.eqb c dquote then scan (AfterQuote s) cs'
          else scan (InQuoted (s ++ String c "")) cs'
      | AfterQuote s =>
          if Ascii.eqb c dquote then scan (InQuoted (s ++ String dquote "")) cs'
          else
            match close_quoted s with
            | None => None
            | Some t =>
                let (toks, m') := idle_step c in
                option_map (app (t :: toks)) (scan m' cs')
            end
      end
  end.

(** The words that cannot stand for a name without quotes. *)
Definition reserved : list string :=
  ["all"; "analyse"; "analyze"; "and"; "any"; "array"; "as"; "asc"; "asymmetric";
   "authorization"; "binary"; "both"; "case"; "cast"; "check"; "collate";
   "collation"; "column"; "concurrently"; "constraint"; "create"; "cross";
   "current_catalog"; "current_date"; "current_role"; "current_schema";
   "current_time"; "current_timestamp"; "current_user"; "default"; "deferrable";
   "desc"; "distinct"; "do"; "else"; "end"; "except"; "false"; "fetch"; "for";
   "foreign"; "freeze"; "from"; "full"; "grant"; "group"; "having"; "ilike"; "in";
   "initially"; "inner"; "intersect"; "into"; "is"; "isnull"; "join"; "lateral";
   "leading"; "left"; "like"; "limit"; "localtime"; "localtimestamp"; "natural";
   "not"; "notnull"; "null"; "offset"; "on"; "only"; "or"; "order"; "outer";
   "overlaps"; "placing"; "primary"; "references"; "returning"; "right"; "select";
   "session_user"; "similar"; "some"; "symmetric"; "table"; "tablesample"; "then";
   "to"; "trailing"; "true"; "union"; "unique"; "user"; "using"; "variadic";
   "verbose"; "when"; "where"; "window"; "with"].

Definition starts_with_digit (w : string) : bool :=
  match w with
  | String c _ => is_digit c
  | EmptyString => false
  end.

(** A name: a word that is not reserved, or a quoted name; the server
    keeps 63 bytes of a name, and longer ones are left out here. *)
Definition ident (t : token) : option string :=
  match t with
  | TWord w =>
      if mem w reserved || starts_with_digit w || negb (Nat.leb (String.length w) 63)
      then None else Some w
  | TQuoted q => if Nat.leb (String.length q) 63 then Some q else None
  | TSym _ => None
  end.

Definition upper_ascii (c : ascii) : ascii :=
  let n := nat_of_ascii c in
  if Nat.leb 97 n && Nat.leb n 122 then ascii_of_nat (n - 32) else c.

Fixpoint upper (s : string) : string :=
  match s with
  | EmptyString => EmptyString
  | String c s' => String (upper_ascii c) (upper s')
  end.

(** The type names the server knows, as SQLAlchemy writes them. *)
Definition known_types : list string :=
  ["SMALLINT"; "INTEGER"; "INT"; "BIGINT"; "TEXT"; "VARCHAR"; "CHAR"; "BOOLEAN";
   "DATE"; "TIME"; "TIMESTAMP"; "TIMESTAMP WITHOUT TIME ZONE";
   "TIMESTAMP WITH TIME ZONE"; "FLOAT"; "REAL"; "DOUBLE PRECISION"; "NUMERIC";
   "DECIMAL"; "JSON"; "JSONB"; "UUID"; "BYTEA"].

Definition sized_types : list string := ["VARCHAR"; "CHAR"; "NUMERIC"; "DECIMAL"; "FLOAT"].

Definition scaled_types : list string := ["NUMERIC"; "DECIMAL"].

Fixpoint leading_words (toks : list token) : list string * list token :=
  match toks with
  | TWord w :: rest => let (ws, r) := leading_words rest in (w :: ws, r)
  | _ => ([], toks)
  end.

Fixpoint all_digits (w : string) : bool :=
  match w with
  | EmptyString => true
  | String c w' => is_digit c && all_digits w'
  end.

Definition number (w : string) : bool := negb (w =? "") && all_digits w.

(** The type of a column definition, written as SQLAlchemy writes it. *)
Definition sql_type (toks : list token) : option string :=
  let (ws, rest) := leading_words toks in
  let base := upper (String.concat " " ws) in
  if negb (mem base known_types) then None
  else
    match rest with
    | [] => Some base
    | [TSym "("%char; TWord n; TSym ")"%char] =>
        if number n && mem base sized_types
        then Some (base ++ "(" ++ n ++ ")")%string else None
    | [TSym "("%char; TWord n; TSym ","%char; TWord m; TSym ")"%char] =>
        if number n && number m && mem base scaled_types
        then Some (base ++ "(" ++ n ++ ", " ++ m ++ ")")%string else None
    | _ => None
    end.

Definition strip_semicolon (toks : list token) : list token :=
  match rev toks with
  | TSym ";"%char :: r => rev r
  | _ => toks
  end.

(** [ALTER TABLE schema.table ADD COLUMN name type], the one statement
    read here. *)
Definition read_alter (toks : list token) : option ddl :=
  match toks with
  | TWord a :: TWord t :: sch :: TSym dot :: tbl :: TWord ad :: TWord co :: col :: rest =>
      if (a =? "alter") && (t =? "table") && Ascii.eqb dot "."%char
         && (ad =? "add") && (co =? "column")
      then
        match ident sch, ident tbl, ident col, sql_type (strip_semicolon rest) with
        | Some sch', Some tbl', Some col', Some ty =>
            Some (AddColumn (sch', tbl') col' ty)
        | _, _, _, _ => None
        end
      else None
  | _ => None
  end.

(** Quoted strings, comments, dollar quoting, escapes, parameter markers
    and bytes outside printable ASCII are not read: a text that holds one
    of their characters is left out. *)
Definition plain_char (c : ascii) : bool :=
  let n := nat_of_ascii c in
  ((Nat.leb 32 n && Nat.leb n 126) || Nat.eqb n 9 || Nat.eqb n 10 || Nat.eqb n 13)
  && negb (existsb (Ascii.eqb c)
             ["'"%char; "%"%char; "$"%char; "\"%char; "-"%char; "/"%char; "*"%char]).

(** What the server makes of a text: a statement of the model, a syntax
    error, or a text the model does not interpret. *)
Inductive reading : Type :=
| Reads (s : ddl)
| NotSQL
| NotModelled.

Definition read_statement (query : string) : reading :=
  let cs := list_ascii_of_string query in
  if negb (forallb plain_char cs) then NotModelled
  else
    match scan Idle cs with
    | None => NotSQL
    | Some toks =>
        match read_alter toks with
        | Some s => Reads s
        | None => NotModelled
        end
    end.

(** *** The connection *)

(** [conn.execute(stmt)]: the statement is recorded as issued, then run. *)
Definition issue (s : statement) (db : database) : database :=
  DB (db_relations db) (db_log db ++ [s]).

Definition on_relation {A} (tbl : string * string) (s : statement)
  (run : relation -> result (relation * A)) : M database A :=
  fun db =>
    let db1 := issue s db in
    match find_relation (db_relations db) tbl with
    | None => (db1, inl (ProgrammingError "relation does not exist"))
    | Some rel =>
        match run rel with
        | inl e => (db1, inl e)
        | inr (rel', a) =>
            (DB (set_relation (db_relations db) tbl rel') (db_log db1), inr a)
        end
    end.

Definition execute_insert (s : insert_stmt) : M database (list dict) :=
  on_relation (ins_into s) (SInsert s) (exec_insert s).

Definition execute_update (s : update_stmt) (params : list dict) : M database Z :=
  on_relation (upd_table s) (SUpdate s params) (exec_update s params).

Definition execute_ddl (s : ddl) : M database unit :=
  fun db =>
    let db1 := issue (SDDL s) db in
    match exec_ddl s (db_relations db) with
    | inl e => (db1, inl e)
    | inr rels => (DB rels (db_log db1), inr tt)
    end.

(** [conn.execute(query)] for a statement written as text. *)
Definition execute_text (query : string) : M database unit :=
  fun db =>
    let db1 := issue (SText query) db in
    match read_statement query with
    | Reads s =>
        match exec_ddl s (db_relations db) with
        | inl e => (db1, inl e)
        | inr rels => (DB rels (db_log db1), inr tt)
        end
    | NotSQL => (db1, inl (ProgrammingError "syntax error"))
    | NotModelled => (db1, inl (NotModelledError "a text outside the SQL read here"))
    end.

Section Connection.

Variable dialect_op : string -> pyval -> pyval -> option bool.

Definition execute_select (s : select_stmt) : M database (list dict) :=
  on_relation (sel_from s) (SSelect s)
    (fun rel => rows <~ exec_select dialect_op s rel ;; inr (rel, rows)).

Definition execute_delete (s : delete_stmt) : M database unit :=
  on_relation (del_from s) (SDelete s)
    (fun rel => rel' <~ exec_delete dialect_op s rel ;; inr (rel', tt)).

End Connection.

End Pg.

Import Pg.

(* ===================================================================== *)
(** ** The [Database] class *)
(* ===================================================================== *)

Module Database.

(** A SQLAlchemy column type, given as the class or as an instance. *)
Inductive satype : Type :=
| TypeClass (n : string)
| TypeInstance (n : string).

Definition dialect_impl (t : satype) : string :=
  match t with
  | TypeClass n | TypeInstance n => n
  end.

Module ColumnModel.
Record t : Type := Build {
  name : string;
  type : satype;
  default : option pyval;
  server_default : option pyval;
  autoincrement : option bool;
  foreign_key : option string
}.
End ColumnModel.

(** The object itself: [self.db_url] and [self.schema]. *)
Record Self : Type := { db_url : string; schema : string }.

(** A reflected [Table]. *)
Record Table : Type := {
  t_name : string * string;
  t_columns : list column;
  t_primary_key : list string
}.

(** [table.c[k]] *)
Definition table_c (table : Table) (k : string) : result string :=
  if mem k (map col_name (t_columns table)) then inr k else inl (KeyError k).

Definition get_table (self : Self) (table_name : string) : M database Table :=
  fun db =>
    match find_relation (db_relations db) (schema self, table_name) with
    | Some rel =>
        (db, inr {| t_name := (schema self, table_name);
                    t_columns := rel_columns rel;
                    t_primary_key := rel_primary_key rel |})
    | None => (db, inl (NoSuchTableError table_name))
    end.

(** [schema or self.schema] *)
Definition schema_or (self : Self) (s : option string) : string :=
  match s with
  | Some s' => if s' =? "" then schema self else s'
  | None => schema self
  end.

Definition check_table_exists (self : Self) (table_name : string)
  (schema : option string) : M database bool :=
  fun db =>
    (db, inr match find_relation (db_relations db) (schema_or self schema, table_name) with
             | Some _ => true
             | None => false
             end).

Definition get_table_columns (self : Self) (table_name : string)
  : M database (list string) :=
  table <- get_table self table_name ;;
  ret (map col_name (t_columns table)).

(** *** upsert *)

Inductive records : Type :=
| One (d : dict)                  (* data: dict *)
| Many (l : list dict).           (* data: list[dict] *)

Inductive returned : Type :=
| Row (d : dict)
| Rows (l : list dict).

(** [[data[i:i + chunk_size] for i in range(0, len(data), chunk_size)]] *)
Definition chunks_of (data : list dict) (chunk_size : Z) : result (list (list dict)) :=
  starts <~ py_range 0 (Z.of_nat (List.length data)) chunk_size ;;
  inr (map (fun i => py_slice data i (i + chunk_size)) starts).

(** [chunks = [...] if isinstance(data, list) else [[data]]] *)
Definition chunks_for (data : records) (chunk_size : Z) : result (list (list dict)) :=
  match data with
  | Many l => chunks_of l chunk_size
  | One d => inr [[d]]
  end.

(** The [set_] dictionary of [on_conflict_do_update]: one entry per key of
    [chunk[0]]. *)
Definition on_conflict_set (table : Table) (overwrite_with_null : bool)
  (chunk : list dict) : result (list (string * sqlexpr)) :=
  first <~ match chunk with
           | [] => inl (IndexError "list index out of range")
           | r :: _ => inr r
           end ;;
  rfold (fun set_ k =>
           _ <~ table_c table k ;;
           inr (set_ ++
                  [(k, if overwrite_with_null then Excluded k
                       else Coalesce (Excluded k) (TableCol k))]))
        [] (dict_keys first).

(** [on_conflict_do_update] refuses an empty [set_]. *)
Definition upsert_stmt (table : Table) (index : list string)
  (overwrite_with_null : bool) (chunk : list dict) : result insert_stmt :=
  set_ <~ on_conflict_set table overwrite_with_null chunk ;;
  match set_ with
  | [] => inl (ValueError "set parameter dictionary must not be empty")
  | _ :: _ => inr (Insert (t_name table) chunk index index set_)
  end.

(** [conn.execute] compiles the statement before it sends it: the VALUES
    clause takes its columns from the first record, which must be columns
    of the table, and needs a value for each of them from every record. *)
Definition compile_insert (table : Table) (s : insert_stmt) : result unit :=
  let cols := insert_columns (ins_values s) in
  if negb (forallb (fun c => mem c (map col_name (t_columns table))) cols)
  then inl (CompileError "Unconsumed column names")
  else if negb (forallb (fun r => forallb (fun c => dict_has c r) cols) (ins_values s))
  then inl (CompileError "a value is required for every column of the VALUES clause")
  else inr tt.

(** The body of the loop over the chunks. *)
Definition upsert_chunk (table : Table) (index : list string)
  (overwrite_with_null : bool) (results : list dict) (chunk : list dict)
  : M database (list dict) :=
  stmt <- lift (upsert_stmt table index overwrite_with_null chunk) ;;
  _ <- lift (compile_insert table stmt) ;;
  res <- execute_insert stmt ;;
  ret (results ++ res).

Definition upsert (self : Self) (table_name : string) (data : records)
  (chunk_size : Z) (overwrite_with_null : bool) : M database returned :=
  table <- get_table self table_name ;;
  let index := t_primary_key table in
  match index with
  | [] => raise (Exception ("No primary key found for table " ++ table_name)%string)
  | _ :: _ =>
      chunks <- lift (chunks_for data chunk_size) ;;
      results <- for_fold (upsert_chunk table index overwrite_with_null) [] chunks ;;
      match data with
      | One _ =>
          match results with
          | r :: _ => ret (Row r)
          | [] => raise (IndexError "list index out of range")
          end
      | Many _ => ret (Rows results)
      end
  end.

(** *** create_table and add_column *)

Definition newline : string := String "010"%char "".
Definition tab : string := String "009"%char "".
Definition quote : string := String dquote "".

(** The f-string of [add_column]: the schema as it is, the table and the
    column between double quotes, as they are. *)
Definition add_column_query (schema table_name column_name dialect_type : string)
  : string :=
  (newline ++ tab ++ tab ++ tab ++ "ALTER TABLE " ++ schema ++ "."
     ++ quote ++ table_name ++ quote ++ newline
   ++ tab ++ tab ++ tab ++ "ADD COLUMN " ++ quote ++ column_name ++ quote ++ " "
     ++ dialect_type ++ newline
   ++ tab ++ tab ++ tab ++ ";" ++ newline
   ++ tab ++ tab)%string.

Definition add_column (self : Self) (table_name column_name : string)
  (column_type : satype) : M database unit :=
  let column_type :=
    match column_type with
    | TypeClass n => TypeInstance n
    | TypeInstance n => TypeInstance n
    end in
  let dialect_type := dialect_impl column_type in
  let query := add_column_query (schema self) table_name column_name dialect_type in
  execute_text query.

(** [Table(table_name, MetaData(), *args)]: a column whose name the table
    already has takes the place of the earlier one; the constraints then
    look their columns up in [table.c]. *)
Definition table_add_column (cols : list column) (c : column) : list column :=
  if mem (col_name c) (map col_name cols)
  then map (fun c0 => if col_name c0 =? col_name c then c else c0) cols
  else cols ++ [c].

Definition new_table (name : string * string) (args : list column)
  (primary_key uniques : list string) : result Table :=
  let cols := fold_left table_add_column args [] in
  _ <~ rfold (fun _ k => if mem k (map col_name cols) then inr tt else inl (KeyError k))
         tt (primary_key ++ uniques) ;;
  inr {| t_name := name; t_columns := cols; t_primary_key := primary_key |}.

Definition create_table (self : Self) (table_name : string)
  (mappings : list ColumnModel.t) (primary_key : option (string + list string))
  (unique_columns : option (list string)) (check_existing : bool)
  : M database unit :=
  existing <- (if check_existing then check_table_exists self table_name None
               else ret false) ;;
  if existing then
    existing_columns <- get_table_columns self table_name ;;
    let missing_columns :=
      map (fun m => (ColumnModel.name m, ColumnModel.type m))
        (filter (fun m => negb (mem (ColumnModel.name m) existing_columns)) mappings) in
    for_fold (fun _ column =>
                add_column self table_name (fst column) (snd column))
      tt missing_columns
  else
    let args :=
      map (fun m =>
             Column (ColumnModel.name m) (dialect_impl (ColumnModel.type m))
               (ColumnModel.default m) (ColumnModel.server_default m)
               (ColumnModel.autoincrement m) (ColumnModel.foreign_key m))
        mappings in
    let pk :=
      match primary_key with
      | Some (inl s) => if s =? "" then [] else [s]
      | Some (inr l) => l
      | None => []
      end in
    let uniques := match unique_columns with Some l => l | None => [] end in
    table <- lift (new_table (schema self, table_name) args pk uniques) ;;
    let create :=
      execute_ddl (CreateTable (t_name table) (t_columns table) pk uniques) in
    if check_existing then
      (* table.create(..., checkfirst=True) *)
      present <- check_table_exists self table_name None ;;
      if present then ret tt else create
    else create.

(** *** _where_clause *)

(** [v[i]] for an integer [i >= 0] *)
Definition getitem_int (v : pyval) (i : nat) : result pyval :=
  match v with
  | PList l =>
      match nth_error l i with
      | Some x => inr x
      | None => inl (IndexError "list index out of range")
      end
  | PStr s =>
      match nth_error (chars s) i with
      | Some c => inr (PStr c)
      | None => inl (IndexError "string index out of range")
      end
  | PDict _ => inl (KeyError (NilZero.string_of_uint (Nat.to_uint i)))
  | _ => inl (TypeError ("'" ++ type_name v ++ "' object is not subscriptable")%string)
  end.

(** [v.lower()] *)
Definition str_lower (v : pyval) : result string :=
  match v with
  | PStr s => inr (lower s)
  | _ => inl (no_attribute v "lower")
  end.

(** [column.in_(v)] and [column.notin_(v)] take a list. *)
Definition in_list (v : pyval) : result unit :=
  match v with
  | PList _ => inr tt
  | _ => inl (ArgumentError
                "IN expression list, SELECT construct, or bound parameter object expected")
  end.

Section Where.

Context {S : Type} `{HasWhere S}.

(** The body of the inner loop: one [k, v] of [w.items()]. *)
Definition where_item (table : Table) (stmt : S) (k : string) (v : pyval)
  : result S :=
  match v with
  | PDict d =>
      operator <~ dict_getitem d "operator" ;;
      op <~ str_lower operator ;;
      if op =? "in" then
        c <~ table_c table k ;; value <~ dict_getitem d "value" ;;
        _ <~ in_list value ;;
        inr (where_ stmt (CIn c value))
      else if op =? "not in" then
        c <~ table_c table k ;; value <~ dict_getitem d "value" ;;
        _ <~ in_list value ;;
        inr (where_ stmt (CNotIn c value))
      else if op =? "like" then
        c <~ table_c table k ;; value <~ dict_getitem d "value" ;;
        inr (where_ stmt (CLike c value))
      else if op =? "not like" then
        c <~ table_c table k ;; value <~ dict_getitem d "value" ;;
        inr (where_ stmt (CNotLike c value))
      else if op =? "is null" then
        c <~ table_c table k ;; inr (where_ stmt (CIsNull c))
      else if op =? "is not null" then
        c <~ table_c table k ;; inr (where_ stmt (CIsNotNull c))
      else if op =? "between" then
        c <~ table_c table k ;; value <~ dict_getitem d "value" ;;
        lo <~ getitem_int value 0 ;; hi <~ getitem_int value 1 ;;
        inr (where_ stmt (CBetween c lo hi))
      else if op =? "not between" then
        c <~ table_c table k ;; value <~ dict_getitem d "value" ;;
        lo <~ getitem_int value 0 ;; hi <~ getitem_int value 1 ;;
        inr (where_ stmt (CNot (CBetween c lo hi)))
      else
        c <~ table_c table k ;;
        match operator with
        | PStr text =>
            value <~ dict_getitem d "value" ;;
            inr (where_ stmt (COp c text value))
        | _ => inl (TypeError "operator must be a string")
        end
  | _ =>
      c <~ table_c table k ;; inr (where_ stmt (CEq c v))
  end.

(** The body of the outer loop: [for k, v in w.items()]. *)
Definition where_items (table : Table) (stmt : S) (w : pyval) : result S :=
  match w with
  | PDict d => rfold (fun stmt kv => where_item table stmt (fst kv) (snd kv)) stmt d
  | _ => inl (no_attribute w "items")
  end.

Definition _where_clause (stmt : S) (table : Table) (where' : pyval) : result S :=
  ws <~ match where' with
        | PDict _ => inr [where']
        | PList l => inr l
        | PStr s => inr (map PStr (chars s))
        | _ => inl (TypeError ("'" ++ type_name where' ++ "' object is not iterable")%string)
        end ;;
  rfold (where_items table) stmt ws.

End Where.

(** *** get and delete *)

Section Reads.

Variable dialect_op : string -> pyval -> pyval -> option bool.

(** [[table.c[c] for c in columns] if columns else table.c] *)
Definition selected (table : Table) (columns : option (list string))
  : result (list string) :=
  match columns with
  | Some (c :: cs) =>
      rfold (fun acc k => k' <~ table_c table k ;; inr (acc ++ [k'])) [] (c :: cs)
  | _ => inr (map col_name (t_columns table))
  end.

(** [conn.execute] compiles the statement before it sends it: the string
    given to [order_by] must name a column of the statement or of its
    table. *)
Definition compile_order_by (table : Table) (stmt : select_stmt) : result unit :=
  match sel_order_by stmt with
  | Some c =>
      if mem c (map col_name (t_columns table)) then inr tt
      else inl (CompileError "Can't resolve label reference for ORDER BY")
  | None => inr tt
  end.

(** [dict(row)]: a row of a statement that selects a column twice has no
    mapping. *)
Definition row_mapping (cols : list string) (row : dict) : result dict :=
  if distinct cols then inr row
  else inl (NoSuchColumnError "Could not locate column in row").

Definition truthy_str (v : option string) : bool :=
  match v with
  | Some s => negb (s =? "")
  | None => false
  end.

Definition get (self : Self) (table_name : string) (columns : option (list string))
  (where' : pyval) (limit offset : option Z) (sort_by : option string)
  : M database (list dict) :=
  table <- get_table self table_name ;;
  cols <- lift (selected table columns) ;;
  let stmt := Select (t_name table) cols [] None None None in
  stmt <- lift (if truthy where' then _where_clause stmt table where' else inr stmt) ;;
  let stmt :=
    if truthy_int offset
    then Select (sel_from stmt) (sel_columns stmt) (sel_where stmt)
           offset (sel_order_by stmt) (sel_limit stmt)
    else stmt in
  let stmt :=
    if truthy_str sort_by
    then Select (sel_from stmt) (sel_columns stmt) (sel_where stmt)
           (sel_offset stmt) sort_by (sel_limit stmt)
    else stmt in
  let stmt :=
    if truthy_int limit
    then Select (sel_from stmt) (sel_columns stmt) (sel_where stmt)
           (sel_offset stmt) (sel_order_by stmt) limit
    else stmt in
  _ <- lift (compile_order_by table stmt) ;;
  rows <- execute_select dialect_op stmt ;;
  for_fold (fun results row =>
              d <- lift (row_mapping (sel_columns stmt) row) ;;
              ret (results ++ [d]))
    [] rows.

Definition delete (self : Self) (table_name : string) (where' : pyval)
  : M database unit :=
  table <- get_table self table_name ;;
  let stmt := Delete (t_name table) [] in
  stmt <- lift (if truthy where' then _where_clause stmt table where' else inr stmt) ;;
  execute_delete dialect_op stmt.

End Reads.

(** *** update *)

(** [update] writes into the dictionaries it is given.  The caller's
    objects live in a store, addressed by reference; two references may
    name the same object. *)
Definition ref : Type := nat.
Definition heap : Type := ref -> dict.

Definition heap_set (h : heap) (r : ref) (d : dict) : heap :=
  fun r' => if Nat.eqb r' r then d else h r'.

Definition world : Type := (heap * database)%type.

Definition deref (r : ref) : M world dict :=
  fun w => (w, inr (fst w r)).

Definition store (r : ref) (d : dict) : M world unit :=
  fun w => ((heap_set (fst w) r d, snd w), inr tt).

(** A database operation, run in a world. *)
Definition with_db {A} (m : M database A) : M world A :=
  fun w => let (db', a) := m (snd w) in ((fst w, db'), a).

Inductive on_arg : Type :=
| OnStr (s : string)               (* on: str *)
| OnList (l : list string).        (* on: list[str] *)

Inductive data_arg : Type :=
| DataDict (r : ref)               (* data: dict *)
| DataList (l : list ref).         (* data: list[dict] *)

(** [conn.execute] compiles the statement for the keys of the first
    parameter set: a key given to [values] must be a column, and a column
    that is a key of the parameter set without being given to [values]
    would be set from a parameter of its own name, which the [bindparam]
    of the WHERE clause of that name rules out. *)
Definition compile_update (table : Table) (s : update_stmt) (params : list dict)
  : result unit :=
  if negb (forallb (fun cn => mem (fst cn) (map col_name (t_columns table)))
             (upd_values s))
  then inl (CompileError "Unconsumed column names")
  else
    match params with
    | p :: _ =>
        if existsb (fun c => dict_has c p && negb (mem c (map fst (upd_values s))))
             (map col_name (t_columns table))
        then inl (CompileError
                    "bindparam() name is reserved for automatic usage in the SET clause")
        else inr tt
    | [] => inr tt
    end.

(** [record[f"_{column}"] = record.pop(column)] *)
Definition rename_match_field (record : ref) (column : string) : M world unit :=
  d <- deref record ;;
  vd <- lift (dict_pop column d) ;;
  store record (dict_set ("_" ++ column)%string (fst vd) (snd vd)).

(** [for column in on: ...] for one record *)
Definition rename_match_fields (on : list string) (record : ref) : M world unit :=
  for_fold (fun _ column => rename_match_field record column) tt on.

Definition update (self : Self) (table_name : string) (data : data_arg)
  (on : on_arg) : M world Z :=
  table <- with_db (get_table self table_name) ;;
  let on := match on with OnStr s => [s] | OnList l => l end in
  let data := match data with DataDict r => [r] | DataList l => l end in
  returning_ <- lift (rfold (fun acc c => c' <~ table_c table c ;; inr (acc ++ [c']))
                        [] on) ;;
  wh <- lift (rfold (fun acc column =>
                       c <~ table_c table column ;;
                       inr (acc ++ [(c, ("_" ++ column)%string)]))
                [] on) ;;
  first <- match data with
           | [] => raise (IndexError "list index out of range")
           | r :: _ => deref r
           end ;;
  let values :=
    map (fun k => (k, k)) (filter (fun k => negb (mem k on)) (dict_keys first)) in
  let stmt := Update (t_name table) returning_ wh values in
  for_fold (fun _ record => rename_match_fields on record) tt data ;;
  params <- for_fold (fun acc record => d <- deref record ;; ret (acc ++ [d])) [] data ;;
  _ <- lift (compile_update table stmt params) ;;
  with_db (execute_update stmt params).

End Database.

Import Database.

(* ===================================================================== *)
(** ** Vocabulary of the properties *)
(* ===================================================================== *)

(** The number of chunks, [ceil(n / c)], written with the floor division
    of [Z]. *)
Definition ceil_div (n c : Z) : Z := ((n + c - 1) / c)%Z.

(** The [i]-th run of [k] elements of a list. *)
Definition chunk_at {A} (k : nat) (l : list A) (i : nat) : list A :=
  firstn k (skipn (i * k) l).

(** Integers and strings: the values a key can be compared on. *)
Definition scalar (v : pyval) : bool :=
  match v with
  | PInt _ | PStr _ => true
  | _ => false
  end.

(** The [set_] clause [upsert] builds from a list of keys. *)
Definition set_for (overwrite_with_null : bool) (ks : list string)
  : list (string * sqlexpr) :=
  map (fun k => (k, if overwrite_with_null then Excluded k
                    else Coalesce (Excluded k) (TableCol k))) ks.

(** A record whose values for the keys [ks] are values the columns
    [cols] store as they are given. *)
Definition typed (cols : list column) (ks : list string) (r : dict) : Prop :=
  forallb (fun c => fits_column cols c (row_get c r)) ks = true.

(** A record [upsert] can send: its keys are [ks], its primary-key values
    are integers or strings, and its values are of the kind and range of
    their columns. *)
Definition record_ok (cols : list column) (ks pk : list string) (r : dict) : Prop :=
  dict_keys r = ks /\ forallb scalar (key_of pk r) = true /\ typed cols ks r.

(** The catalog entry without its rows. *)
Definition same_schema (a b : relation) : Prop :=
  rel_columns a = rel_columns b
  /\ rel_primary_key a = rel_primary_key b
  /\ rel_uniques a = rel_uniques b.

(** A relation with the given columns and key and no unique constraint. *)
Definition fits (cols : list column) (pk : list string) (rel : relation) : Prop :=
  rel_columns rel = cols /\ rel_primary_key rel = pk /\ rel_uniques rel = [].

(** A chunk the server accepts: records of that kind, with primary keys
    that differ from one another. *)
Definition chunk_ok (cols : list column) (pk ks : list string) (chunk : list dict)
  : Prop :=
  chunk <> [] /\ Forall (record_ok cols ks pk) chunk /\ keys_distinct pk chunk = true.

(** The rows [rows'] hold a row for every row of [rows], under the same
    key, next to the keys that are new. *)
Definition keeps_rows (index : list string) (rows rows' : list dict) : Prop :=
  exists new,
    Permutation (map (key_of index) rows') (map (key_of index) rows ++ new).

(** The statement [upsert] issues for a chunk of records with keys [ks]. *)
Definition stmt_of (into : string * string) (pk : list string) (ow : bool)
  (ks : list string) (chunk : list dict) : insert_stmt :=
  Insert into chunk pk pk (set_for ow ks).

(** The exception [upsert] raises for a table without a primary key. *)
Definition no_primary_key (table_name : string) : exn :=
  Exception ("No primary key found for table " ++ table_name)%string.

(** The column [add_column] creates for a column spec: a name and a type,
    nothing else. *)
Definition added_column (m : ColumnModel.t) : column :=
  Column (ColumnModel.name m) (dialect_impl (ColumnModel.type m)) None None None None.

(** The text [add_column] writes for a column. *)
Definition add_column_text_of (self : Self) (table_name column_name : string)
  (column_type : satype) : string :=
  add_column_query (schema self) table_name column_name (dialect_impl column_type).

(** The server reads that text as the ALTER TABLE it is meant to be: the
    schema, table and column are the ones given and the type is the one
    given. *)
Definition reads_as_meant (self : Self) (table_name column_name : string)
  (column_type : satype) : Prop :=
  read_statement (add_column_text_of self table_name column_name column_type)
  = Reads (AddColumn (schema self, table_name) column_name (dialect_impl column_type)).

(** The specs of [mappings] whose name the relation does not have yet. *)
Definition missing_from (rel : relation) (mappings : list ColumnModel.t)
  : list ColumnModel.t :=
  filter (fun m => negb (mem (ColumnModel.name m) (column_names rel))) mappings.

(** The criteria a predicate compiles to, whatever the statement. *)
Definition criteria (table : Table) (where' : pyval) : result (list cond) :=
  _where_clause (S := list cond) [] table where'.

(** The operators [_where_clause] knows, compared in lower case. *)
Definition recognized : list string :=
  ["in"; "not in"; "like"; "not like"; "is null"; "is not null"; "between";
   "not between"].

Definition is_recognized (operator : string) : bool :=
  mem (lower operator) recognized.

(** The classes of the exceptions [_where_clause] can raise. *)
Definition where_errors : list string :=
  ["KeyError"; "AttributeError"; "TypeError"; "IndexError"; "ArgumentError"].

(** The SQL text of a compiled condition, without its names and
    parameters. *)
Definition texts (ps : list piece) : list string :=
  flat_map (fun p => match p with Text t => [t] | _ => [] end) ps.

(** The words SQLAlchemy writes itself. *)
Definition sql_words : list string :=
  [" IS NULL"; " IS NOT NULL"; " = "; " IN ("; " NOT IN ("; ")"; " LIKE ";
   " NOT LIKE "; " BETWEEN "; " NOT BETWEEN "; " AND "; "NOT ("; " "].

(** The operators given to [column.op(...)] in a condition. *)
Fixpoint operators (x : cond) : list string :=
  match x with
  | COp _ op _ => [op]
  | CNot y => operators y
  | _ => []
  end.

(** What [record[f"_{column}"] = record.pop(column)] leaves of a record
    that has the column, and the loop over the match fields. *)
Definition renamed_field (d : dict) (c : string) : dict :=
  dict_set ("_" ++ c)%string (row_get c d) (dict_remove c d).

Definition renamed (on : list string) (d : dict) : dict :=
  fold_left renamed_field on d.

(** The loop over the match fields finds every field it pops. *)
Fixpoint can_rename (on : list string) (d : dict) : bool :=
  match on with
  | [] => true
  | c :: on' => dict_has c d && can_rename on' (renamed_field d c)
  end.

(** No match field is the underscore-prefixed name of a match field. *)
Definition underscore_free (on : list string) : Prop :=
  forall c c', In c on -> In c' on -> c <> ("_" ++ c')%string.

(** The statement [update] builds for match fields [on] and a first record
    with keys [ks]. *)
Definition update_stmt_of (tbl : string * string) (on ks : list string)
  : update_stmt :=
  Update tbl on (map (fun c => (c, ("_" ++ c)%string)) on)
    (map (fun k => (k, k)) (filter (fun k => negb (mem k on)) ks)).

(** The rows a record locates: those equal to it on every match field. *)
Definition located (on : list string) (d : dict) (rows : list dict) : list dict :=
  filter (row_matches (map (fun c => (c, row_get c d)) on)) rows.

Definition located_total (on : list string) (ds : list dict) (rows : list dict) : Z :=
  fold_left (fun n d => (n + Z.of_nat (List.length (located on d rows)))%Z) ds 0%Z.

(** Two lists of rows that agree, row by row, on the columns [on]. *)
Definition agree (on : list string) (rows rows0 : list dict) : Prop :=
  Forall2 (fun a b => forall c, In c on -> row_get c a = row_get c b) rows rows0.

(** A record [update] can send: it has the match fields and the keys of
    the first record. *)
Definition sendable (on ks : list string) (d : dict) : Prop :=
  incl on (dict_keys d) /\ incl ks (dict_keys d).

(** *** A small database for the examples *)

Definition me : Self := {| db_url := "postgresql://localhost/shop"; schema := "public" |}.

Definition plain (n ty : string) : column := Column n ty None None None None.

Definition orders : relation :=
  Relation [plain "id" "INTEGER"; plain "total" "INTEGER"; plain "note" "TEXT"]
    ["id"] []
    [[("id", PInt 1); ("total", PInt 10); ("note", PStr "gift")]].

Definition shop : database := DB [(("public", "orders"), orders)] [].

(** The same table in a schema whose name has a capital letter. *)
Definition sales : Self := {| db_url := "postgresql://localhost/shop"; schema := "Sales" |}.

Definition sales_shop : database := DB [(("Sales", "orders"), orders)] [].

(** A relation without a primary key. *)
Definition events : relation :=
  Relation [plain "at" "INTEGER"; plain "what" "TEXT"] [] [] [].

Definition journal : database := DB [(("public", "events"), events)] [].

Definition orders_table : Table :=
  {| t_name := ("public", "orders");
     t_columns := rel_columns orders;
     t_primary_key := rel_primary_key orders |}.

Definition spec_of (n ty : string) : ColumnModel.t :=
  ColumnModel.Build n (TypeClass ty) None None None None.

Definition all_orders : select_stmt :=
  Select ("public", "orders") ["id"; "total"; "note"] [] None None None.

(** The comparison operators, as PostgreSQL reads them on integers. *)
Definition pg_op (op : string) (a b : pyval) : option bool :=
  match a, b with
  | PInt x, PInt y =>
      if op =? "<" then Some (x <? y)%Z
      else if op =? ">" then Some (y <? x)%Z
      else if op =? "<=" then Some (x <=? y)%Z
      else if op =? ">=" then Some (y <=? x)%Z
      else None
  | _, _ => None
  end.

(** A store holding one record, at reference 0. *)
Definition one_record (d : dict) : heap :=
  fun r => match r with 0 => d | _ => [] end.

Definition order (id total : Z) (note : pyval) : dict :=
  [("id", PInt id); ("total", PInt total); ("note", note)].

(* ===================================================================== *)
(** ** Vocabulary of the further properties *)
(* ===================================================================== *)

(** The [Table] that reflection gives for a relation of the catalog. *)
Definition reflect (self : Self) (table_name : string) (rel : relation) : Table :=
  {| t_name := (schema self, table_name);
     t_columns := rel_columns rel;
     t_primary_key := rel_primary_key rel |}.

(** The criteria [get] and [delete] put on their statement: those of the
    predicate when it is truthy, none otherwise. *)
Definition compiled (table : Table) (where' : pyval) : result (list cond) :=
  if truthy where' then criteria table where' else inr [].

(** The window [get] cuts out of the rows: the offset is skipped first,
    then the limit is applied; 0 and [None] apply nothing. *)
Definition paginate {A} (limit offset : option Z) (rows : list A) : list A :=
  let rest := match offset with
              | Some o => skipn (Z.to_nat o) rows
              | None => rows
              end in
  match limit with
  | Some n => if (n =? 0)%Z then rest else firstn (Z.to_nat n) rest
  | None => rest
  end.

(** What [get] makes of the rows the server returns: the rows themselves,
    unless a column is selected twice and there is a row to map. *)
Definition mapped (cols : list string) (rows : list dict) : result (list dict) :=
  if distinct cols then inr rows
  else match rows with
       | [] => inr []
       | _ :: _ => inl (NoSuchColumnError "Could not locate column in row")
       end.

(** The columns [get] selects: the ones asked for, or all of them when
    none is asked for. *)
Definition selection (rel : relation) (columns : option (list string)) : list string :=
  match columns with
  | Some (c :: cs) => c :: cs
  | _ => column_names rel
  end.

(** An optional integer that is not negative. *)
Definition not_negative (v : option Z) : Prop :=
  match v with
  | Some z => (0 <= z)%Z
  | None => True
  end.

(** A value of a predicate item whose operator, when it has one, can be
    read: a plain value, or a mapping with a string under "operator". *)
Definition readable_leaf (v : pyval) : Prop :=
  match v with
  | PDict d => exists operator, dict_get "operator" d = Some (PStr operator)
  | _ => True
  end.

(** The column a criterion is put on. *)
Fixpoint cond_column (x : cond) : string :=
  match x with
  | CEq c _ | CIn c _ | CNotIn c _ | CLike c _ | CNotLike c _ => c
  | CIsNull c | CIsNotNull c => c
  | CBetween c _ _ => c
  | CNot y => cond_column y
  | COp c _ _ => c
  end.

(** The items of a predicate, in the order the two loops of
    [_where_clause] visit them. *)
Definition items_of (where' : pyval) : list (string * pyval) :=
  match where' with
  | PDict d => d
  | PList l => flat_map (fun w => match w with PDict d => d | _ => [] end) l
  | _ => []
  end.

(** A predicate with one item, whose value is a mapping. *)
Definition one_item (k : string) (d : dict) : pyval := PDict [(k, PDict d)].

(** Rows in ascending order of a column, as [value_leb] compares its
    values: each row is at most the next. *)
Fixpoint ascending (c : string) (rows : list dict) : bool :=
  match rows with
  | [] => true
  | a :: rest =>
      match rest with
      | [] => true
      | b :: _ => value_leb (row_get c a) (row_get c b)
      end && ascending c rest
  end.

(** A column that holds integers and NULLs only: the values the server
    orders as [value_leb] does. *)
Definition whole_numbers (c : string) (rows : list dict) : Prop :=
  Forall (fun row => match row_get c row with
                     | PInt _ | PNone => True
                     | _ => False
                     end) rows.

(** The column [create_table] declares for a column spec. *)
Definition declared_column (m : ColumnModel.t) : column :=
  Column (ColumnModel.name m) (dialect_impl (ColumnModel.type m))
    (ColumnModel.default m) (ColumnModel.server_default m)
    (ColumnModel.autoincrement m) (ColumnModel.foreign_key m).

(** The columns of the [primary_key] argument: a string names one column,
    and an empty one, like [None], names none. *)
Definition primary_key_of (primary_key : option (string + list string)) : list string :=
  match primary_key with
  | Some (inl s) => if s =? "" then [] else [s]
  | Some (inr l) => l
  | None => []
  end.

Definition uniques_of (unique_columns : option (list string)) : list string :=
  match unique_columns with
  | Some l => l
  | None => []
  end.

(** The columns of the [Table] that [create_table] builds: a spec whose
    name came before stands in the place of the earlier one. *)
Definition table_columns (mappings : list ColumnModel.t) : list column :=
  fold_left table_add_column (map declared_column mappings) [].

(** The CREATE TABLE statement [create_table] issues. *)
Definition create_stmt (self : Self) (table_name : string)
  (mappings : list ColumnModel.t) (primary_key : option (string + list string))
  (unique_columns : option (list string)) : ddl :=
  CreateTable (schema self, table_name) (map declared_column mappings)
    (primary_key_of primary_key) (uniques_of unique_columns).

(** What one record of [update] does to the rows: those equal to the
    record on every match field take the record's values for the keys
    [ks] that are not match fields. *)
Definition apply_update (on ks : list string) (rows : list dict) (d : dict)
  : list dict :=
  map (fun row =>
         if row_matches (map (fun c => (c, row_get c d)) on) row
         then assign (map (fun k => (k, row_get k d))
                        (filter (fun k => negb (mem k on)) ks)) row
         else row)
    rows.

(** A store holding two records, at references 0 and 1. *)
Definition two_records (d0 d1 : dict) : heap :=
  fun r => match r with 0 => d0 | 1 => d1 | _ => [] end.

(* ===================================================================== *)
(** ** Properties *)
(* ===================================================================== *)

(** *** Strings, membership and dictionaries *)

Lemma mem_In (k : string) (l : list string) : mem k l = true <-> In k l.
Proof.
  unfold mem. rewrite existsb_exists. split.
  - intros [x [Hin Heq]]. apply String.eqb_eq in Heq. now subst.
  - intros Hin. exists k. split; [assumption | apply String.eqb_refl].
Qed.

Lemma mem_not_In (k : string) (l : list string) : mem k l = false <-> ~ In k l.
Proof.
  rewrite <- mem_In. destruct (mem k l); split; congruence.
Qed.

Lemma dict_get_keys (k : string) (d : dict) :
  In k (dict_keys d) <-> exists v, dict_get k d = Some v.
Proof.
  induction d as [|[k' v'] d IH]; simpl.
  - split; [tauto | intros [v Hv]; discriminate].
  - destruct (String.eqb_spec k' k) as [->|Hne].
    + split; [intros _; now exists v' | now left].
    + rewrite <- IH. split; [intros [H|H]; [contradiction | assumption] | now right].
Qed.

Lemma dict_get_none (k : string) (d : dict) :
  dict_get k d = None <-> ~ In k (dict_keys d).
Proof.
  rewrite dict_get_keys. destruct (dict_get k d) as [v|].
  - split; [discriminate | intros H; exfalso; apply H; now exists v].
  - split; [intros _ [v Hv]; discriminate | reflexivity].
Qed.

Lemma dict_has_In (k : string) (d : dict) :
  dict_has k d = true <-> In k (dict_keys d).
Proof.
  unfold dict_has. rewrite dict_get_keys. destruct (dict_get k d) as [v|].
  - split; [intros _; now exists v | reflexivity].
  - split; [discriminate | intros [v Hv]; discriminate].
Qed.

Lemma dict_get_remove_eq (k : string) (d : dict) :
  dict_get k (dict_remove k d) = None.
Proof.
  induction d as [|[k' v'] d IH]; simpl; [reflexivity|].
  destruct (String.eqb_spec k' k) as [->|Hne]; [assumption|].
  simpl. destruct (String.eqb_spec k' k); [contradiction | assumption].
Qed.

Lemma dict_get_remove_ne (k k' : string) (d : dict) :
  k <> k' -> dict_get k' (dict_remove k d) = dict_get k' d.
Proof.
  intros Hne. induction d as [|[k0 v0] d IH]; simpl; [reflexivity|].
  destruct (String.eqb_spec k0 k) as [->|Hk].
  - destruct (String.eqb_spec k k'); [contradiction | assumption].
  - simpl. now rewrite IH.
Qed.

Lemma dict_get_set_eq (k : string) (v : pyval) (d : dict) :
  dict_get k (dict_set k v d) = Some v.
Proof.
  induction d as [|[k0 v0] d IH]; simpl.
  - now rewrite String.eqb_refl.
  - destruct (String.eqb_spec k0 k) as [->|Hk]; simpl.
    + now rewrite String.eqb_refl.
    + destruct (String.eqb_spec k0 k); [contradiction | assumption].
Qed.

Lemma dict_get_set_ne (k k' : string) (v : pyval) (d : dict) :
  k <> k' -> dict_get k' (dict_set k v d) = dict_get k' d.
Proof.
  intros Hne. induction d as [|[k0 v0] d IH]; simpl.
  - destruct (String.eqb_spec k k'); [contradiction | reflexivity].
  - destruct (String.eqb_spec k0 k) as [->|Hk]; simpl.
    + destruct (String.eqb_spec k k'); [contradiction | reflexivity].
    + now rewrite IH.
Qed.

Lemma row_get_set_eq (k : string) (v : pyval) (d : dict) :
  row_get k (dict_set k v d) = v.
Proof. unfold row_get. now rewrite dict_get_set_eq. Qed.

Lemma row_get_set_ne (k k' : string) (v : pyval) (d : dict) :
  k <> k' -> row_get k' (dict_set k v d) = row_get k' d.
Proof. intros H. unfold row_get. now rewrite dict_get_set_ne. Qed.

(** *** Chunking *)

Lemma py_slice_nat {A} (l : list A) (a c : nat) :
  py_slice l (Z.of_nat a) (Z.of_nat a + Z.of_nat c) = firstn c (skipn a l).
Proof.
  unfold py_slice.
  destruct (Z.ltb_spec (Z.of_nat a) 0) as [Hneg|_]; [lia|].
  destruct (Z.ltb_spec (Z.of_nat a + Z.of_nat c) 0) as [Hneg|_]; [lia|].
  destruct (Nat.le_gt_cases a (List.length l)) as [Hle|Hgt].
  - rewrite (Z.min_l (Z.of_nat a)) by lia. rewrite Nat2Z.id.
    destruct (Nat.le_gt_cases (a + c) (List.length l)) as [Hfit|Hover].
    + rewrite Z.min_l by lia. f_equal. lia.
    + rewrite Z.min_r by lia.
      rewrite (firstn_all2 (n := c)) by (rewrite length_skipn; lia).
      apply firstn_all2. rewrite length_skipn. lia.
  - rewrite !Z.min_r by lia. rewrite Z.sub_diag. change (Z.to_nat 0) with 0.
    rewrite skipn_all2 by lia. rewrite skipn_all2 by lia.
    now rewrite !firstn_nil.
Qed.

Lemma py_range_chunks (n c : Z) :
  (0 <= n)%Z -> (1 <= c)%Z ->
  py_range 0 n c =
  inr (map (fun i => (0 + Z.of_nat i * c)%Z) (seq 0 (Z.to_nat (ceil_div n c)))).
Proof.
  intros Hn Hc. unfold py_range, ceil_div.
  destruct (Z.eqb_spec c 0) as [H0|_]; [lia|].
  destruct (Z.ltb_spec 0 c) as [_|H0]; [|lia].
  assert ((if (0 <? n)%Z then (n - 0 - 1) / c + 1 else 0)%Z = ((n + c - 1) / c)%Z)
    as ->; [|reflexivity].
  destruct (Z.ltb_spec 0 n) as [Hpos|Hz].
  - replace (n + c - 1)%Z with (n - 0 - 1 + 1 * c)%Z by lia.
    now rewrite Z.div_add by lia.
  - assert (n = 0)%Z as -> by lia.
    symmetry. apply Z.div_small. lia.
Qed.

Lemma ceil_div_bounds (n c : Z) :
  (0 <= n)%Z -> (1 <= c)%Z ->
  (0 <= ceil_div n c /\ n <= ceil_div n c * c
   /\ (forall i, 0 <= i < ceil_div n c -> i * c < n))%Z.
Proof.
  intros Hn Hc. unfold ceil_div.
  pose proof (Z.div_mod (n + c - 1) c ltac:(lia)) as Hdm.
  pose proof (Z.mod_pos_bound (n + c - 1) c ltac:(lia)) as Hmod.
  assert (0 <= (n + c - 1) / c)%Z by (apply Z.div_pos; lia).
  repeat split; [assumption | nia | intros i Hi; nia].
Qed.

Lemma chunks_of_nat (data : list dict) (c : Z) :
  (1 <= c)%Z ->
  chunks_of data c =
  inr (map (chunk_at (Z.to_nat c) data)
         (seq 0 (Z.to_nat (ceil_div (Z.of_nat (List.length data)) c)))).
Proof.
  intros Hc. unfold chunks_of.
  rewrite py_range_chunks by lia. simpl. rewrite map_map. f_equal.
  apply map_ext. intros i. unfold chunk_at.
  rewrite <- (py_slice_nat data (i * Z.to_nat c) (Z.to_nat c)).
  f_equal; lia.
Qed.

Lemma firstn_add {A} (a b : nat) (l : list A) :
  firstn (a + b) l = firstn a l ++ firstn b (skipn a l).
Proof.
  revert l. induction a as [|a IH]; intros l; simpl; [reflexivity|].
  destruct l as [|x l]; simpl.
  - now rewrite firstn_nil.
  - now rewrite IH.
Qed.

Lemma concat_chunk_at {A} (k : nat) (l : list A) (m : nat) :
  List.concat (map (chunk_at k l) (seq 0 m)) = firstn (m * k) l.
Proof.
  induction m as [|m IH]; [reflexivity|].
  rewrite seq_S, map_app, concat_app, IH. change (0 + m) with m.
  cbn [map List.concat]. rewrite app_nil_r. unfold chunk_at.
  replace (S m * k) with (m * k + k) by lia.
  now rewrite firstn_add.
Qed.

Lemma chunks_of_spec (data : list dict) (c : Z) :
  (1 <= c)%Z ->
  exists chunks,
    chunks_of data c = inr chunks
    /\ List.concat chunks = data
    /\ Z.of_nat (List.length chunks) = ceil_div (Z.of_nat (List.length data)) c
    /\ Forall (fun ch => 1 <= List.length ch <= Z.to_nat c
                         /\ exists i, ch = chunk_at (Z.to_nat c) data i) chunks.
Proof.
  intros Hc.
  pose proof (ceil_div_bounds (Z.of_nat (List.length data)) c ltac:(lia) Hc)
    as [Hm0 [Hcover Hstart]].
  set (m := ceil_div (Z.of_nat (List.length data)) c) in *.
  exists (map (chunk_at (Z.to_nat c) data) (seq 0 (Z.to_nat m))).
  split; [now apply chunks_of_nat|]. split; [|split].
  - rewrite concat_chunk_at. apply firstn_all2. nia.
  - rewrite length_map, length_seq. lia.
  - apply Forall_forall. intros ch Hin.
    apply in_map_iff in Hin. destruct Hin as [i [<- Hi]].
    apply in_seq in Hi. unfold chunk_at. split.
    + rewrite length_firstn, length_skipn.
      specialize (Hstart (Z.of_nat i) ltac:(lia)). nia.
    + now exists i.
Qed.

(** *** Running one INSERT *)

Lemma on_conflict_set_fold (table : Table) (ow : bool) (ks : list string)
  (acc : list (string * sqlexpr)) :
  rfold (fun set_ k =>
           _ <~ table_c table k ;;
           inr (set_ ++
                  [(k, if ow then Excluded k else Coalesce (Excluded k) (TableCol k))]))
        acc ks
  = if forallb (fun k => mem k (map col_name (t_columns table))) ks
    then inr (acc ++ set_for ow ks)
    else match find (fun k => negb (mem k (map col_name (t_columns table)))) ks with
         | Some k => inl (KeyError k)
         | None => inr (acc ++ set_for ow ks)
         end.
Proof.
  revert acc. induction ks as [|k ks IH]; intros acc; simpl.
  - now rewrite app_nil_r.
  - unfold table_c. destruct (mem k (map col_name (t_columns table))); simpl.
    + rewrite IH. rewrite <- app_assoc. reflexivity.
    + reflexivity.
Qed.

Lemma on_conflict_set_spec (table : Table) (ow : bool) (chunk : list dict)
  (s : list (string * sqlexpr)) :
  on_conflict_set table ow chunk = inr s <->
  exists first rest,
    chunk = first :: rest
    /\ incl (dict_keys first) (map col_name (t_columns table))
    /\ s = set_for ow (dict_keys first).
Proof.
  unfold on_conflict_set. destruct chunk as [|first rest]; simpl.
  - split; [discriminate | intros [f [r [H _]]]; discriminate].
  - rewrite on_conflict_set_fold. simpl.
    destruct (forallb _ (dict_keys first)) eqn:Hall.
    + rewrite forallb_forall in Hall. split.
      * intros [= <-]. exists first, rest. repeat split.
        intros k Hk. apply mem_In. now apply Hall.
      * intros [f [r [[= <- <-] [_ ->]]]]. reflexivity.
    + assert (Hnot : ~ incl (dict_keys first) (map col_name (t_columns table))).
      { intros Hincl. rewrite <- not_true_iff_false in Hall. apply Hall.
        apply forallb_forall. intros k Hk. apply mem_In. now apply Hincl. }
      destruct (find _ (dict_keys first)) as [k|] eqn:Hfind.
      * split; [discriminate | intros [f [r [[= <- <-] [Hincl _]]]]; contradiction].
      * exfalso. apply Hnot. intros k Hk.
        pose proof (find_none _ _ Hfind k Hk) as Hk'.
        apply mem_In. now apply negb_false_iff in Hk'.
Qed.

Lemma set_for_keys (ow : bool) (ks : list string) : map fst (set_for ow ks) = ks.
Proof.
  unfold set_for. rewrite map_map. simpl. apply map_id.
Qed.

(** The statement of a chunk, when it can be built. *)
Lemma upsert_stmt_built (table : Table) (index : list string) (ow : bool)
  (chunk : list dict) (s : insert_stmt) :
  upsert_stmt table index ow chunk = inr s ->
  exists first rest,
    chunk = first :: rest
    /\ dict_keys first <> []
    /\ incl (dict_keys first) (map col_name (t_columns table))
    /\ s = Insert (t_name table) chunk index index (set_for ow (dict_keys first)).
Proof.
  unfold upsert_stmt.
  destruct (on_conflict_set table ow chunk) as [e|set_] eqn:Hset; [discriminate|].
  cbn [rbind]. apply on_conflict_set_spec in Hset.
  destruct Hset as [first [rest [-> [Hincl ->]]]].
  destruct (dict_keys first) as [|k ks] eqn:Hkeys; [discriminate|].
  cbn [set_for map]. intros [= <-]. exists first, rest.
  rewrite Hkeys. repeat split; [discriminate | exact Hincl].
Qed.

(** What a column holds after DO UPDATE SET. *)
Lemma resolve_get (ow : bool) (ks : list string) (excluded stored : dict) (k : string) :
  row_get k (resolve (set_for ow ks) excluded stored) =
  if mem k ks
  then (if ow then row_get k excluded
        else match row_get k excluded with
             | PNone => row_get k stored
             | v => v
             end)
  else row_get k stored.
Proof.
  unfold resolve.
  assert (Hgen : forall row,
    row_get k (fold_left
                 (fun row ke => dict_set (fst ke) (eval_expr excluded stored (snd ke)) row)
                 (set_for ow ks) row) =
    if mem k ks
    then (if ow then row_get k excluded
          else match row_get k excluded with
               | PNone => row_get k stored
               | v => v
               end)
    else row_get k row).
  { induction ks as [|k0 ks IH]; intros row; simpl; [reflexivity|].
    rewrite IH. unfold mem in *. simpl.
    destruct (existsb (String.eqb k) ks) eqn:Hin.
    - now rewrite orb_true_r.
    - rewrite orb_false_r. destruct (String.eqb_spec k k0) as [->|Hne].
      + rewrite row_get_set_eq. now destruct ow.
      + apply row_get_set_ne. congruence. }
  apply Hgen.
Qed.

Lemma proposed_row_get (rel : relation) (cols : list string) (r : dict) (k : string) :
  In k (column_names rel) -> In k cols ->
  row_get k (proposed_row rel cols r) = row_get k r.
Proof.
  intros Hcol Hk. unfold proposed_row, column_names in *.
  induction (rel_columns rel) as [|c cs IH]; simpl in *; [contradiction|].
  unfold row_get at 1. simpl.
  destruct (String.eqb_spec (col_name c) k) as [Heq|Hne].
  - subst k. apply mem_In in Hk. now rewrite Hk.
  - destruct Hcol as [Heq|Hin]; [contradiction|]. now apply IH.
Qed.

Lemma key_of_proposed (rel : relation) (cols index : list string) (r : dict) :
  incl index (column_names rel) -> incl index cols ->
  key_of index (proposed_row rel cols r) = key_of index r.
Proof.
  intros Hcol Hk. unfold key_of. apply map_ext_in. intros k Hin.
  apply proposed_row_get; auto.
Qed.

Lemma scalar_not_null (l : list pyval) :
  forallb scalar l = true -> existsb is_null l = false.
Proof.
  induction l as [|v l IH]; simpl; [reflexivity|].
  intros H. apply andb_true_iff in H. destruct H as [Hv Hl].
  rewrite (IH Hl). now destruct v.
Qed.

Lemma key_of_scalar (pk : list string) (r : dict) (c : string) :
  forallb scalar (key_of pk r) = true -> In c pk -> scalar (row_get c r) = true.
Proof.
  intros H Hin. rewrite forallb_forall in H. apply H.
  unfold key_of. now apply (in_map (fun c => row_get c r)).
Qed.

Lemma returning_resolved (rel : relation) (ow : bool) (ks pk : list string)
  (r stored : dict) :
  incl ks (column_names rel) -> incl pk ks ->
  forallb scalar (key_of pk r) = true ->
  returning pk (resolve (set_for ow ks) (proposed_row rel ks r) stored)
  = returning pk r.
Proof.
  intros Hks Hpk Hsc. unfold returning. apply map_ext_in. intros c Hc.
  f_equal. rewrite resolve_get.
  assert (Hin : In c ks) by now apply Hpk.
  apply mem_In in Hin. rewrite Hin. apply mem_In in Hin.
  rewrite proposed_row_get by auto.
  pose proof (key_of_scalar pk r c Hsc Hc) as Hs.
  destruct ow; [reflexivity|]. now destruct (row_get c r).
Qed.

Lemma returning_proposed (rel : relation) (ks pk : list string) (r : dict) :
  incl ks (column_names rel) -> incl pk ks ->
  returning pk (proposed_row rel ks r) = returning pk r.
Proof.
  intros Hks Hpk. unfold returning. apply map_ext_in. intros c Hc.
  f_equal. apply proposed_row_get; auto.
Qed.

Lemma check_stored_ok (cols : list column) (cvs : list (string * pyval)) :
  forallb (fun cv => fits_column cols (fst cv) (snd cv)) cvs = true ->
  check_stored cols cvs = inr tt.
Proof.
  intros Hall. unfold check_stored.
  assert (Hboth : forallb (column_check of_kind cols) cvs = true
                  /\ forallb (column_check in_range cols) cvs = true).
  { rewrite forallb_forall in Hall. split; apply forallb_forall; intros [c v] Hin;
      specialize (Hall (c, v) Hin); unfold fits_column, column_check, accepts in *;
      cbn [fst snd] in *; destruct (type_of cols c); try discriminate;
      apply andb_true_iff in Hall; tauto. }
  destruct Hboth as [-> ->]. reflexivity.
Qed.

Lemma typed_stored (cols : list column) (ks : list string) (r : dict) :
  typed cols ks r ->
  check_stored cols (map (fun c => (c, row_get c r)) ks) = inr tt.
Proof.
  intros Hty. apply check_stored_ok. unfold typed in Hty.
  rewrite forallb_forall in *. intros cv Hin. apply in_map_iff in Hin.
  destruct Hin as [c [<- Hc]]. now apply Hty.
Qed.

Lemma insert_rows_ok (rel : relation) (into : string * string) (ow : bool)
  (ks : list string) (values : list dict) :
  let pk := rel_primary_key rel in
  let s := Insert into values pk pk (set_for ow ks) in
  rel_uniques rel = [] -> incl ks (column_names rel) -> incl pk ks ->
  forall records st,
    Forall (record_ok (rel_columns rel) ks pk) records ->
    keys_distinct pk records = true ->
    (forall r, In r records ->
               existsb (same_key (key_of pk r)) (st_touched st) = false) ->
    exists rows',
      rfold (insert_row rel s ks) st records
      = inr (InsertState rows'
               (st_touched st ++ map (key_of pk) records)
               (st_returned st ++ map (returning pk) records)).
Proof.
  intros pk s Huniq Hks Hpk records.
  assert (Hpkc : incl pk (column_names rel)) by (eapply incl_tran; eauto).
  induction records as [|r records IH]; intros st Hok Hdist Hfresh.
  - exists (st_rows st). simpl. rewrite !app_nil_r. now destruct st.
  - inversion Hok as [|? ? [Hkeys [Hsc Hty]] Hok']; subst.
    simpl in Hdist. apply andb_true_iff in Hdist. destruct Hdist as [Hhead Hdist].
    apply negb_true_iff in Hhead.
    assert (Hstep : exists rows1,
      insert_row rel s (dict_keys r) st r
      = inr (InsertState rows1 (st_touched st ++ [key_of pk r])
               (st_returned st ++ [returning pk r]))).
    { unfold insert_row. cbn [s ins_index_elements ins_set ins_returning].
      fold pk. rewrite (typed_stored _ _ _ Hty). cbn [rbind].
      rewrite key_of_proposed by assumption.
      rewrite (scalar_not_null _ Hsc).
      rewrite (Hfresh r (or_introl eq_refl)).
      rewrite Huniq. unfold violates_unique. cbn [existsb].
      destruct (find_conflict pk (key_of pk r) (st_rows st))
        as [[[before stored] after]|].
      - eexists. rewrite returning_resolved by assumption. reflexivity.
      - eexists. rewrite returning_proposed by assumption. reflexivity. }
    destruct Hstep as [rows1 Hstep].
    cbn [rfold]. rewrite Hstep. cbn [rbind].
    destruct (IH (InsertState rows1 (st_touched st ++ [key_of pk r])
                    (st_returned st ++ [returning pk r])) Hok' Hdist)
      as [rows' Hrest].
    + intros r' Hin'. cbn [st_touched]. rewrite existsb_app.
      rewrite (Hfresh r' (or_intror Hin')). cbn [existsb orb].
      rewrite orb_false_r.
      destruct (same_key (key_of pk r') (key_of pk r)) eqn:Hsame; [|reflexivity].
      exfalso. rewrite <- not_true_iff_false in Hhead. apply Hhead.
      rewrite existsb_exists. now exists r'.
    + exists rows'. rewrite Hrest. cbn [st_touched st_returned].
      now rewrite <- !app_assoc.
Qed.

Lemma same_name_eq (a b : string * string) : same_name a b = true <-> a = b.
Proof.
  unfold same_name. destruct a as [a1 a2], b as [b1 b2]. simpl.
  rewrite andb_true_iff, !String.eqb_eq. split.
  - intros [-> ->]. reflexivity.
  - intros [= -> ->]. now split.
Qed.

Lemma same_name_refl (a : string * string) : same_name a a = true.
Proof. now apply same_name_eq. Qed.

Lemma find_set_relation_eq l n r : find_relation (set_relation l n r) n = Some r.
Proof.
  induction l as [|[n0 r0] l IH]; simpl.
  - now rewrite same_name_refl.
  - destruct (same_name n0 n) eqn:Hn; simpl.
    + now rewrite same_name_refl.
    + now rewrite Hn.
Qed.

Lemma find_set_relation_ne l n r n' :
  n <> n' -> find_relation (set_relation l n r) n' = find_relation l n'.
Proof.
  intros Hne. induction l as [|[n0 r0] l IH]; simpl.
  - destruct (same_name n n') eqn:Hn; [|reflexivity].
    apply same_name_eq in Hn. contradiction.
  - destruct (same_name n0 n) eqn:Hn; simpl.
    + apply same_name_eq in Hn. subst n0.
      destruct (same_name n n') eqn:Hn'; [|reflexivity].
      apply same_name_eq in Hn'. contradiction.
    + now rewrite IH.
Qed.

Section UpsertRun.

Variables (into : string * string) (cols : list column) (pk : list string).
Variables (ow : bool) (ks : list string).

Hypothesis Hks : incl ks (map col_name cols).
Hypothesis Hpk : incl pk ks.
Hypothesis Hsome : ks <> [].

Let table : Table :=
  {| t_name := into; t_columns := cols; t_primary_key := pk |}.

Lemma upsert_stmt_ok (chunk : list dict) :
  chunk_ok cols pk ks chunk ->
  upsert_stmt table pk ow chunk = inr (stmt_of into pk ow ks chunk).
Proof.
  intros [Hne [Hok _]]. unfold upsert_stmt.
  destruct chunk as [|first rest]; [contradiction|].
  inversion Hok as [|? ? [Hkeys _] _].
  assert (Hset : on_conflict_set table ow (first :: rest) = inr (set_for ow ks)).
  { apply on_conflict_set_spec. exists first, rest. rewrite Hkeys.
    split; [reflexivity|]. split; [exact Hks | reflexivity]. }
  rewrite Hset. cbn [rbind]. unfold stmt_of.
  destruct ks as [|k ks']; [contradiction | reflexivity].
Qed.

Lemma compile_insert_ok (chunk : list dict) :
  chunk_ok cols pk ks chunk ->
  compile_insert table (stmt_of into pk ow ks chunk) = inr tt.
Proof.
  intros [Hne [Hok _]]. unfold compile_insert, stmt_of. cbn [ins_values t_columns table].
  assert (Hcolumns : insert_columns chunk = ks).
  { destruct chunk as [|first rest]; [contradiction|].
    inversion Hok as [|? ? [Hkeys _] _]. exact Hkeys. }
  rewrite Hcolumns.
  assert (H1 : forallb (fun c => mem c (map col_name cols)) ks = true).
  { apply forallb_forall. intros c Hc. apply mem_In. now apply Hks. }
  rewrite H1. cbn [negb].
  assert (H2 : forallb (fun r => forallb (fun c => dict_has c r) ks) chunk = true).
  { apply forallb_forall. intros r Hr. apply forallb_forall. intros c Hc.
    apply dict_has_In. rewrite Forall_forall in Hok.
    destruct (Hok r Hr) as [Hkeys _]. now rewrite Hkeys. }
  now rewrite H2.
Qed.

Lemma exec_insert_ok (rel : relation) (chunk : list dict) :
  fits cols pk rel -> chunk_ok cols pk ks chunk ->
  exists rows',
    exec_insert (stmt_of into pk ow ks chunk) rel
    = inr (with_rows rel rows', map (returning pk) chunk).
Proof.
  intros [Hcols [Hkey Huniq]] [Hne [Hok Hdist]]. unfold exec_insert, stmt_of.
  cbn [ins_values].
  assert (Hcolumns : insert_columns chunk = ks).
  { destruct chunk as [|first rest]; [contradiction|].
    inversion Hok as [|? ? [Hkeys _] _]. exact Hkeys. }
  assert (Hcheck : check_values rel chunk = inr tt).
  { unfold check_values. rewrite Hcolumns.
    assert (H1 : forallb (fun c => mem c (column_names rel)) ks = true).
    { apply forallb_forall. intros c Hc. apply mem_In.
      unfold column_names. rewrite Hcols. now apply Hks. }
    rewrite H1. cbn [negb].
    assert (H2 : forallb (fun r => forallb (fun c => dict_has c r) ks) chunk = true).
    { apply forallb_forall. intros r Hr. apply forallb_forall. intros c Hc.
      apply dict_has_In. rewrite Forall_forall in Hok.
      destruct (Hok r Hr) as [Hkeys _]. now rewrite Hkeys. }
    now rewrite H2. }
  rewrite Hcheck, Hcolumns. cbn [rbind].
  pose proof (insert_rows_ok rel into ow ks chunk) as Hrun.
  cbn zeta in Hrun. rewrite Hkey in Hrun.
  destruct (Hrun Huniq) with (records := chunk) (st := InsertState (rel_rows rel) [] [])
    as [rows' Hrows]; try assumption.
  - unfold column_names. now rewrite Hcols.
  - now rewrite Hcols.
  - reflexivity.
  - exists rows'. rewrite Hrows. reflexivity.
Qed.

Lemma upsert_chunk_ok (db : database) (rel : relation) (results chunk : list dict) :
  find_relation (db_relations db) into = Some rel ->
  fits cols pk rel -> chunk_ok cols pk ks chunk ->
  exists rows',
    upsert_chunk table pk ow results chunk db
    = (DB (set_relation (db_relations db) into (with_rows rel rows'))
          (db_log db ++ [SInsert (stmt_of into pk ow ks chunk)]),
       inr (results ++ map (returning pk) chunk)).
Proof.
  intros Hfind Hfits Hchunk.
  destruct (exec_insert_ok rel chunk Hfits Hchunk) as [rows' Hexec].
  exists rows'. unfold upsert_chunk, bind, lift.
  rewrite (upsert_stmt_ok chunk Hchunk), (compile_insert_ok chunk Hchunk).
  unfold execute_insert, on_relation. cbn [ins_into stmt_of].
  rewrite Hfind. fold (stmt_of into pk ow ks chunk). rewrite Hexec. reflexivity.
Qed.

Lemma upsert_chunks_ok (chunks : list (list dict)) :
  Forall (chunk_ok cols pk ks) chunks ->
  forall (db : database) (rel : relation) (results : list dict),
    find_relation (db_relations db) into = Some rel ->
    fits cols pk rel ->
    exists db' rel',
      for_fold (upsert_chunk table pk ow) results chunks db
      = (db', inr (results ++ map (returning pk) (List.concat chunks)))
      /\ db_log db'
         = db_log db ++ map (fun ch => SInsert (stmt_of into pk ow ks ch)) chunks
      /\ find_relation (db_relations db') into = Some rel'
      /\ same_schema rel' rel
      /\ (forall n, into <> n ->
            find_relation (db_relations db') n = find_relation (db_relations db) n).
Proof.
  induction 1 as [|chunk chunks Hchunk _ IH]; intros db rel results Hfind Hfits.
  - exists db, rel. cbn. rewrite !app_nil_r. repeat split; auto.
  - destruct (upsert_chunk_ok db rel results chunk Hfind Hfits Hchunk)
      as [rows' Hstep].
    set (db1 := DB (set_relation (db_relations db) into (with_rows rel rows'))
                  (db_log db ++ [SInsert (stmt_of into pk ow ks chunk)])) in *.
    destruct (IH db1 (with_rows rel rows') (results ++ map (returning pk) chunk))
      as [db' [rel' [Hrun [Hlog [Hfind' [Hschema Hother]]]]]].
    + apply find_set_relation_eq.
    + destruct Hfits as [? [? ?]]. now repeat split.
    + exists db', rel'. cbn [for_fold]. unfold bind at 1. rewrite Hstep.
      rewrite Hrun. repeat split.
      * cbn [List.concat]. now rewrite map_app, app_assoc.
      * rewrite Hlog. cbn [db1 db_log map]. now rewrite <- app_assoc.
      * assumption.
      * apply Hschema.
      * apply Hschema.
      * apply Hschema.
      * intros n Hn. rewrite (Hother n Hn). cbn [db1 db_relations].
        now apply find_set_relation_ne.
Qed.

End UpsertRun.

Lemma In_firstn {A} (x : A) (k : nat) (l : list A) : In x (firstn k l) -> In x l.
Proof.
  intros H. rewrite <- (firstn_skipn k l). apply in_or_app. now left.
Qed.

Lemma In_skipn {A} (x : A) (a : nat) (l : list A) : In x (skipn a l) -> In x l.
Proof.
  intros H. rewrite <- (firstn_skipn a l). apply in_or_app. now right.
Qed.

Lemma Forall_firstn_skipn {A} (P : A -> Prop) (k a : nat) (l : list A) :
  Forall P l -> Forall P (firstn k (skipn a l)).
Proof.
  intros H. rewrite Forall_forall in *. intros x Hx.
  apply H. eapply In_skipn. eapply In_firstn. exact Hx.
Qed.

(** *** The statements [upsert] issues *)

Lemma for_fold_error {S A B} (P : exn -> Prop) (body : B -> A -> M S B) :
  (forall acc x s s' e, body acc x s = (s', inl e) -> P e) ->
  forall l acc s s' e, for_fold body acc l s = (s', inl e) -> P e.
Proof.
  intros Hbody. induction l as [|x l IH]; intros acc s s' e; cbn [for_fold].
  - unfold ret. discriminate.
  - unfold bind. destruct (body acc x s) as [s1 [e1|acc1]] eqn:Hstep.
    + intros [= <- <-]. eapply Hbody; eauto.
    + apply IH.
Qed.

Lemma rfold_error {A B} (P : exn -> Prop) (body : B -> A -> result B) :
  (forall acc x e, body acc x = inl e -> P e) ->
  forall l acc e, rfold body acc l = inl e -> P e.
Proof.
  intros Hbody. induction l as [|x l IH]; intros acc e; cbn [rfold].
  - discriminate.
  - unfold rbind. destruct (body acc x) as [e1|acc1] eqn:Hstep.
    + intros [= <-]. eapply Hbody; eauto.
    + apply IH.
Qed.

(** One chunk: either the statement could not be built and nothing is
    issued, or exactly the statement of the chunk is. *)
Lemma upsert_chunk_log (table : Table) (index : list string) (ow : bool)
  (results chunk : list dict) (db : database) :
  (exists e, upsert_chunk table index ow results chunk db = (db, inl e))
  \/ (exists s, upsert_stmt table index ow chunk = inr s
                /\ db_log (fst (upsert_chunk table index ow results chunk db))
                   = db_log db ++ [SInsert s]).
Proof.
  unfold upsert_chunk, bind, lift.
  destruct (upsert_stmt table index ow chunk) as [e|s].
  - left. now exists e.
  - destruct (compile_insert table s) as [e|[]].
    + left. now exists e.
    + right. exists s. split; [reflexivity|].
      unfold execute_insert, on_relation.
      destruct (find_relation (db_relations db) (ins_into s)) as [rel|]; [|reflexivity].
      destruct (exec_insert s rel) as [e|[rel' out]]; reflexivity.
Qed.

Lemma upsert_chunks_log (table : Table) (index : list string) (ow : bool)
  (chunks : list (list dict)) :
  forall (results : list dict) (db : database),
  exists stmts,
    db_log (fst (for_fold (upsert_chunk table index ow) results chunks db))
    = db_log db ++ map SInsert stmts
    /\ Forall (fun s => exists chunk,
                 In chunk chunks /\ upsert_stmt table index ow chunk = inr s) stmts.
Proof.
  induction chunks as [|chunk chunks IH]; intros results db.
  - exists []. cbn. now rewrite app_nil_r.
  - cbn [for_fold]. unfold bind.
    destruct (upsert_chunk_log table index ow results chunk db)
      as [[e Hstep]|[s [Hs Hlog]]].
    + rewrite Hstep. exists []. cbn. now rewrite app_nil_r.
    + destruct (upsert_chunk table index ow results chunk db) as [db1 [e|res]] eqn:Hstep;
        cbn [fst] in Hlog.
      * exists [s]. split; [exact Hlog|]. constructor; [|constructor].
        exists chunk. split; [now left | assumption].
      * destruct (IH res db1) as [stmts [Hrest Hall]].
        exists (s :: stmts). split.
        -- rewrite Hrest, Hlog. cbn [map]. now rewrite <- app_assoc.
        -- constructor.
           ++ exists chunk. split; [now left | assumption].
           ++ eapply Forall_impl; [|exact Hall].
              intros s' [ch [Hin Hch]]. exists ch. split; [now right | assumption].
Qed.

Lemma upsert_log (self : Self) (table_name : string) (data : records) (c : Z)
  (ow : bool) (db : database) :
  exists stmts,
    db_log (fst (upsert self table_name data c ow db)) = db_log db ++ map SInsert stmts
    /\ Forall (fun s => exists table chunks chunk,
                 get_table self table_name db = (db, inr table)
                 /\ chunks_for data c = inr chunks
                 /\ In chunk chunks
                 /\ upsert_stmt table (t_primary_key table) ow chunk = inr s) stmts.
Proof.
  unfold upsert. unfold bind at 1.
  assert (Hget : fst (get_table self table_name db) = db).
  { unfold get_table. now destruct (find_relation _ _). }
  destruct (get_table self table_name db) as [db0 [e|table]] eqn:Htable;
    cbn [fst] in Hget; subst db0.
  - exists []. cbn. now rewrite app_nil_r.
  - destruct (t_primary_key table) as [|k0 pk0] eqn:Hpk.
    + exists []. cbn. now rewrite app_nil_r.
    + unfold bind at 1. unfold lift at 1.
      destruct (chunks_for data c) as [e|chunks] eqn:Hchunks.
      * exists []. cbn. now rewrite app_nil_r.
      * destruct (upsert_chunks_log table (k0 :: pk0) ow chunks [] db)
          as [stmts [Hlog Hall]].
        exists stmts. split.
        -- unfold bind.
           destruct (for_fold (upsert_chunk table (k0 :: pk0) ow) [] chunks db)
             as [db1 [e|results]]; cbn [fst] in *; [exact Hlog|].
           destruct data; [destruct results|]; exact Hlog.
        -- eapply Forall_impl; [|exact Hall].
           intros s [chunk [Hin Hs]]. exists table, chunks, chunk.
           rewrite Hpk. now repeat split.
Qed.

(** C9.  Every INSERT that [upsert] issues carries one chunk of the input
    as its values, and the columns of its ON CONFLICT DO UPDATE SET clause
    are the keys of the first record of that chunk, in their order: a key
    that only a later record of the chunk has is not among them. *)
Theorem upsert_conflict_columns_from_first_record
  (self : Self) (table_name : string) (data : records) (c : Z) (ow : bool)
  (db : database) :
  exists stmts,
    db_log (fst (upsert self table_name data c ow db)) = db_log db ++ map SInsert stmts
    /\ Forall (fun s =>
         exists chunks first rest,
           chunks_for data c = inr chunks
           /\ In (first :: rest) chunks
           /\ ins_values s = first :: rest
           /\ map fst (ins_set s) = dict_keys first
           /\ (forall r k, In r rest -> In k (dict_keys r) ->
                           ~ In k (dict_keys first) ->
                           ~ In k (map fst (ins_set s)))) stmts.
Proof.
  destruct (upsert_log self table_name data c ow db) as [stmts [Hlog Hall]].
  exists stmts. split; [exact Hlog|].
  eapply Forall_impl; [|exact Hall].
  intros s [table [chunks [chunk [_ [Hchunks [Hin Hs]]]]]].
  destruct (upsert_stmt_built _ _ _ _ _ Hs) as [first [rest [-> [_ [_ ->]]]]].
  exists chunks, first, rest. cbn [ins_values ins_set].
  rewrite set_for_keys. repeat split; auto.
Qed.

(** A chunk whose second record has a key the first has not: the note is
    neither inserted nor among the columns updated on conflict. *)
Example upsert_later_key_left_out :
  db_log (fst (upsert me "orders"
                 (Many [[("id", PInt 1); ("total", PInt 20)];
                        [("id", PInt 2); ("total", PInt 5); ("note", PStr "rush")]])
                 1000 false shop))
  = [SInsert
       (Insert ("public", "orders")
          [[("id", PInt 1); ("total", PInt 20)];
           [("id", PInt 2); ("total", PInt 5); ("note", PStr "rush")]]
          ["id"] ["id"]
          [("id", Coalesce (Excluded "id") (TableCol "id"));
           ("total", Coalesce (Excluded "total") (TableCol "total"))])].
Proof. reflexivity. Qed.

(** *** The primary-key requirement *)

Lemma insert_row_error (rel : relation) (s : insert_stmt) (cols : list string)
  (st : insert_state) (r : dict) (e : exn) :
  insert_row rel s cols st r = inl e -> exn_class e <> "Exception".
Proof.
  unfold insert_row.
  destruct (check_stored _ _) as [e0|[]] eqn:Hcheck; cbn [rbind].
  { intros [= <-]. revert Hcheck. unfold check_stored.
    destruct (negb _); [intros [= <-]; discriminate|].
    destruct (negb _); [intros [= <-]|]; discriminate. }
  destruct (existsb is_null _); [intros [= <-]; discriminate|].
  destruct (existsb _ (st_touched st)); [intros [= <-]; discriminate|].
  destruct (find_conflict _ _ _) as [[[before stored] after]|];
    destruct (violates_unique _ _ _); intros [= <-]; discriminate.
Qed.

Lemma exec_insert_error (s : insert_stmt) (rel : relation) (e : exn) :
  exec_insert s rel = inl e -> exn_class e <> "Exception".
Proof.
  unfold exec_insert, check_values.
  destruct (negb (forallb _ (insert_columns (ins_values s))));
    [intros [= <-]; discriminate|].
  destruct (negb (forallb _ (ins_values s))); [intros [= <-]; discriminate|].
  cbn [rbind].
  destruct (rfold _ _ (ins_values s)) as [e'|st] eqn:Hrun; [|discriminate].
  intros [= <-]. revert Hrun.
  apply (rfold_error (fun e => exn_class e <> "Exception")).
  intros acc x e0. apply insert_row_error.
Qed.

Lemma upsert_stmt_error (table : Table) (index : list string) (ow : bool)
  (chunk : list dict) (e : exn) :
  upsert_stmt table index ow chunk = inl e -> exn_class e <> "Exception".
Proof.
  unfold upsert_stmt, on_conflict_set.
  destruct chunk as [|first rest]; cbn [rbind]; [intros [= <-]; discriminate|].
  rewrite on_conflict_set_fold.
  destruct (forallb _ (dict_keys first)).
  - destruct ([] ++ set_for ow (dict_keys first)); [intros [= <-]|]; discriminate.
  - destruct (find _ (dict_keys first)); [intros [= <-]; discriminate|].
    destruct ([] ++ set_for ow (dict_keys first)); [intros [= <-]|]; discriminate.
Qed.

Lemma compile_insert_error (table : Table) (s : insert_stmt) (e : exn) :
  compile_insert table s = inl e -> exn_class e <> "Exception".
Proof.
  unfold compile_insert.
  destruct (negb (forallb _ (insert_columns (ins_values s))));
    [intros [= <-]; discriminate|].
  destruct (negb (forallb _ (ins_values s))); [intros [= <-]|]; discriminate.
Qed.

Lemma upsert_chunk_error (table : Table) (index : list string) (ow : bool)
  (results chunk : list dict) (db db' : database) (e : exn) :
  upsert_chunk table index ow results chunk db = (db', inl e) ->
  exn_class e <> "Exception".
Proof.
  unfold upsert_chunk, bind, lift.
  destruct (upsert_stmt table index ow chunk) as [e0|s] eqn:Hs.
  - intros [= _ <-]. eapply upsert_stmt_error; eauto.
  - destruct (compile_insert table s) as [e0|[]] eqn:Hcompile.
    { intros [= _ <-]. eapply compile_insert_error; eauto. }
    unfold execute_insert, on_relation.
    destruct (find_relation (db_relations db) (ins_into s)) as [rel|].
    + destruct (exec_insert s rel) as [e0|[rel' out]] eqn:Hexec.
      * intros [= _ <-]. eapply exec_insert_error; eauto.
      * unfold ret. discriminate.
    + intros [= _ <-]. discriminate.
Qed.

Lemma chunks_for_error (data : records) (c : Z) (e : exn) :
  chunks_for data c = inl e -> exn_class e <> "Exception".
Proof.
  destruct data as [d|l]; cbn [chunks_for]; [discriminate|].
  unfold chunks_of, py_range. destruct (c =? 0)%Z; [|discriminate].
  intros [= <-]. discriminate.
Qed.

Lemma bind_get_table {A} (self : Self) (table_name : string)
  (k : Table -> M database A) (db : database) :
  bind (get_table self table_name) k db =
  match find_relation (db_relations db) (schema self, table_name) with
  | Some rel =>
      k {| t_name := (schema self, table_name);
           t_columns := rel_columns rel;
           t_primary_key := rel_primary_key rel |} db
  | None => (db, inl (NoSuchTableError table_name))
  end.
Proof.
  unfold bind, get_table. now destruct (find_relation _ _).
Qed.

Lemma bind_raises {S A B} (m : M S A) (k : A -> M S B) (s : S) (e : exn) :
  snd (bind m k s) = inl e ->
  snd (m s) = inl e \/ exists a s1, m s = (s1, inr a) /\ snd (k a s1) = inl e.
Proof.
  unfold bind. destruct (m s) as [s1 [e1|a]]; simpl.
  - intros [= ->]. now left.
  - intros H. right. exists a, s1. split; [reflexivity | exact H].
Qed.

(** C3.  [upsert] raises its "No primary key found" exception exactly when
    the table it reflects has an empty primary key, and when it does, the
    database is as it was: no statement has been issued and no relation
    has changed. *)
Theorem upsert_requires_primary_key
  (self : Self) (table_name : string) (data : records) (c : Z) (ow : bool)
  (db : database) :
  (snd (upsert self table_name data c ow db) = inl (no_primary_key table_name)
   <-> exists rel,
         find_relation (db_relations db) (schema self, table_name) = Some rel
         /\ rel_primary_key rel = [])
  /\ (snd (upsert self table_name data c ow db) = inl (no_primary_key table_name)
      -> fst (upsert self table_name data c ow db) = db).
Proof.
  unfold upsert. rewrite bind_get_table.
  destruct (find_relation (db_relations db) (schema self, table_name)) as [rel|].
  - cbn [t_primary_key]. destruct (rel_primary_key rel) as [|k0 pk0] eqn:Hpk.
    + unfold raise. cbn [fst snd]. split; [|reflexivity].
      split; [intros _; now exists rel | reflexivity].
    + match goal with
      | |- (snd ?X = _ <-> _) /\ _ =>
          assert (Hother : snd X <> inl (no_primary_key table_name))
      end.
      { intros H. apply bind_raises in H.
        destruct H as [H|[chunks [db1 [_ H]]]].
        - unfold lift in H. cbn [snd] in H.
          now apply chunks_for_error in H.
        - apply bind_raises in H. destruct H as [H|[results [db2 [_ H]]]].
          + destruct (for_fold _ [] chunks db1) as [db2 [e|results]] eqn:Hrun;
              cbn [snd] in H; [|discriminate].
            injection H as ->.
            assert (Hne : no_primary_key table_name <> no_primary_key table_name);
              [|now apply Hne].
            revert Hrun.
            apply (for_fold_error (fun e => e <> no_primary_key table_name)).
            intros acc x s s' e Hstep ->.
            now apply upsert_chunk_error in Hstep.
          + destruct data; [destruct results|]; discriminate. }
      split; [split|].
      * intros H. contradiction.
      * intros [rel' [[= <-] Hempty]]. congruence.
      * intros H. contradiction.
  - cbn [fst snd]. split; [|discriminate].
    split; [discriminate | intros [rel [H _]]; discriminate].
Qed.

Lemma upsert_requires_primary_key_witness :
  snd (upsert me "events" (Many [[("at", PInt 1); ("what", PStr "start")]]) 1000 false
         journal)
  = inl (no_primary_key "events")
  /\ fst (upsert me "events" (Many [[("at", PInt 1); ("what", PStr "start")]]) 1000 false
            journal)
     = journal.
Proof.
  destruct (upsert_requires_primary_key me "events"
              (Many [[("at", PInt 1); ("what", PStr "start")]]) 1000 false journal)
    as [Hiff Hsame].
  assert (Hraises :
    snd (upsert me "events" (Many [[("at", PInt 1); ("what", PStr "start")]]) 1000 false
           journal)
    = inl (no_primary_key "events")).
  { apply Hiff. exists events. split; reflexivity. }
  split; [exact Hraises | exact (Hsame Hraises)].
Defined.

(** *** What a run of [upsert] leaves and returns *)

Lemma reflect_with_rows (self : Self) (table_name : string) (rel : relation)
  (rows : list dict) :
  reflect self table_name (with_rows rel rows) = reflect self table_name rel.
Proof. reflexivity. Qed.

Lemma with_rows_same (rel : relation) : with_rows rel (rel_rows rel) = rel.
Proof. now destruct rel. Qed.

(** [upsert], once the table is reflected and has a primary key. *)
Lemma upsert_run (self : Self) (table_name : string) (data : records) (c : Z)
  (ow : bool) (db : database) (rel : relation) :
  find_relation (db_relations db) (schema self, table_name) = Some rel ->
  rel_primary_key rel <> [] ->
  upsert self table_name data c ow db =
  match chunks_for data c with
  | inl e => (db, inl e)
  | inr chunks =>
      match for_fold (upsert_chunk (reflect self table_name rel) (rel_primary_key rel) ow)
              [] chunks db with
      | (db', inl e) => (db', inl e)
      | (db', inr results) =>
          match data with
          | One _ =>
              match results with
              | r :: _ => (db', inr (Row r))
              | [] => (db', inl (IndexError "list index out of range"))
              end
          | Many _ => (db', inr (Rows results))
          end
      end
  end.
Proof.
  intros Hfind Hpk. unfold upsert. rewrite bind_get_table, Hfind.
  fold (reflect self table_name rel). cbn [t_primary_key reflect].
  destruct (rel_primary_key rel) as [|k pk] eqn:Hkeys; [contradiction|].
  unfold bind at 1. unfold lift at 1.
  destruct (chunks_for data c) as [e|chunks]; [reflexivity|].
  unfold bind at 1.
  destruct (for_fold _ [] chunks db) as [db' [e|results]]; [reflexivity|].
  destruct data; [|reflexivity]. now destruct results.
Qed.

Lemma same_key_eq (a b : list pyval) : same_key a b = true -> a = b.
Proof.
  revert b. induction a as [|x a IH]; intros [|y b]; cbn [same_key];
    try discriminate; [reflexivity|].
  intros H. apply andb_true_iff in H. destruct H as [Hxy Hab].
  rewrite (IH b Hab). f_equal.
  destruct x, y; cbn [sql_eq is_true3] in Hxy; try discriminate.
  - destruct (Z.eqb_spec z z0); [now subst | discriminate].
  - destruct (String.eqb_spec s s0); [now subst | discriminate].
Qed.

Lemma find_conflict_split (index : list string) (key : list pyval) (rows : list dict)
  (before after : list dict) (stored : dict) :
  find_conflict index key rows = Some (before, stored, after) ->
  rows = before ++ stored :: after
  /\ same_key (key_of index stored) key = true.
Proof.
  revert before. induction rows as [|r rows IH]; intros before; cbn [find_conflict];
    [discriminate|].
  destruct (find_conflict index key rows) as [[[b s] a]|].
  - intros [= <- <- <-]. destruct (IH b eq_refl) as [-> Hs]. now split.
  - destruct (same_key (key_of index r) key) eqn:Hkey; [|discriminate].
    intros [= <- <- <-]. now split.
Qed.

Lemma returning_keys (cols : list string) (row : dict) :
  dict_keys (returning cols row) = cols.
Proof.
  unfold returning, dict_keys. rewrite map_map. cbn [fst]. apply map_id.
Qed.

(** DO UPDATE SET leaves the key the conflict was found on. *)
Lemma resolve_keeps_key (index : list string) (ow : bool) (ks : list string)
  (excluded stored : dict) :
  key_of index stored = key_of index excluded ->
  key_of index (resolve (set_for ow ks) excluded stored) = key_of index stored.
Proof.
  intros Hsame. unfold key_of in *. apply map_ext_in. intros k Hk.
  pose proof (ext_in_map Hsame k Hk) as Heq. cbn beta in Heq.
  rewrite resolve_get. rewrite <- Heq.
  destruct (mem k ks); [|reflexivity]. destruct ow; [reflexivity|].
  now destruct (row_get k stored).
Qed.

Lemma keeps_rows_refl (index : list string) (rows : list dict) :
  keeps_rows index rows rows.
Proof. exists []. now rewrite app_nil_r. Qed.

Lemma keeps_rows_trans (index : list string) (a b c : list dict) :
  keeps_rows index a b -> keeps_rows index b c -> keeps_rows index a c.
Proof.
  intros [n1 H1] [n2 H2]. exists (n1 ++ n2).
  rewrite H2, H1. now rewrite app_assoc.
Qed.

Lemma insert_row_run (rel : relation) (s : insert_stmt) (cols : list string)
  (ow : bool) (ks : list string) (st st' : insert_state) (r : dict) :
  ins_set s = set_for ow ks ->
  insert_row rel s cols st r = inr st' ->
  keeps_rows (ins_index_elements s) (st_rows st) (st_rows st')
  /\ exists row, st_returned st' = st_returned st ++ [returning (ins_returning s) row].
Proof.
  intros Hset. unfold insert_row.
  destruct (check_stored _ _) as [e0|[]]; cbn [rbind]; [discriminate|].
  destruct (existsb is_null _); [discriminate|].
  destruct (existsb _ (st_touched st)); [discriminate|].
  destruct (find_conflict _ _ (st_rows st)) as [[[before stored] after]|] eqn:Hfind.
  - destruct (violates_unique _ _ _); [discriminate|]. intros [= <-].
    cbn [st_rows st_returned]. apply find_conflict_split in Hfind.
    destruct Hfind as [Hrows Hkey]. apply same_key_eq in Hkey.
    split; [|eexists; reflexivity].
    exists []. rewrite app_nil_r, Hrows, Hset, !map_app. cbn [map].
    rewrite (resolve_keeps_key _ ow ks _ stored Hkey).
    apply Permutation_app_head. symmetry. apply Permutation_cons_append.
  - destruct (violates_unique _ _ _); [discriminate|]. intros [= <-].
    cbn [st_rows st_returned]. split; [|eexists; reflexivity].
    eexists. rewrite map_app. reflexivity.
Qed.

Lemma insert_rows_run (rel : relation) (s : insert_stmt) (cols : list string)
  (ow : bool) (ks : list string) (l : list dict) :
  ins_set s = set_for ow ks ->
  forall st st',
    rfold (insert_row rel s cols) st l = inr st' ->
    keeps_rows (ins_index_elements s) (st_rows st) (st_rows st')
    /\ exists rs, st_returned st' = st_returned st ++ rs
                  /\ List.length rs = List.length l
                  /\ Forall (fun r => dict_keys r = ins_returning s) rs.
Proof.
  intros Hset. induction l as [|r l IH]; intros st st'; cbn [rfold].
  - intros [= <-]. split; [apply keeps_rows_refl|]. exists []. now rewrite app_nil_r.
  - destruct (insert_row rel s cols st r) as [e|st1] eqn:Hrow; cbn [rbind];
      [discriminate|].
    destruct (insert_row_run _ _ _ _ _ _ _ _ Hset Hrow) as [Hkeep [row Hret]].
    intros Hrun. destruct (IH _ _ Hrun) as [Hkeep' [rs [Hrs [Hn Hkeys]]]].
    split; [eapply keeps_rows_trans; eauto|].
    exists (returning (ins_returning s) row :: rs).
    rewrite Hrs, Hret, <- app_assoc. split; [reflexivity|].
    split; [cbn [List.length]; lia|]. constructor; [apply returning_keys | exact Hkeys].
Qed.

Lemma exec_insert_run (s : insert_stmt) (ow : bool) (ks : list string)
  (rel rel' : relation) (rs : list dict) :
  ins_set s = set_for ow ks ->
  exec_insert s rel = inr (rel', rs) ->
  (exists rows', rel' = with_rows rel rows'
                 /\ keeps_rows (ins_index_elements s) (rel_rows rel) rows')
  /\ List.length rs = List.length (ins_values s)
  /\ Forall (fun r => dict_keys r = ins_returning s) rs.
Proof.
  intros Hset. unfold exec_insert.
  destruct (check_values rel (ins_values s)); cbn [rbind]; [discriminate|].
  destruct (rfold _ _ (ins_values s)) as [e|st] eqn:Hrun; cbn [rbind]; [discriminate|].
  intros [= <- <-].
  destruct (insert_rows_run _ _ _ _ _ _ Hset _ _ Hrun) as [Hkeep [rs [Hrs [Hn Hk]]]].
  cbn [st_rows st_returned app] in *. subst. split; [|now split].
  eexists. split; [reflexivity | exact Hkeep].
Qed.

(** What one chunk does to the database, whatever the outcome. *)
Lemma upsert_chunk_run (table : Table) (index : list string) (ow : bool)
  (results chunk : list dict) (db db' : database) (rel : relation)
  (r : result (list dict)) :
  find_relation (db_relations db) (t_name table) = Some rel ->
  upsert_chunk table index ow results chunk db = (db', r) ->
  (exists rows', find_relation (db_relations db') (t_name table)
                 = Some (with_rows rel rows')
                 /\ keeps_rows index (rel_rows rel) rows')
  /\ (forall n, t_name table <> n ->
        find_relation (db_relations db') n = find_relation (db_relations db) n)
  /\ match r with
     | inr results' =>
         exists s rs,
           upsert_stmt table index ow chunk = inr s
           /\ db_log db' = db_log db ++ [SInsert s]
           /\ results' = results ++ rs
           /\ List.length rs = List.length chunk
           /\ Forall (fun x => dict_keys x = index) rs
     | inl _ => True
     end.
Proof.
  intros Hfind. unfold upsert_chunk, bind, lift.
  assert (Hsame : exists rows', find_relation (db_relations db) (t_name table)
                                = Some (with_rows rel rows')
                                /\ keeps_rows index (rel_rows rel) rows').
  { exists (rel_rows rel). rewrite with_rows_same. split; [exact Hfind|].
    apply keeps_rows_refl. }
  destruct (upsert_stmt table index ow chunk) as [e|s] eqn:Hs.
  - intros [= <- <-]. now split; [|split].
  - destruct (compile_insert table s) as [e|[]].
    { intros [= <- <-]. now split; [|split]. }
    destruct (upsert_stmt_built _ _ _ _ _ Hs) as [first [rest [Hchunk [_ [_ Hstmt]]]]].
    unfold execute_insert, on_relation, issue.
    assert (Hinto : ins_into s = t_name table) by now rewrite Hstmt.
    rewrite Hinto, Hfind.
    destruct (exec_insert s rel) as [e|[rel' rs]] eqn:Hexec.
    + intros [= <- <-]. cbn [db_relations]. now split; [|split].
    + unfold ret. intros [= <- <-]. cbn [db_relations db_log].
      assert (Hset : ins_set s = set_for ow (dict_keys first)) by now rewrite Hstmt.
      destruct (exec_insert_run s ow (dict_keys first) rel rel' rs Hset Hexec)
        as [[rows' [-> Hkeep]] [Hn Hkeys]].
      rewrite Hstmt in Hn, Hkeys, Hkeep.
      cbn [ins_values ins_returning ins_index_elements] in *.
      split; [|split].
      * exists rows'. now rewrite find_set_relation_eq.
      * intros n Hne. now apply find_set_relation_ne.
      * exists s, rs. now repeat split.
Qed.

Lemma upsert_chunks_run (table : Table) (index : list string) (ow : bool)
  (chunks : list (list dict)) :
  forall (results : list dict) (db db' : database) (rel : relation)
         (r : result (list dict)),
    find_relation (db_relations db) (t_name table) = Some rel ->
    for_fold (upsert_chunk table index ow) results chunks db = (db', r) ->
    (exists rows', find_relation (db_relations db') (t_name table)
                   = Some (with_rows rel rows')
                   /\ keeps_rows index (rel_rows rel) rows')
    /\ (forall n, t_name table <> n ->
          find_relation (db_relations db') n = find_relation (db_relations db) n)
    /\ match r with
       | inr results' =>
           exists stmts rs,
             Forall2 (fun chunk s => upsert_stmt table index ow chunk = inr s)
               chunks stmts
             /\ db_log db' = db_log db ++ map SInsert stmts
             /\ results' = results ++ rs
             /\ List.length rs = List.length (List.concat chunks)
             /\ Forall (fun x => dict_keys x = index) rs
       | inl _ => True
       end.
Proof.
  induction chunks as [|chunk chunks IH]; intros results db db' rel r Hfind;
    cbn [for_fold].
  - unfold ret. intros [= <- <-]. split; [|split].
    + exists (rel_rows rel). rewrite with_rows_same. split; [exact Hfind|].
      apply keeps_rows_refl.
    + reflexivity.
    + exists [], []. cbn [map List.concat List.length]. rewrite !app_nil_r.
      now repeat split.
  - unfold bind at 1.
    destruct (upsert_chunk table index ow results chunk db) as [db1 r1] eqn:Hchunk.
    destruct (upsert_chunk_run _ _ _ _ _ _ _ _ _ Hfind Hchunk)
      as [[rows1 [Hfind1 Hkeep1]] [Hothers1 Hres1]].
    destruct r1 as [e|results1].
    + intros [= <- <-]. split; [now exists rows1|]. now split.
    + intros Hrest.
      destruct (IH _ _ _ _ _ Hfind1 Hrest) as [[rows2 [Hfind2 Hkeep2]] [Hothers2 Hres2]].
      cbn [rel_rows with_rows] in *.
      split; [|split].
      * exists rows2. split; [exact Hfind2 | eapply keeps_rows_trans; eauto].
      * intros n Hne. now rewrite Hothers2, Hothers1.
      * destruct r as [e|results']; [exact I|].
        destruct Hres1 as [s1 [rs1 [Hs1 [Hlog1 [-> [Hn1 Hk1]]]]]].
        destruct Hres2 as [stmts [rs2 [Hall [Hlog2 [-> [Hn2 Hk2]]]]]].
        exists (s1 :: stmts), (rs1 ++ rs2). split; [now constructor|].
        split; [rewrite Hlog2, Hlog1; cbn [map]; now rewrite <- app_assoc|].
        rewrite <- app_assoc. split; [reflexivity|].
        cbn [List.concat]. rewrite !length_app. split; [lia|].
        apply Forall_app. now split.
Qed.

Lemma chunks_of_concat (data : list dict) (c : Z) (chunks : list (list dict)) :
  (1 <= c)%Z -> chunks_of data c = inr chunks -> List.concat chunks = data.
Proof.
  intros Hc Hchunks. destruct (chunks_of_spec data c Hc) as [chunks' [Heq [Hcat _]]].
  congruence.
Qed.

Lemma built_values (table : Table) (index : list string) (ow : bool)
  (chunks : list (list dict)) (stmts : list insert_stmt) :
  Forall2 (fun chunk s => upsert_stmt table index ow chunk = inr s) chunks stmts ->
  map ins_values stmts = chunks.
Proof.
  induction 1 as [|chunk s chunks stmts Hs _ IH]; [reflexivity|].
  cbn [map]. rewrite IH. f_equal.
  destruct (upsert_stmt_built _ _ _ _ _ Hs) as [first [rest [_ [_ [_ ->]]]]].
  reflexivity.
Qed.




(** *** Conflict resolution *)



(** The scenario of the specification: a second [upsert] of order 1 that
    brings a new total and no note leaves the note in place. *)
Example upsert_keeps_note :
  option_map rel_rows
    (find_relation
       (db_relations
          (fst (upsert me "orders" (Many [[("id", PInt 1); ("total", PInt 20)]])
                  1000 false shop)))
       ("public", "orders"))
  = Some [order 1 20 (PStr "gift")].
Proof. reflexivity. Qed.

(** With a null note sent, the stored note stays unless
    [overwrite_with_null] is set. *)
Example upsert_null_note :
  option_map rel_rows
    (find_relation
       (db_relations
          (fst (upsert me "orders" (One (order 1 20 PNone)) 1000 false shop)))
       ("public", "orders"))
  = Some [order 1 20 (PStr "gift")]
  /\ option_map rel_rows
       (find_relation
          (db_relations
             (fst (upsert me "orders" (One (order 1 20 PNone)) 1000 true shop)))
          ("public", "orders"))
     = Some [order 1 20 PNone].
Proof. split; reflexivity. Qed.

(** *** Schema evolution *)

Lemma add_column_text (self : Self) (table_name column_name : string)
  (column_type : satype) (db : database) :
  add_column self table_name column_name column_type db
  = execute_text
      (add_column_query (schema self) table_name column_name (dialect_impl column_type))
      db.
Proof. unfold add_column. now destruct column_type. Qed.

(** [add_column] for a text that reads as the ALTER TABLE it is meant to
    be. *)
Lemma add_column_run (self : Self) (table_name column_name : string)
  (column_type : satype) (db : database) :
  reads_as_meant self table_name column_name column_type ->
  add_column self table_name column_name column_type db =
  match find_relation (db_relations db) (schema self, table_name) with
  | None =>
      (issue (SText (add_column_text_of self table_name column_name column_type)) db,
       inl (ProgrammingError "relation does not exist"))
  | Some rel =>
      if mem column_name (column_names rel)
      then (issue (SText (add_column_text_of self table_name column_name column_type)) db,
            inl (ProgrammingError
                   ("column " ++ column_name ++ " of relation already exists")%string))
      else (DB (set_relation (db_relations db) (schema self, table_name)
                  (Relation
                     (rel_columns rel ++
                        [Column column_name (dialect_impl column_type) None None None
                           None])
                     (rel_primary_key rel) (rel_uniques rel) (rel_rows rel)))
               (db_log db ++
                  [SText (add_column_text_of self table_name column_name column_type)]),
            inr tt)
  end.
Proof.
  intros Hreads. rewrite add_column_text. unfold execute_text, reads_as_meant in *.
  unfold add_column_text_of in *. rewrite Hreads. unfold exec_ddl.
  destruct (find_relation (db_relations db) (schema self, table_name)) as [rel|];
    [|reflexivity].
  now destruct (mem column_name (column_names rel)).
Qed.

Lemma add_column_ok (self : Self) (table_name : string) (m : ColumnModel.t)
  (db : database) (rel : relation) :
  reads_as_meant self table_name (ColumnModel.name m) (ColumnModel.type m) ->
  find_relation (db_relations db) (schema self, table_name) = Some rel ->
  ~ In (ColumnModel.name m) (column_names rel) ->
  add_column self table_name (ColumnModel.name m) (ColumnModel.type m) db
  = (DB (set_relation (db_relations db) (schema self, table_name)
           (Relation (rel_columns rel ++ [added_column m])
              (rel_primary_key rel) (rel_uniques rel) (rel_rows rel)))
        (db_log db ++
           [SText (add_column_text_of self table_name (ColumnModel.name m)
                     (ColumnModel.type m))]),
     inr tt).
Proof.
  intros Hreads Hfind Hfresh. rewrite add_column_run by exact Hreads. rewrite Hfind.
  apply mem_not_In in Hfresh. rewrite Hfresh. reflexivity.
Qed.

Lemma add_columns_ok (self : Self) (table_name : string)
  (missing : list ColumnModel.t) :
  NoDup (map ColumnModel.name missing) ->
  Forall (fun m => reads_as_meant self table_name (ColumnModel.name m)
                     (ColumnModel.type m)) missing ->
  forall (db : database) (rel : relation),
    find_relation (db_relations db) (schema self, table_name) = Some rel ->
    (forall m, In m missing -> ~ In (ColumnModel.name m) (column_names rel)) ->
    exists db',
      for_fold (fun _ column =>
                  add_column self table_name (fst column) (snd column))
        tt (map (fun m => (ColumnModel.name m, ColumnModel.type m)) missing) db
      = (db', inr tt)
      /\ find_relation (db_relations db') (schema self, table_name)
         = Some (Relation (rel_columns rel ++ map added_column missing)
                   (rel_primary_key rel) (rel_uniques rel) (rel_rows rel))
      /\ (forall n, (schema self, table_name) <> n ->
            find_relation (db_relations db') n = find_relation (db_relations db) n)
      /\ db_log db'
         = db_log db ++
           map (fun m => SText (add_column_text_of self table_name (ColumnModel.name m)
                                  (ColumnModel.type m))) missing.
Proof.
  induction missing as [|m missing IH]; intros Hnodup Hreads db rel Hfind Hfresh.
  - exists db. cbn. rewrite !app_nil_r. repeat split; auto. now destruct rel.
  - inversion Hnodup as [|? ? Hhead Htail]; subst.
    inversion Hreads as [|? ? Hm Hrest]; subst.
    cbn [map for_fold fst snd]. unfold bind at 1.
    rewrite (add_column_ok self table_name m db rel Hm Hfind)
      by (apply Hfresh; now left).
    match goal with
    | |- context [for_fold _ tt _ ?d] => set (db1 := d)
    end.
    destruct (IH Htail Hrest db1
                (Relation (rel_columns rel ++ [added_column m])
                   (rel_primary_key rel) (rel_uniques rel) (rel_rows rel)))
      as [db' [Hrun [Hfind' [Hother Hlog]]]].
    + apply find_set_relation_eq.
    + intros m' Hin'. unfold column_names. cbn [rel_columns].
      rewrite map_app. intros Hin. apply in_app_or in Hin.
      destruct Hin as [Hin|Hin].
      * now apply (Hfresh m' (or_intror Hin')).
      * cbn in Hin. destruct Hin as [Heq|[]]. apply Hhead.
        rewrite Heq. now apply in_map.
    + exists db'. split; [exact Hrun|]. split; [|split].
      * rewrite Hfind'. cbn [rel_columns rel_primary_key rel_uniques rel_rows map].
        now rewrite <- app_assoc.
      * intros n Hn. rewrite (Hother n Hn). subst db1. cbn [db_relations].
        now apply find_set_relation_ne.
      * rewrite Hlog. subst db1. cbn [db_log]. now rewrite <- app_assoc.
Qed.

(** C4.  The text [add_column] writes quotes the table and the column and
    not the schema.  For a schema whose name has a capital letter the
    server reads another name, in lower case: on the table that exists,
    and lacks the column, [create_table] raises and adds nothing.  A table
    that does not exist yet is created in the schema as it is named, by
    the branch that leaves the quoting to SQLAlchemy. *)
Theorem create_table_unquoted_schema :
  let out := create_table sales "orders"
               [spec_of "id" "INTEGER"; spec_of "status" "TEXT"]
               (Some (inl "id")) None true sales_shop in
  find_relation (db_relations sales_shop) ("Sales", "orders") = Some orders
  /\ missing_from orders [spec_of "id" "INTEGER"; spec_of "status" "TEXT"]
     = [spec_of "status" "TEXT"]
  /\ db_log (fst out) = [SText (add_column_query "Sales" "orders" "status" "TEXT")]
  /\ read_statement (add_column_query "Sales" "orders" "status" "TEXT")
     = Reads (AddColumn ("sales", "orders") "status" "TEXT")
  /\ snd out = inl (ProgrammingError "relation does not exist")
  /\ db_relations (fst out) = db_relations sales_shop
  /\ find_relation
       (db_relations
          (fst (create_table sales "items"
                  [spec_of "id" "INTEGER"; spec_of "status" "TEXT"]
                  (Some (inl "id")) None true sales_shop)))
       ("Sales", "items")
     = Some (Relation [plain "id" "INTEGER"; plain "status" "TEXT"] ["id"] [] []).
Proof. repeat split; reflexivity. Qed.

(** A column name is written between double quotes as it is: a name that
    holds a double quote ends the quoted name early, and the text is not
    SQL.  The same name is accepted for a column of a new table. *)
Example create_table_quote_in_name :
  let name := ("a" ++ quote ++ "b")%string in
  read_statement (add_column_query "public" "orders" name "TEXT") = NotSQL
  /\ snd (create_table me "orders" [spec_of name "TEXT"] None None true shop)
     = inl (ProgrammingError "syntax error")
  /\ db_relations (fst (create_table me "orders" [spec_of name "TEXT"] None None true
                          shop))
     = db_relations shop
  /\ option_map column_names
       (find_relation
          (db_relations
             (fst (create_table me "items" [spec_of name "TEXT"] None None true shop)))
          ("public", "items"))
     = Some [name].
Proof. repeat split; reflexivity. Qed.

(** The columns added to the table of the examples. *)
Example create_table_adds_status_and_shipped :
  option_map column_names
    (find_relation
       (db_relations
          (fst (create_table me "orders"
                  [spec_of "id" "INTEGER"; spec_of "status" "TEXT";
                   spec_of "total" "INTEGER"; spec_of "shipped" "BOOLEAN"]
                  (Some (inl "id")) None true shop)))
       ("public", "orders"))
  = Some ["id"; "total"; "note"; "status"; "shipped"].
Proof. reflexivity. Qed.

(** A name listed twice among the columns to add is added once; the
    second ALTER TABLE is refused by the server and the specs after it are
    not reached. *)
Example create_table_repeated_name :
  let out := create_table me "orders"
               [spec_of "status" "TEXT"; spec_of "status" "TEXT";
                spec_of "shipped" "BOOLEAN"] None None true shop in
  snd out = inl (ProgrammingError "column status of relation already exists")
  /\ option_map column_names
       (find_relation (db_relations (fst out)) ("public", "orders"))
     = Some ["id"; "total"; "note"; "status"].
Proof. split; reflexivity. Qed.

(** *** The predicate compiler *)

Lemma fold_where_list (cs acc : list cond) :
  fold_left (where_ (S := list cond)) cs acc = acc ++ cs.
Proof.
  revert acc. induction cs as [|x cs IH]; intros acc; cbn [fold_left].
  - now rewrite app_nil_r.
  - rewrite IH. unfold where_, criteria_where. now rewrite <- app_assoc.
Qed.

(** Case analysis on every test of the goal, innermost first. *)
Ltac split_matches :=
  repeat match goal with
         | |- context [match ?x with _ => _ end] =>
             lazymatch x with
             | context [match _ with _ => _ end] => fail
             | _ => destruct x
             end
         end.

(** What one item adds does not depend on the statement it is added to. *)
Lemma where_item_linear {S} `{HasWhere S} (table : Table) (stmt : S)
  (k : string) (v : pyval) :
  where_item table stmt k v =
  (cs <~ where_item (S := list cond) table [] k v ;;
   inr (fold_left where_ cs stmt)).
Proof.
  unfold where_item, rbind, dict_getitem, str_lower, table_c, getitem_int.
  split_matches; reflexivity.
Qed.

Lemma rfold_shift {A} (body : list cond -> A -> result (list cond)) :
  (forall acc a, body acc a = (cs <~ body [] a ;; inr (acc ++ cs))) ->
  forall l acc, rfold body acc l = (cs <~ rfold body [] l ;; inr (acc ++ cs)).
Proof.
  intros Hbody. induction l as [|a l IH]; intros acc; cbn [rfold rbind].
  - now rewrite app_nil_r.
  - rewrite (Hbody acc a). destruct (body [] a) as [e|cs1]; cbn [rbind];
      [reflexivity|].
    rewrite (IH (acc ++ cs1)), (IH cs1).
    destruct (rfold body [] l) as [e|cs2]; cbn [rbind]; [reflexivity|].
    now rewrite app_assoc.
Qed.

Lemma rfold_linear {S A} `{HasWhere S} (body : S -> A -> result S)
  (body' : list cond -> A -> result (list cond)) :
  (forall stmt a, body stmt a = (cs <~ body' [] a ;; inr (fold_left where_ cs stmt))) ->
  (forall acc a, body' acc a = (cs <~ body' [] a ;; inr (acc ++ cs))) ->
  forall l stmt,
    rfold body stmt l = (cs <~ rfold body' [] l ;; inr (fold_left where_ cs stmt)).
Proof.
  intros Hbody Hbody'. induction l as [|a l IH]; intros stmt; cbn [rfold rbind].
  - reflexivity.
  - rewrite (Hbody stmt a). destruct (body' [] a) as [e|cs1]; cbn [rbind];
      [reflexivity|].
    rewrite IH. rewrite (rfold_shift body' Hbody' l cs1).
    destruct (rfold body' [] l) as [e|cs2]; cbn [rbind]; [reflexivity|].
    now rewrite fold_left_app.
Qed.

Lemma where_item_shift (table : Table) (acc : list cond) (k : string) (v : pyval) :
  where_item table acc k v =
  (cs <~ where_item (S := list cond) table [] k v ;; inr (acc ++ cs)).
Proof.
  rewrite where_item_linear.
  destruct (where_item table [] k v) as [e|cs]; cbn [rbind]; [reflexivity|].
  now rewrite fold_where_list.
Qed.

Lemma where_items_linear {S} `{HasWhere S} (table : Table) (stmt : S) (w : pyval) :
  where_items table stmt w =
  (cs <~ where_items (S := list cond) table [] w ;;
   inr (fold_left where_ cs stmt)).
Proof.
  unfold where_items. destruct w; try reflexivity.
  apply (rfold_linear
           (fun stmt kv => where_item table stmt (fst kv) (snd kv))
           (fun acc kv => where_item table acc (fst kv) (snd kv))).
  - intros stmt0 kv. apply where_item_linear.
  - intros acc kv. apply where_item_shift.
Qed.

Lemma where_items_shift (table : Table) (acc : list cond) (w : pyval) :
  where_items table acc w =
  (cs <~ where_items (S := list cond) table [] w ;; inr (acc ++ cs)).
Proof.
  rewrite where_items_linear.
  destruct (where_items table [] w) as [e|cs]; cbn [rbind]; [reflexivity|].
  now rewrite fold_where_list.
Qed.

(** [_where_clause] adds to the statement the criteria of the predicate,
    in order, through [.where]. *)
Lemma where_clause_criteria {S} `{HasWhere S} (stmt : S) (table : Table)
  (w : pyval) :
  _where_clause stmt table w =
  (cs <~ criteria table w ;; inr (fold_left where_ cs stmt)).
Proof.
  unfold criteria, _where_clause.
  destruct w; cbn [rbind]; try reflexivity;
    apply (rfold_linear (where_items table) (where_items table));
    intros; first [apply where_items_linear | apply where_items_shift].
Qed.

Lemma rfold_app {A B} (body : B -> A -> result B) (l1 l2 : list A) (acc : B) :
  rfold body acc (l1 ++ l2) = (acc1 <~ rfold body acc l1 ;; rfold body acc1 l2).
Proof.
  revert acc. induction l1 as [|a l1 IH]; intros acc; cbn [app rfold rbind].
  - reflexivity.
  - destruct (body acc a) as [e|acc1]; cbn [rbind]; [reflexivity | apply IH].
Qed.

Lemma criteria_app (table : Table) (ws1 ws2 : list pyval) :
  criteria table (PList (ws1 ++ ws2)) =
  (a <~ criteria table (PList ws1) ;;
   b <~ criteria table (PList ws2) ;; inr (a ++ b)).
Proof.
  unfold criteria, _where_clause. cbn [rbind]. rewrite rfold_app.
  destruct (rfold (where_items table) [] ws1) as [e|a]; cbn [rbind];
    [reflexivity|].
  apply (rfold_shift (where_items table)).
  intros acc w. apply where_items_shift.
Qed.

Lemma sel_where_fold (cs : list cond) (stmt : select_stmt) :
  sel_where (fold_left where_ cs stmt) = sel_where stmt ++ cs.
Proof.
  revert stmt. induction cs as [|x cs IH]; intros stmt; cbn [fold_left].
  - now rewrite app_nil_r.
  - rewrite IH. unfold where_, select_where. cbn [sel_where].
    now rewrite <- app_assoc.
Qed.

Lemma holds_app (op : string -> pyval -> pyval -> option bool)
  (a b : list cond) (row : dict) :
  holds op (a ++ b) row = holds op a row && holds op b row.
Proof. unfold holds. apply forallb_app. Qed.

Lemma criteria_dict_app (table : Table) (d1 d2 : dict) :
  criteria table (PDict (d1 ++ d2)) =
  (a <~ criteria table (PDict d1) ;;
   b <~ criteria table (PDict d2) ;; inr (a ++ b)).
Proof.
  unfold criteria, _where_clause. cbn [rbind rfold where_items].
  rewrite rfold_app.
  destruct (rfold _ [] d1) as [e|a]; cbn [rbind]; [reflexivity|].
  rewrite (rfold_shift (fun acc kv => where_item table acc (fst kv) (snd kv))).
  - destruct (rfold _ [] d2) as [e|b]; reflexivity.
  - intros acc kv. apply where_item_shift.
Qed.

(** Two predicates whose criteria are put one after the other select the
    rows both select. *)
Lemma where_conjoined (op : string -> pyval -> pyval -> option bool)
  (stmt s1 s2 : select_stmt) (table : Table) (w1 w2 w12 : pyval) :
  criteria table w12 =
  (a <~ criteria table w1 ;; b <~ criteria table w2 ;; inr (a ++ b)) ->
  _where_clause stmt table w1 = inr s1 ->
  _where_clause stmt table w2 = inr s2 ->
  exists s12,
    _where_clause stmt table w12 = inr s12
    /\ forall row,
         holds op (sel_where s12) row
         = holds op (sel_where s1) row && holds op (sel_where s2) row.
Proof.
  intros Happ H1 H2.
  rewrite where_clause_criteria in H1, H2 |- *. rewrite Happ.
  destruct (criteria table w1) as [e|a]; [discriminate|].
  destruct (criteria table w2) as [e|b]; [discriminate|].
  cbn [rbind] in *. injection H1 as <-. injection H2 as <-.
  eexists. split; [reflexivity|]. intros row.
  rewrite !sel_where_fold, !holds_app.
  destruct (holds op (sel_where stmt) row), (holds op a row), (holds op b row);
    reflexivity.
Qed.

(** C5.  A leaf whose operator, in lower case, is none of "in", "not in",
    "like", "not like", "is null", "is not null", "between" and
    "not between" raises nothing: the statement receives the condition
    that applies the operator, as written, to the column and the value.
    And the predicates of a collection are conjoined, whether the
    collection is a list of mappings or the items of one mapping: a row
    passes the statement compiled from two collections put together
    exactly when it passes the statement compiled from each. *)
Theorem where_custom_operator_and_conjunction :
  (forall (S : Type) (W : HasWhere S) (stmt : S) (table : Table)
          (k operator : string) (value : pyval) (d : dict),
      In k (map col_name (t_columns table)) ->
      dict_get "operator" d = Some (PStr operator) ->
      dict_get "value" d = Some value ->
      is_recognized operator = false ->
      _where_clause stmt table (PDict [(k, PDict d)])
      = inr (where_ stmt (COp k operator value)))
  /\ (forall (op : string -> pyval -> pyval -> option bool)
             (stmt s1 s2 : select_stmt) (table : Table) (ws1 ws2 : list pyval),
         _where_clause stmt table (PList ws1) = inr s1 ->
         _where_clause stmt table (PList ws2) = inr s2 ->
         exists s12,
           _where_clause stmt table (PList (ws1 ++ ws2)) = inr s12
           /\ forall row,
                holds op (sel_where s12) row
                = holds op (sel_where s1) row && holds op (sel_where s2) row)
  /\ (forall (op : string -> pyval -> pyval -> option bool)
             (stmt s1 s2 : select_stmt) (table : Table) (d1 d2 : dict),
         _where_clause stmt table (PDict d1) = inr s1 ->
         _where_clause stmt table (PDict d2) = inr s2 ->
         exists s12,
           _where_clause stmt table (PDict (d1 ++ d2)) = inr s12
           /\ forall row,
                holds op (sel_where s12) row
                = holds op (sel_where s1) row && holds op (sel_where s2) row).
Proof.
  split; [|split].
  - intros S W stmt table k operator value d Hk Hop Hvalue Hnew.
    unfold is_recognized, mem, recognized in Hnew. cbn [existsb] in Hnew.
    repeat (apply orb_false_iff in Hnew; destruct Hnew as [? Hnew]).
    unfold _where_clause, where_items. cbn [rbind rfold fst snd].
    unfold where_item, dict_getitem, str_lower, table_c.
    rewrite Hop, Hvalue. cbn [rbind].
    apply mem_In in Hk. rewrite Hk.
    repeat match goal with
           | Heq : (lower operator =? _) = false |- _ => rewrite Heq; clear Heq
           end.
    reflexivity.
  - intros op stmt s1 s2 table ws1 ws2.
    apply where_conjoined, criteria_app.
  - intros op stmt s1 s2 table d1 d2.
    apply where_conjoined, criteria_dict_app.
Qed.

Lemma where_custom_operator_and_conjunction_witness :
  _where_clause all_orders orders_table
    (PDict [("total", PDict [("operator", PStr "<"); ("value", PInt 15)])])
  = inr (where_ all_orders (COp "total" "<" (PInt 15)))
  /\ exists s12,
       _where_clause all_orders orders_table
         (PList ([PDict [("total", PDict [("operator", PStr "<"); ("value", PInt 15)])]]
                 ++ [PDict [("note", PStr "gift")]]))
       = inr s12
       /\ forall row,
            holds pg_op (sel_where s12) row
            = holds pg_op
                (sel_where (where_ all_orders (COp "total" "<" (PInt 15)))) row
              && holds pg_op
                   (sel_where (where_ all_orders (CEq "note" (PStr "gift")))) row.
Proof.
  split.
  - apply (proj1 where_custom_operator_and_conjunction select_stmt select_where
             all_orders orders_table "total" "<" (PInt 15)
             [("operator", PStr "<"); ("value", PInt 15)]).
    + right. left. reflexivity.
    + reflexivity.
    + reflexivity.
    + reflexivity.
  - apply (proj1 (proj2 where_custom_operator_and_conjunction) pg_op all_orders
             (where_ all_orders (COp "total" "<" (PInt 15)))
             (where_ all_orders (CEq "note" (PStr "gift")))
             orders_table
             [PDict [("total", PDict [("operator", PStr "<"); ("value", PInt 15)])]]
             [PDict [("note", PStr "gift")]]);
      reflexivity.
Defined.

Ltac in_classes := cbn; repeat (first [left; reflexivity | right]).

(** The exceptions of the compiler are those of the dictionary, attribute
    and index accesses it makes. *)
Lemma where_item_error_class {S} `{HasWhere S} (table : Table) (stmt : S)
  (k : string) (v : pyval) (e : exn) :
  where_item table stmt k v = inl e -> In (exn_class e) where_errors.
Proof.
  unfold where_item, rbind, dict_getitem, str_lower, table_c, getitem_int,
    no_attribute, in_list.
  split_matches; intros Hraise; try discriminate Hraise;
    injection Hraise as <-; in_classes.
Qed.

(** The text of a condition is made of the words of SQL and of the
    operators given to [column.op(...)]. *)
Ltac sql_word Ht :=
  cbn in Ht;
  repeat (destruct Ht as [<-|Ht]; [apply in_or_app; left; in_classes|]);
  try contradiction.

Lemma render_texts (x : cond) : incl (texts (render x)) (sql_words ++ operators x).
Proof.
  induction x as [c v|c v|c v|c v|c v|c|c|c lo hi|y IH|c op v]; intros t Ht.
  - destruct (is_null v) eqn:Hv; cbn [render] in Ht; rewrite Hv in Ht; sql_word Ht.
  - sql_word Ht.
  - sql_word Ht.
  - sql_word Ht.
  - sql_word Ht.
  - sql_word Ht.
  - sql_word Ht.
  - sql_word Ht.
  - cbn [operators].
    assert (Hwrap : In t (texts (Text "NOT (" :: render y ++ [Text ")"])) ->
                    In t (sql_words ++ operators y)).
    { unfold texts. cbn [flat_map app]. rewrite flat_map_app. cbn [flat_map app].
      intros [<-|Hin]; [apply in_or_app; left; in_classes|].
      apply in_app_or in Hin. destruct Hin as [Hin|[<-|[]]].
      - now apply IH.
      - apply in_or_app. left. in_classes. }
    destruct y; try (apply Hwrap; exact Ht). sql_word Ht.
  - cbn in Ht. cbn [operators].
    destruct Ht as [<-|[<-|[<-|[]]]].
    + apply in_or_app. left. in_classes.
    + apply in_or_app. right. now left.
    + apply in_or_app. left. in_classes.
Qed.

Lemma where_item_column (table : Table) (k : string) (v : pyval) (cs : list cond) :
  where_item (S := list cond) table [] k v = inr cs ->
  exists c, cs = [c] /\ cond_column c = k /\ In k (map col_name (t_columns table)).
Proof.
  unfold where_item, table_c.
  destruct (mem k (map col_name (t_columns table))) eqn:Hmem.
  - apply mem_In in Hmem. intros Hrun.
    assert (Hone : exists c, cs = [c] /\ cond_column c = k);
      [|destruct Hone as [c [? ?]]; now exists c].
    revert Hrun. unfold where_, criteria_where.
    destruct v; cbn [rbind app];
      try (intros [= <-]; eexists; split; reflexivity).
    destruct (dict_getitem d "operator") as [e|operator]; cbn [rbind];
      [discriminate|].
    destruct (str_lower operator) as [e|o]; cbn [rbind]; [discriminate|].
    destruct (dict_getitem d "value") as [e|value]; cbn [rbind].
    + repeat match goal with
             | |- context [if ?b then _ else _] => destruct b
             end;
        try discriminate;
        try (intros [= <-]; eexists; split; reflexivity).
      destruct operator; discriminate.
    + repeat match goal with
             | |- context [if ?b then _ else _] => destruct b
             end;
        try (intros [= <-]; eexists; split; reflexivity);
        try (destruct (in_list value) as [e|[]]; cbn [rbind]; [discriminate|];
             intros [= <-]; eexists; split; reflexivity);
        try (destruct (getitem_int value 0) as [e|lo]; cbn [rbind]; [discriminate|];
             destruct (getitem_int value 1) as [e|hi]; cbn [rbind]; [discriminate|];
             intros [= <-]; eexists; split; reflexivity).
      destruct operator; try discriminate.
      intros [= <-]; eexists; split; reflexivity.
  - intros Hrun. exfalso. revert Hrun.
    destruct v; cbn [rbind]; try discriminate.
    destruct (dict_getitem d "operator") as [e|operator]; cbn [rbind];
      [discriminate|].
    destruct (str_lower operator) as [e|o]; cbn [rbind]; [discriminate|].
    repeat match goal with
           | |- context [if ?b then _ else _] => destruct b
           end; discriminate.
Qed.

(** The operator of a leaf reaches a condition by the last branch only. *)
Lemma where_item_operator (table : Table) (k : string) (v : pyval) (c : cond) :
  where_item (S := list cond) table [] k v = inr [c] ->
  forall op, In op (operators c) ->
  exists d, v = PDict d
            /\ dict_get "operator" d = Some (PStr op)
            /\ is_recognized op = false.
Proof.
  unfold where_item, table_c, where_, criteria_where.
  destruct v; cbn [rbind app];
    try (destruct (mem k (map col_name (t_columns table))); cbn [rbind app];
         [intros [= <-] op [] | discriminate]).
  unfold dict_getitem at 1.
  destruct (dict_get "operator" d) as [operator|] eqn:Hop; cbn [rbind]; [|discriminate].
  destruct operator; cbn [str_lower rbind]; try discriminate.
  destruct (mem k (map col_name (t_columns table))); cbn [rbind app].
  2:{ repeat match goal with
             | |- context [if ?b then _ else _] => destruct b
             end; discriminate. }
  repeat match goal with
         | |- context [if (lower ?x =? ?y) then _ else _] =>
             destruct (lower x =? y) eqn:?
         end;
    unfold dict_getitem;
    try (destruct (dict_get "value" d) as [value|]; cbn [rbind]; [|discriminate]);
    try (destruct (in_list value) as [e|[]]; cbn [rbind]; [discriminate|]);
    try (destruct (getitem_int value 0) as [e|lo]; cbn [rbind]; [discriminate|];
         destruct (getitem_int value 1) as [e|hi]; cbn [rbind]; [discriminate|]);
    intros [= <-] op Hin; try contradiction.
  destruct Hin as [<-|[]]. exists d. split; [reflexivity|]. split; [exact Hop|].
  unfold is_recognized, recognized, mem. cbn [existsb].
  repeat match goal with
         | Heq : (_ =? _) = false |- _ => rewrite Heq; clear Heq
         end.
  reflexivity.
Qed.

Lemma where_items_each (table : Table) (d : dict) :
  forall acc cs,
    rfold (fun stmt kv => where_item (S := list cond) table stmt (fst kv) (snd kv))
      acc d = inr cs ->
    exists cs', cs = acc ++ cs'
                /\ Forall2 (fun kv c =>
                              where_item (S := list cond) table [] (fst kv) (snd kv)
                              = inr [c]) d cs'.
Proof.
  induction d as [|[k v] d IH]; intros acc cs; cbn [rfold map fst snd].
  - intros [= <-]. exists []. rewrite app_nil_r. split; [reflexivity | constructor].
  - rewrite where_item_shift.
    destruct (where_item (S := list cond) table [] k v) as [e|one] eqn:Hitem;
      cbn [rbind]; [discriminate|].
    destruct (where_item_column table k v one Hitem) as [c [-> _]].
    intros Hrun. destruct (IH _ _ Hrun) as [cs' [-> Hall]].
    exists (c :: cs'). rewrite <- app_assoc. split; [reflexivity|].
    now constructor.
Qed.

Lemma where_clause_each (table : Table) (ws : list pyval) :
  forall acc cs,
    rfold (where_items (S := list cond) table) acc ws = inr cs ->
    exists cs', cs = acc ++ cs'
                /\ Forall2 (fun kv c =>
                              where_item (S := list cond) table [] (fst kv) (snd kv)
                              = inr [c]) (items_of (PList ws)) cs'.
Proof.
  induction ws as [|w ws IH]; intros acc cs; cbn [rfold items_of flat_map].
  - intros [= <-]. exists []. rewrite app_nil_r. split; [reflexivity | constructor].
  - destruct (where_items (S := list cond) table acc w) as [e|acc1] eqn:Hw;
      cbn [rbind]; [discriminate|].
    destruct w; try discriminate Hw. cbn [where_items] in Hw.
    destruct (where_items_each table d acc acc1 Hw) as [cs1 [-> H1]].
    intros Hrun. destruct (IH _ _ Hrun) as [cs2 [-> H2]].
    exists (cs1 ++ cs2). rewrite <- app_assoc. split; [reflexivity|].
    cbn [items_of] in H2. now apply Forall2_app.
Qed.

(** A predicate that compiles gives one condition per item, the one the
    item gives on its own. *)
Lemma criteria_each (table : Table) (where' : pyval) (cs : list cond) :
  criteria table where' = inr cs ->
  Forall2 (fun kv c =>
             where_item (S := list cond) table [] (fst kv) (snd kv) = inr [c])
    (items_of where') cs.
Proof.
  unfold criteria, _where_clause. destruct where'; cbn [rbind]; try discriminate.
  - destruct s as [|a s]; cbn [chars map rfold rbind where_items].
    + intros [= <-]. constructor.
    + discriminate.
  - intros Hrun. destruct (where_clause_each table l [] cs Hrun) as [cs' [-> ?]].
    assumption.
  - cbn [rfold]. destruct (where_items (S := list cond) table [] (PDict d))
      as [e|cs1] eqn:Hw; cbn [rbind]; [discriminate|].
    intros [= <-]. cbn [where_items] in Hw.
    destruct (where_items_each table d [] cs1 Hw) as [cs' [-> ?]]. assumption.
Qed.

(** The text of a compiled predicate: the words of SQL, and the operators
    of the leaves whose operator is not a recognized one. *)
Lemma criteria_texts (table : Table) (where' : pyval) (cs : list cond) (x : cond)
  (t : string) :
  criteria table where' = inr cs -> In x cs -> In t (texts (render x)) ->
  In t sql_words
  \/ exists k d, In (k, PDict d) (items_of where')
                 /\ dict_get "operator" d = Some (PStr t)
                 /\ is_recognized t = false.
Proof.
  intros Hcs Hx Ht. apply render_texts in Ht. apply in_app_or in Ht.
  destruct Ht as [Ht|Ht]; [now left|]. right.
  apply criteria_each in Hcs.
  induction Hcs as [|[k v] c items cs' Hitem _ IH]; [contradiction|].
  destruct Hx as [->|Hx].
  - destruct (where_item_operator table k v x Hitem t Ht) as [d [-> [Hop Hnew]]].
    exists k, d. split; [now left | now split].
  - destruct (IH Hx) as [k' [d [Hin Hrest]]]. exists k', d. split; [now right|].
    exact Hrest.
Qed.

Lemma where_clause_error_class {S} `{HasWhere S} (stmt : S) (table : Table)
  (w : pyval) (e : exn) :
  _where_clause stmt table w = inl e -> In (exn_class e) where_errors.
Proof.
  assert (Hitems : forall acc x e0,
            where_items table acc x = inl e0 -> In (exn_class e0) where_errors).
  { intros acc x e0. unfold where_items.
    destruct x; try (intros [= <-]; in_classes).
    apply (rfold_error (fun e => In (exn_class e) where_errors)).
    intros acc0 kv e1. apply where_item_error_class. }
  unfold _where_clause.
  destruct w; cbn [rbind]; try (intros [= <-]; in_classes);
    apply (rfold_error (fun e => In (exn_class e) where_errors)); exact Hitems.
Qed.



(** *** get *)

(** [if limit:] does not tell [limit=0] from [limit=None]: both leave the
    statement without a LIMIT. *)
Lemma get_limit_zero_is_no_limit
  (op : string -> pyval -> pyval -> option bool) (self : Self)
  (table_name : string) (columns : option (list string)) (where' : pyval)
  (offset : option Z) (sort_by : option string) (db : database) :
  get op self table_name columns where' (Some 0%Z) offset sort_by db
  = get op self table_name columns where' None offset sort_by db.
Proof. reflexivity. Qed.

(** C8, at [limit=0].  On a table with one row, [get] with [limit=0]
    returns that row, not the empty sequence. *)
Theorem get_limit_zero_returns_rows :
  snd (get pg_op me "orders" None PNone (Some 0%Z) None None shop)
  = inr [order 1 10 (PStr "gift")].
Proof. reflexivity. Qed.

Lemma select_fold_where (cs : list cond) (s : select_stmt) :
  fold_left where_ cs s
  = Select (sel_from s) (sel_columns s) (sel_where s ++ cs)
      (sel_offset s) (sel_order_by s) (sel_limit s).
Proof.
  revert s. induction cs as [|x cs IH]; intros s; cbn [fold_left].
  - rewrite app_nil_r. now destruct s.
  - rewrite IH. unfold where_, select_where.
    cbn [sel_from sel_columns sel_where sel_offset sel_order_by sel_limit].
    now rewrite <- app_assoc.
Qed.

Lemma all_mem (l : list string) : forallb (fun c => mem c l) l = true.
Proof.
  apply forallb_forall. intros c Hc. now apply mem_In.
Qed.

Lemma filter_none {A} (p : A -> bool) (l : list A) :
  (forall x, In x l -> p x = false) -> filter p l = [].
Proof.
  induction l as [|x l IH]; intros H; cbn [filter]; [reflexivity|].
  rewrite (H x (or_introl eq_refl)). apply IH. intros y Hy. apply H. now right.
Qed.

Lemma distinct_NoDup (l : list string) : distinct l = true <-> NoDup l.
Proof.
  induction l as [|x l IH]; cbn [distinct].
  - split; [constructor | reflexivity].
  - rewrite andb_true_iff, negb_true_iff, mem_not_In, IH. split.
    + intros [Hx Hl]. now constructor.
    + intros Hnd. inversion Hnd. now split.
Qed.

Lemma set_relation_same l n r :
  find_relation l n = Some r -> set_relation l n r = l.
Proof.
  induction l as [|[n0 r0] l IH]; simpl; [discriminate|].
  destruct (same_name n0 n) eqn:Hn.
  - intros [= ->]. apply same_name_eq in Hn. now subst.
  - intros H. now rewrite IH.
Qed.

Lemma execute_select_run (op : string -> pyval -> pyval -> option bool)
  (from : string * string) (cols : list string) (cs : list cond)
  (offset : option Z) (sort_by : option string) (limit : option Z)
  (db : database) (rel : relation) :
  find_relation (db_relations db) from = Some rel ->
  execute_select op (Select from cols cs offset sort_by limit) db
  = (issue (SSelect (Select from cols cs offset sort_by limit)) db,
     exec_select op (Select from cols cs offset sort_by limit) rel).
Proof.
  intros Hfind. unfold execute_select, on_relation, issue. cbn [sel_from].
  rewrite Hfind.
  destruct (exec_select op _ rel) as [e|rows]; cbn [rbind db_relations db_log].
  - reflexivity.
  - now rewrite (set_relation_same _ _ _ Hfind).
Qed.

(** The loop over the rows of the result. *)
Lemma rows_mapped (cols : list string) (rows : list dict) (db : database) :
  for_fold (fun results row =>
              d <- lift (row_mapping cols row) ;;
              ret (results ++ [d]))
    [] rows db
  = (db, mapped cols rows).
Proof.
  unfold mapped, row_mapping. destruct (distinct cols).
  - assert (Hgen : forall acc,
      for_fold (fun results row => d <- lift (inr row) ;; ret (results ++ [d]))
        acc rows db = (db, inr (acc ++ rows))).
    { induction rows as [|r rows IH]; intros acc; cbn [for_fold].
      - unfold ret. now rewrite app_nil_r.
      - unfold bind at 1. unfold bind at 1. unfold lift, ret. rewrite IH.
        now rewrite <- app_assoc. }
    apply Hgen.
  - now destruct rows.
Qed.

(** [get], once the table is reflected. *)
Lemma get_run (op : string -> pyval -> pyval -> option bool) (self : Self)
  (table_name : string) (columns : option (list string)) (where' : pyval)
  (limit offset : option Z) (sort_by : option string) (db : database)
  (rel : relation) :
  find_relation (db_relations db) (schema self, table_name) = Some rel ->
  get op self table_name columns where' limit offset sort_by db =
  match selected (reflect self table_name rel) columns with
  | inl e => (db, inl e)
  | inr cols =>
      match compiled (reflect self table_name rel) where' with
      | inl e => (db, inl e)
      | inr cs =>
          let stmt :=
            Select (schema self, table_name) cols cs
              (if truthy_int offset then offset else None)
              (if truthy_str sort_by then sort_by else None)
              (if truthy_int limit then limit else None) in
          match compile_order_by (reflect self table_name rel) stmt with
          | inl e => (db, inl e)
          | inr _ =>
              (issue (SSelect stmt) db,
               rows <~ exec_select op stmt rel ;; mapped cols rows)
          end
      end
  end.
Proof.
  intros Hfind. unfold get. rewrite bind_get_table, Hfind.
  fold (reflect self table_name rel).
  unfold bind at 1. unfold lift at 1.
  destruct (selected (reflect self table_name rel) columns) as [e|cols];
    [reflexivity|].
  unfold bind at 1. unfold lift at 1. unfold compiled.
  assert (Hrest : forall cs offset' sort_by' limit',
    bind (lift (compile_order_by (reflect self table_name rel)
                  (Select (schema self, table_name) cols cs offset' sort_by' limit')))
      (fun _ =>
         bind (execute_select op
                 (Select (schema self, table_name) cols cs offset' sort_by' limit'))
           (fun rows =>
              for_fold (fun results row =>
                          d <- lift (row_mapping cols row) ;;
                          ret (results ++ [d]))
                [] rows)) db
    = match compile_order_by (reflect self table_name rel)
              (Select (schema self, table_name) cols cs offset' sort_by' limit') with
      | inl e => (db, inl e)
      | inr _ =>
          (issue (SSelect (Select (schema self, table_name) cols cs offset' sort_by'
                             limit')) db,
           rows <~ exec_select op
                     (Select (schema self, table_name) cols cs offset' sort_by' limit')
                     rel ;;
           mapped cols rows)
      end).
  { intros cs offset' sort_by' limit'. unfold bind at 1. unfold lift at 1.
    destruct (compile_order_by _ _) as [e|[]]; [reflexivity|].
    unfold bind at 1. rewrite (execute_select_run op _ _ _ _ _ _ db rel Hfind).
    destruct (exec_select op _ rel) as [e|rows]; cbn [rbind]; [reflexivity|].
    apply rows_mapped. }
  destruct (truthy where').
  - rewrite where_clause_criteria.
    destruct (criteria (reflect self table_name rel) where') as [e|cs];
      cbn [rbind]; [reflexivity|].
    rewrite select_fold_where.
    cbn [sel_from sel_columns sel_where sel_offset sel_order_by sel_limit app t_name
         reflect].
    destruct (truthy_int offset), (truthy_str sort_by), (truthy_int limit);
      cbn [sel_from sel_columns sel_where sel_offset sel_order_by sel_limit];
      apply Hrest.
  - cbn [sel_from sel_columns sel_where sel_offset sel_order_by sel_limit t_name reflect].
    destruct (truthy_int offset), (truthy_str sort_by), (truthy_int limit);
      cbn [sel_from sel_columns sel_where sel_offset sel_order_by sel_limit];
      apply Hrest.
Qed.

(** The rest of C8: a predicate no row satisfies gives the empty list, a
    list and not an absence. *)
Lemma get_no_match_is_empty_list
  (op : string -> pyval -> pyval -> option bool) (self : Self)
  (table_name : string) (where' : pyval) (db : database) (rel : relation)
  (cs : list cond) :
  find_relation (db_relations db) (schema self, table_name) = Some rel ->
  truthy where' = true ->
  criteria {| t_name := (schema self, table_name);
              t_columns := rel_columns rel;
              t_primary_key := rel_primary_key rel |} where' = inr cs ->
  (forall row, In row (rel_rows rel) -> holds op cs row = false) ->
  snd (get op self table_name None where' None None None db) = inr [].
Proof.
  intros Hfind Htruthy Hcs Hnone.
  rewrite (get_run op self table_name None where' None None None db rel Hfind).
  cbn [selected]. unfold compiled. rewrite Htruthy. unfold reflect. rewrite Hcs.
  cbn [truthy_int truthy_str compile_order_by sel_order_by snd].
  unfold exec_select.
  cbn [sel_from sel_columns sel_where sel_offset sel_order_by sel_limit t_columns].
  unfold column_names. rewrite all_mem. cbn [negb rbind].
  rewrite (filter_none _ _ Hnone). cbn [map]. unfold mapped.
  now destruct (distinct _).
Qed.

Example get_no_match :
  snd (get pg_op me "orders" None
         (PDict [("total", PDict [("operator", PStr ">"); ("value", PInt 500)])])
         None None None shop)
  = inr [].
Proof. reflexivity. Qed.

(** *** update: the caller's records *)

Lemma renamed_field_get (d : dict) (c k : string) :
  dict_get k (renamed_field d c) =
  if ("_" ++ c =? k)%string then Some (row_get c d)
  else if c =? k then None
  else dict_get k d.
Proof.
  unfold renamed_field.
  destruct (String.eqb_spec ("_" ++ c) k) as [<-|Hne].
  - apply dict_get_set_eq.
  - rewrite dict_get_set_ne by assumption.
    destruct (String.eqb_spec c k) as [<-|Hne'].
    + apply dict_get_remove_eq.
    + now apply dict_get_remove_ne.
Qed.

Lemma underscore_neq (c : string) : ("_" ++ c)%string <> c.
Proof.
  intros H. apply (f_equal String.length) in H. cbn in H. lia.
Qed.

Lemma rename_match_field_spec (record : ref) (column : string) (h : heap)
  (db : database) :
  rename_match_field record column (h, db) =
  if dict_has column (h record)
  then ((heap_set h record (renamed_field (h record) column), db), inr tt)
  else ((h, db), inl (KeyError column)).
Proof.
  unfold rename_match_field, bind, deref, lift, store, dict_pop, dict_has,
    renamed_field, row_get. cbn [fst snd].
  now destruct (dict_get column (h record)).
Qed.

Lemma heap_set_eq (h : heap) (r : ref) (d : dict) : heap_set h r d r = d.
Proof. unfold heap_set. now rewrite Nat.eqb_refl. Qed.

Lemma heap_set_ne (h : heap) (r r' : ref) (d : dict) :
  r' <> r -> heap_set h r d r' = h r'.
Proof.
  intros Hne. unfold heap_set. now destruct (Nat.eqb_spec r' r).
Qed.

(** The loop over the match fields, on one record. *)
Lemma rename_match_fields_spec (on : list string) :
  forall (h : heap) (db : database) (record : ref),
  exists h',
    (forall r', r' <> record -> h' r' = h r')
    /\ if can_rename on (h record)
       then rename_match_fields on record (h, db) = ((h', db), inr tt)
            /\ h' record = renamed on (h record)
       else exists k, In k on
                      /\ rename_match_fields on record (h, db)
                         = ((h', db), inl (KeyError k)).
Proof.
  unfold rename_match_fields.
  induction on as [|c on IH]; intros h db record.
  - exists h. split; [reflexivity|]. cbn. now split.
  - assert (Hstep :
      for_fold (fun _ column => rename_match_field record column) tt (c :: on) (h, db)
      = if dict_has c (h record)
        then for_fold (fun _ column => rename_match_field record column) tt on
               (heap_set h record (renamed_field (h record) c), db)
        else ((h, db), inl (KeyError c))).
    { cbn [for_fold]. unfold bind at 1. rewrite rename_match_field_spec.
      now destruct (dict_has c (h record)). }
    rewrite Hstep. clear Hstep. cbn [can_rename].
    destruct (dict_has c (h record)) eqn:Hhas; cbn [andb].
    + destruct (IH (heap_set h record (renamed_field (h record) c)) db record)
        as [h' [Hother Hrun]].
      rewrite heap_set_eq in Hrun.
      exists h'. split.
      * intros r' Hr'. rewrite (Hother r' Hr'). now apply heap_set_ne.
      * destruct (can_rename on (renamed_field (h record) c)).
        -- destruct Hrun as [Hrun Hcell]. split; [exact Hrun|].
           rewrite Hcell. reflexivity.
        -- destruct Hrun as [k [Hk Hrun]]. exists k. split; [now right | exact Hrun].
    + exists h. split; [reflexivity|]. exists c. split; [now left | reflexivity].
Qed.

Lemma can_rename_true (on : list string) :
  forall d, NoDup on -> incl on (dict_keys d) -> can_rename on d = true.
Proof.
  induction on as [|c on IH]; intros d Hnodup Hincl; cbn [can_rename];
    [reflexivity|].
  inversion Hnodup as [|? ? Hhead Htail]; subst.
  assert (Hc : dict_has c d = true) by (apply dict_has_In, Hincl; now left).
  rewrite Hc. cbn [andb]. apply IH; [assumption|].
  intros k Hk. apply dict_get_keys. rewrite renamed_field_get.
  destruct (("_" ++ c)%string =? k); [eexists; reflexivity|].
  destruct (String.eqb_spec c k) as [->|_]; [contradiction|].
  apply dict_get_keys. apply Hincl. now right.
Qed.

Lemma can_rename_false (on : list string) (c : string) :
  forall d, In c on -> ~ In c (dict_keys d) ->
            (forall c', In c' on -> c <> ("_" ++ c')%string) ->
            can_rename on d = false.
Proof.
  induction on as [|c0 on IH]; intros d Hin Hlacks Hfree; [contradiction|].
  cbn [can_rename].
  destruct (dict_has c0 d) eqn:Hhas; [|reflexivity]. cbn [andb].
  destruct Hin as [->|Hin].
  - apply dict_has_In in Hhas. contradiction.
  - apply IH; [assumption| |].
    + rewrite <- dict_get_none, renamed_field_get.
      destruct (String.eqb_spec ("_" ++ c0) c) as [Heq|_].
      * exfalso. apply (Hfree c0); [now left | now symmetry].
      * destruct (c0 =? c); [reflexivity|]. now apply dict_get_none.
    + intros c' Hc'. apply Hfree. now right.
Qed.

(** The loop over the records, when every field is found. *)
Lemma rename_all_ok (on : list string) (data : list ref) :
  NoDup data ->
  forall (h : heap) (db : database),
    (forall r, In r data -> can_rename on (h r) = true) ->
    exists h',
      for_fold (fun _ record => rename_match_fields on record) tt data (h, db)
      = ((h', db), inr tt)
      /\ (forall r, In r data -> h' r = renamed on (h r))
      /\ (forall r, ~ In r data -> h' r = h r).
Proof.
  induction 1 as [|r data Hfresh Hnodup IH]; intros h db Hall.
  - exists h. cbn. repeat split; auto. intros r [].
  - destruct (rename_match_fields_spec on h db r) as [h1 [Hother Hrun]].
    rewrite (Hall r (or_introl eq_refl)) in Hrun. destruct Hrun as [Hrun Hcell].
    destruct (IH h1 db) as [h' [Hloop [Hin Hout]]].
    { intros r' Hr'. rewrite Hother; [apply Hall; now right|].
      intros ->. contradiction. }
    exists h'. cbn [for_fold]. unfold bind at 1. rewrite Hrun.
    split; [exact Hloop|]. split.
    + intros r' [<-|Hr'].
      * rewrite (Hout r Hfresh). exact Hcell.
      * rewrite (Hin r' Hr'). rewrite Hother; [reflexivity|].
        intros ->. contradiction.
    + intros r' Hr'. rewrite Hout by (intros Hc; apply Hr'; now right).
      apply Hother. intros ->. apply Hr'. now left.
Qed.

(** The loop over the records, when one of them lacks a field. *)
Lemma rename_all_fails (on : list string) (data : list ref) (r0 : ref) :
  forall (h : heap) (db : database),
    In r0 data -> can_rename on (h r0) = false ->
    exists h' k,
      In k on
      /\ for_fold (fun _ record => rename_match_fields on record) tt data (h, db)
         = ((h', db), inl (KeyError k)).
Proof.
  induction data as [|r data IH]; intros h db Hin Hfails; [contradiction|].
  destruct (rename_match_fields_spec on h db r) as [h1 [Hother Hrun]].
  cbn [for_fold]. unfold bind at 1.
  destruct (can_rename on (h r)) eqn:Hr.
  - destruct Hrun as [Hrun _]. rewrite Hrun.
    destruct Hin as [->|Hin]; [congruence|].
    apply IH; [assumption|].
    rewrite Hother; [assumption|]. intros ->. congruence.
  - destruct Hrun as [k [Hk Hrun]]. rewrite Hrun. now exists h1, k.
Qed.

Lemma underscore_inj (a b : string) : ("_" ++ a)%string = ("_" ++ b)%string -> a = b.
Proof. intros H. now injection H. Qed.

Lemma renamed_other (on : list string) (k : string) :
  forall d, ~ In k on -> (forall c, In c on -> k <> ("_" ++ c)%string) ->
            dict_get k (renamed on d) = dict_get k d.
Proof.
  unfold renamed. induction on as [|c on IH]; intros d Hk Hfree; [reflexivity|].
  cbn [fold_left]. rewrite IH.
  - rewrite renamed_field_get.
    destruct (String.eqb_spec ("_" ++ c) k) as [Heq|_].
    + exfalso. apply (Hfree c); [now left | now symmetry].
    + destruct (String.eqb_spec c k) as [->|_]; [|reflexivity].
      exfalso. apply Hk. now left.
  - intros Hin. apply Hk. now right.
  - intros c' Hc'. apply Hfree. now right.
Qed.

Lemma renamed_absent (on : list string) (k : string) :
  forall d, dict_get k d = None -> (forall c, In c on -> k <> ("_" ++ c)%string) ->
            dict_get k (renamed on d) = None.
Proof.
  unfold renamed. induction on as [|c on IH]; intros d Hnone Hfree; [assumption|].
  cbn [fold_left]. apply IH.
  - rewrite renamed_field_get.
    destruct (String.eqb_spec ("_" ++ c) k) as [Heq|_].
    + exfalso. apply (Hfree c); [now left | now symmetry].
    + now destruct (c =? k).
  - intros c' Hc'. apply Hfree. now right.
Qed.

Lemma underscore_free_tail (c : string) (on : list string) :
  underscore_free (c :: on) -> underscore_free on.
Proof.
  intros H a b Ha Hb. apply H; now right.
Qed.

(** A match field is gone from the record after the loop. *)
Lemma renamed_removed (on : list string) (c : string) :
  forall d, underscore_free on -> In c on -> dict_get c (renamed on d) = None.
Proof.
  induction on as [|c0 on IH]; intros d Hfree Hin; [contradiction|].
  change (renamed (c0 :: on) d) with (renamed on (renamed_field d c0)).
  destruct (in_dec string_dec c on) as [Hlater|Hnot].
  - apply IH; [eapply underscore_free_tail; eauto | assumption].
  - destruct Hin as [->|Hin]; [|contradiction].
    apply renamed_absent.
    + rewrite renamed_field_get.
      destruct (String.eqb_spec ("_" ++ c) c) as [Heq|_].
      * now apply underscore_neq in Heq.
      * now rewrite String.eqb_refl.
    + intros c' Hc'. apply Hfree; [now left | now right].
Qed.

(** And its value is under the underscore-prefixed name. *)
Lemma renamed_underscore (on : list string) (c : string) :
  forall d, NoDup on -> underscore_free on -> incl on (dict_keys d) -> In c on ->
            dict_get ("_" ++ c)%string (renamed on d) = dict_get c d.
Proof.
  induction on as [|c0 on IH]; intros d Hnodup Hfree Hincl Hin; [contradiction|].
  inversion Hnodup as [|? ? Hhead Htail]; subst.
  change (renamed (c0 :: on) d) with (renamed on (renamed_field d c0)).
  destruct Hin as [->|Hin].
  - rewrite renamed_other.
    + rewrite renamed_field_get, String.eqb_refl.
      assert (Hc : In c (dict_keys d)) by (apply Hincl; now left).
      apply dict_get_keys in Hc. destruct Hc as [v Hv].
      unfold row_get. now rewrite Hv.
    + intros Hlater. apply (Hfree ("_" ++ c)%string c); [now right | now left | reflexivity].
    + intros c' Hc' Heq. apply underscore_inj in Heq. subst c'. contradiction.
  - rewrite IH; try assumption.
    + rewrite renamed_field_get.
      destruct (String.eqb_spec ("_" ++ c0) c) as [Heq|_].
      * exfalso. apply (Hfree c c0); [now right | now left | now symmetry].
      * destruct (String.eqb_spec c0 c) as [->|_]; [contradiction | reflexivity].
    + eapply underscore_free_tail; eauto.
    + intros k Hk. apply dict_get_keys. rewrite renamed_field_get.
      destruct (("_" ++ c0)%string =? k); [eexists; reflexivity|].
      destruct (String.eqb_spec c0 k) as [->|_]; [contradiction|].
      apply dict_get_keys, Hincl. now right.
Qed.

(** A key that is no match field stays in the record. *)
Lemma renamed_keeps (on : list string) (k : string) :
  forall d, In k (dict_keys d) -> ~ In k on -> In k (dict_keys (renamed on d)).
Proof.
  unfold renamed. induction on as [|c on IH]; intros d Hk Hnot; [assumption|].
  cbn [fold_left]. apply IH.
  - apply dict_get_keys. rewrite renamed_field_get.
    destruct (("_" ++ c)%string =? k); [eexists; reflexivity|].
    destruct (String.eqb_spec c k) as [->|_].
    + exfalso. apply Hnot. now left.
    + now apply dict_get_keys.
  - intros Hin. apply Hnot. now right.
Qed.

(** *** update: the statement and its run *)

Lemma table_c_in (table : Table) (c : string) :
  In c (map col_name (t_columns table)) -> table_c table c = inr c.
Proof.
  intros H. unfold table_c. apply mem_In in H. now rewrite H.
Qed.

Lemma returning_columns (table : Table) (on : list string) :
  incl on (map col_name (t_columns table)) ->
  forall acc,
    rfold (fun acc c => c' <~ table_c table c ;; inr (acc ++ [c'])) acc on
    = inr (acc ++ on).
Proof.
  induction on as [|c on IH]; intros Hincl acc; cbn [rfold rbind].
  - now rewrite app_nil_r.
  - rewrite table_c_in by (apply Hincl; now left). cbn [rbind].
    rewrite IH by (intros k Hk; apply Hincl; now right).
    now rewrite <- app_assoc.
Qed.

Lemma where_columns (table : Table) (on : list string) :
  incl on (map col_name (t_columns table)) ->
  forall acc,
    rfold (fun acc column =>
             c <~ table_c table column ;;
             inr (acc ++ [(c, ("_" ++ column)%string)])) acc on
    = inr (acc ++ map (fun c => (c, ("_" ++ c)%string)) on).
Proof.
  induction on as [|c on IH]; intros Hincl acc; cbn [rfold rbind map].
  - now rewrite app_nil_r.
  - rewrite table_c_in by (apply Hincl; now left). cbn [rbind].
    rewrite IH by (intros k Hk; apply Hincl; now right).
    now rewrite <- app_assoc.
Qed.

Lemma collect_params (data : list ref) (h : heap) (db : database) :
  forall acc,
    for_fold (fun acc record => d <- deref record ;; ret (acc ++ [d])) acc data (h, db)
    = ((h, db), inr (acc ++ map h data)).
Proof.
  induction data as [|r data IH]; intros acc; cbn [for_fold map].
  - unfold ret. now rewrite app_nil_r.
  - unfold bind at 1. unfold bind at 1. unfold deref, ret. cbn [fst].
    rewrite IH. now rewrite <- app_assoc.
Qed.

(** [update], once the table is reflected and the statement built: the
    loop over the records, then the statement compiled and run with the
    records as they are after the loop. *)
Lemma update_unfold (self : Self) (table_name : string) (r0 : ref)
  (rest : list ref) (on : list string) (h : heap) (db : database)
  (rel : relation) :
  find_relation (db_relations db) (schema self, table_name) = Some rel ->
  incl on (column_names rel) ->
  update self table_name (DataList (r0 :: rest)) (OnList on) (h, db) =
  match for_fold (fun _ record => rename_match_fields on record) tt (r0 :: rest)
          (h, db) with
  | (w, inl e) => (w, inl e)
  | (w, inr _) =>
      match compile_update (reflect self table_name rel)
              (update_stmt_of (schema self, table_name) on (dict_keys (h r0)))
              (map (fst w) (r0 :: rest)) with
      | inl e => (w, inl e)
      | inr _ =>
          with_db (execute_update
                     (update_stmt_of (schema self, table_name) on (dict_keys (h r0)))
                     (map (fst w) (r0 :: rest))) w
      end
  end.
Proof.
  intros Hfind Hon. unfold update.
  unfold bind at 1. unfold with_db at 1. cbn [snd fst].
  unfold get_table at 1. rewrite Hfind.
  unfold bind at 1. unfold lift at 1.
  rewrite returning_columns by exact Hon.
  unfold bind at 1. unfold lift at 1.
  rewrite where_columns by exact Hon.
  unfold bind at 1. unfold deref at 1. cbn [fst app t_name].
  unfold bind at 1.
  destruct (for_fold (fun _ record => rename_match_fields on record) tt (r0 :: rest)
              (h, db)) as [[h1 db1] [e|u]]; [reflexivity|].
  unfold bind at 1. rewrite collect_params. cbn [app fst].
  unfold bind at 1. unfold lift at 1.
  fold (reflect self table_name rel).
  fold (update_stmt_of (schema self, table_name) on (dict_keys (h r0))).
  now destruct (compile_update _ _ _) as [e|[]].
Qed.

(** Whatever the statement does, the caller's records are as the loop
    left them. *)
Lemma update_heap (self : Self) (table_name : string) (r0 : ref)
  (rest : list ref) (on : list string) (h h1 : heap) (db : database)
  (rel : relation) :
  find_relation (db_relations db) (schema self, table_name) = Some rel ->
  incl on (column_names rel) ->
  for_fold (fun _ record => rename_match_fields on record) tt (r0 :: rest) (h, db)
  = ((h1, db), inr tt) ->
  fst (fst (update self table_name (DataList (r0 :: rest)) (OnList on) (h, db))) = h1.
Proof.
  intros Hfind Hon Hloop.
  rewrite (update_unfold self table_name r0 rest on h db rel Hfind Hon), Hloop.
  destruct (compile_update _ _ _) as [e|[]]; [reflexivity|].
  unfold with_db. now destruct (execute_update _ _ _).
Qed.

Lemma bind_params_ok (pairs : list (string * string)) (p : dict) :
  (forall cn, In cn pairs -> dict_has (snd cn) p = true) ->
  bind_params pairs p = inr (map (fun cn => (fst cn, row_get (snd cn) p)) pairs).
Proof.
  unfold bind_params.
  assert (Hgen : forall acc,
    (forall cn, In cn pairs -> dict_has (snd cn) p = true) ->
    rfold (fun acc cn =>
             match dict_get (snd cn) p with
             | Some v => inr (acc ++ [(fst cn, v)])
             | None =>
                 inl (StatementError
                        ("A value is required for bind parameter " ++ snd cn)%string)
             end) acc pairs
    = inr (acc ++ map (fun cn => (fst cn, row_get (snd cn) p)) pairs)).
  { induction pairs as [|cn pairs IH]; intros acc Hall; cbn [rfold rbind map].
    - now rewrite app_nil_r.
    - pose proof (Hall cn (or_introl eq_refl)) as Hcn.
      unfold dict_has in Hcn. unfold row_get.
      destruct (dict_get (snd cn) p) as [v|]; [|discriminate].
      cbn [rbind]. rewrite IH by (intros cn' Hin; apply Hall; now right).
      now rewrite <- app_assoc. }
  apply Hgen.
Qed.

Lemma assign_get_other (vals : list (string * pyval)) (c : string) :
  forall row, ~ In c (map fst vals) -> row_get c (assign vals row) = row_get c row.
Proof.
  unfold assign. induction vals as [|[k v] vals IH]; intros row Hc; [reflexivity|].
  cbn [fold_left fst snd]. rewrite IH.
  - apply row_get_set_ne. intros ->. apply Hc. now left.
  - intros Hin. apply Hc. now right.
Qed.

Lemma row_matches_agree (wh : list (string * pyval)) (a b : dict) :
  (forall c, In c (map fst wh) -> row_get c a = row_get c b) ->
  row_matches wh a = row_matches wh b.
Proof.
  intros Hsame. unfold row_matches.
  induction wh as [|[c v] wh IH]; cbn [forallb fst snd]; [reflexivity|].
  rewrite (Hsame c) by now left. rewrite IH; [reflexivity|].
  intros c' Hc'. apply Hsame. now right.
Qed.

Lemma filter_length_agree {A} (R : A -> A -> Prop) (p : A -> bool) (l l0 : list A) :
  Forall2 R l l0 -> (forall a b, R a b -> p a = p b) ->
  List.length (filter p l) = List.length (filter p l0).
Proof.
  intros Hall Hp. induction Hall as [|a b l l0 Hab _ IH]; cbn [filter];
    [reflexivity|].
  rewrite (Hp a b Hab). destruct (p b); cbn [List.length]; now rewrite IH.
Qed.

Lemma filter_length_perm {A} (p : A -> bool) (l l' : list A) :
  Permutation l l' -> List.length (filter p l) = List.length (filter p l').
Proof.
  induction 1 as [|x l l' _ IH|x y l|l l' l'' _ IH1 _ IH2]; cbn [filter].
  - reflexivity.
  - destruct (p x); cbn [List.length]; now rewrite IH.
  - destruct (p x), (p y); reflexivity.
  - now rewrite IH1.
Qed.

(** The rows a statement rewrites and stores after the others are, up to
    their order, the rows rewritten where they were. *)
Lemma rewritten_perm {A} (p : A -> bool) (f : A -> A) (l : list A) :
  Permutation (filter (fun x => negb (p x)) l ++ map f (filter p l))
    (map (fun x => if p x then f x else x) l).
Proof.
  induction l as [|x l IH]; cbn [filter map app]; [constructor|].
  destruct (p x); cbn [negb map app].
  - symmetry. apply Permutation_cons_app. now symmetry.
  - now constructor.
Qed.

Lemma agree_refl (on : list string) (rows : list dict) : agree on rows rows.
Proof.
  unfold agree. induction rows; constructor; auto.
Qed.

Lemma constraints_kept_free (rel : relation) (assigned : list string)
  (rows : list dict) :
  (forall k, In k assigned ->
             ~ In k (rel_primary_key rel) /\ ~ In k (rel_uniques rel)) ->
  constraints_kept rel assigned rows = true.
Proof.
  intros Hfree. unfold constraints_kept.
  assert (Hpk : existsb (fun k => mem k (rel_primary_key rel)) assigned = false).
  { apply not_true_iff_false. intros H. apply existsb_exists in H.
    destruct H as [k [Hk Hmem]]. apply mem_In in Hmem.
    now destruct (Hfree k Hk). }
  rewrite Hpk. cbn [andb]. apply forallb_forall. intros u Hu.
  destruct (mem u assigned) eqn:Hmem; [|reflexivity].
  apply mem_In in Hmem. now destruct (Hfree u Hmem).
Qed.

Section UpdateRun.

Variables (rel : relation) (tbl : string * string).
Variables (on ks : list string) (rows0 : list dict).

Hypothesis Hnodup : NoDup on.
Hypothesis Hfree : underscore_free on.
Hypothesis Honks : incl on ks.
Hypothesis Hplain :
  forall k, In k ks -> ~ In k on ->
            In k (column_names rel)
            /\ ~ In k (rel_primary_key rel) /\ ~ In k (rel_uniques rel).
Hypothesis Hunder : forall c, In c on -> ~ In ("_" ++ c)%string (column_names rel).

Let stmt : update_stmt := update_stmt_of tbl on ks.

Lemma assigned_not_on (k : string) :
  In k (filter (fun k => negb (mem k on)) ks) <-> In k ks /\ ~ In k on.
Proof.
  rewrite filter_In, negb_true_iff. now rewrite mem_not_In.
Qed.

(** An assigned key is not the underscore name of a match field. *)
Lemma assigned_clean (k c : string) :
  In k ks -> ~ In k on -> In c on -> k <> ("_" ++ c)%string.
Proof.
  intros Hk Hnot Hc ->. destruct (Hplain _ Hk Hnot) as [Hcol _].
  now apply (Hunder c Hc).
Qed.

(** The statement compiles for the first record once renamed. *)
Lemma compile_update_ok (table : Table) (d0 : dict) (ps : list dict) :
  map col_name (t_columns table) = column_names rel ->
  dict_keys d0 = ks ->
  compile_update table stmt (renamed on d0 :: ps) = inr tt.
Proof.
  intros Hcols Hkeys. unfold compile_update, stmt, update_stmt_of.
  cbn [upd_values]. rewrite Hcols.
  assert (Hall : forallb (fun cn : string * string => mem (fst cn) (column_names rel))
                   (map (fun k => (k, k)) (filter (fun k => negb (mem k on)) ks))
                 = true).
  { apply forallb_forall. intros cn Hin. apply in_map_iff in Hin.
    destruct Hin as [k [<- Hk]]. cbn [fst]. apply assigned_not_on in Hk.
    destruct Hk as [Hk Hnot]. apply mem_In. now destruct (Hplain k Hk Hnot). }
  rewrite Hall. cbn [negb].
  assert (Hnone : existsb
                    (fun c => dict_has c (renamed on d0)
                              && negb (mem c (map fst
                                   (map (fun k : string => (k, k))
                                      (filter (fun k => negb (mem k on)) ks)))))
                    (column_names rel) = false).
  { apply not_true_iff_false. intros H. apply existsb_exists in H.
    destruct H as [col [Hcol Hboth]]. apply andb_true_iff in Hboth.
    destruct Hboth as [Hhas Hnot]. apply negb_true_iff in Hnot.
    apply mem_not_In in Hnot. apply Hnot. rewrite map_map. cbn [fst]. rewrite map_id.
    assert (Hplainname : forall c, In c on -> col <> ("_" ++ c)%string).
    { intros c Hc ->. now apply (Hunder c Hc). }
    unfold dict_has in Hhas.
    assert (Hnoton : ~ In col on).
    { intros Hin. now rewrite (renamed_removed on col d0 Hfree Hin) in Hhas. }
    rewrite (renamed_other on col d0 Hnoton Hplainname) in Hhas.
    apply assigned_not_on. split; [|exact Hnoton].
    rewrite <- Hkeys. apply dict_has_In. exact Hhas. }
  now rewrite Hnone.
Qed.

Lemma update_one_ok (rows inplace : list dict) (n : Z) (d : dict) :
  sendable on ks d -> typed (rel_columns rel) ks d ->
  Permutation rows inplace -> agree on inplace rows0 ->
  exists rows',
    update_one rel stmt (rows, n) (renamed on d)
    = inr (rows', (n + Z.of_nat (List.length (located on d rows0)))%Z)
    /\ Permutation rows' (apply_update on ks inplace d)
    /\ agree on (apply_update on ks inplace d) rows0.
Proof.
  intros [Hon Hks] Htyped Hperm Hagree. unfold update_one, stmt, update_stmt_of.
  cbn [upd_where upd_values fst snd].
  rewrite bind_params_ok.
  2:{ intros cn Hin. apply in_map_iff in Hin. destruct Hin as [c [<- Hc]].
      cbn [snd]. unfold dict_has.
      rewrite renamed_underscore by assumption.
      apply (dict_has_In c d). now apply Hon. }
  cbn [rbind]. rewrite bind_params_ok.
  2:{ intros cn Hin. apply in_map_iff in Hin. destruct Hin as [k [<- Hk]].
      cbn [snd]. apply assigned_not_on in Hk. destruct Hk as [Hk Hnot].
      apply dict_has_In. apply renamed_keeps; [now apply Hks | assumption]. }
  cbn [rbind]. rewrite !map_map. cbn [fst snd].
  assert (Hwh : map (fun c => (c, row_get ("_" ++ c)%string (renamed on d))) on
                = map (fun c => (c, row_get c d)) on).
  { apply map_ext_in. intros c Hc. f_equal. unfold row_get.
    now rewrite renamed_underscore. }
  assert (Hvals : map (fun k => (k, row_get k (renamed on d)))
                    (filter (fun k => negb (mem k on)) ks)
                  = map (fun k => (k, row_get k d))
                      (filter (fun k => negb (mem k on)) ks)).
  { apply map_ext_in. intros k Hk. apply assigned_not_on in Hk.
    destruct Hk as [Hk Hnot]. f_equal. unfold row_get.
    rewrite renamed_other; [reflexivity | assumption |].
    intros c Hc. now apply assigned_clean. }
  rewrite Hwh, Hvals.
  rewrite check_stored_ok.
  2:{ unfold typed in Htyped. rewrite forallb_forall in Htyped.
      apply forallb_forall. intros cv Hin. apply in_app_or in Hin.
      destruct Hin as [Hin|Hin]; apply in_map_iff in Hin;
        destruct Hin as [k [<- Hk]]; cbn [fst snd]; apply Htyped.
      - now apply Honks.
      - apply assigned_not_on in Hk. now destruct Hk. }
  cbn [rbind]. rewrite map_id.
  rewrite constraints_kept_free.
  2:{ intros k Hk. apply assigned_not_on in Hk. destruct Hk as [Hk Hnot].
      now destruct (Hplain k Hk Hnot) as [_ ?]. }
  eexists. split; [|split].
  - f_equal. f_equal. f_equal. f_equal. unfold located.
    rewrite (filter_length_perm _ _ _ Hperm).
    apply (filter_length_agree _ _ _ _ Hagree).
    intros a b Hab. apply row_matches_agree. intros c Hc.
    rewrite map_map in Hc. cbn [fst] in Hc. rewrite map_id in Hc. now apply Hab.
  - etransitivity; [apply rewritten_perm|].
    unfold apply_update. now apply Permutation_map.
  - unfold agree, apply_update in *. clear Hperm.
    induction Hagree as [|a b rows1 rows2 Hab _ IH]; cbn [map];
      [constructor | constructor; [|exact IH]].
    intros c Hc. destruct (row_matches _ a); [|now apply Hab].
    rewrite assign_get_other; [now apply Hab|].
    rewrite map_map. cbn [fst]. rewrite map_id.
    intros Hin. apply assigned_not_on in Hin. now destruct Hin.
Qed.

Lemma update_all_ok (ds : list dict) :
  Forall (fun d => sendable on ks d /\ typed (rel_columns rel) ks d) ds ->
  forall (rows inplace : list dict) (n : Z),
    Permutation rows inplace -> agree on inplace rows0 ->
    exists rows',
      rfold (update_one rel stmt) (rows, n) (map (renamed on) ds)
      = inr (rows',
             fold_left
               (fun n d => (n + Z.of_nat (List.length (located on d rows0)))%Z) ds n)
      /\ Permutation rows' (fold_left (apply_update on ks) ds inplace).
Proof.
  induction 1 as [|d ds [Hd Hty] _ IH]; intros rows inplace n Hperm Hagree.
  - exists rows. now split.
  - destruct (update_one_ok rows inplace n d Hd Hty Hperm Hagree)
      as [rows1 [Hstep [Hperm1 Hagree1]]].
    cbn [map rfold fold_left]. rewrite Hstep. cbn [rbind].
    now apply IH.
Qed.

Lemma exec_update_ok (ds : list dict) :
  rel_rows rel = rows0 ->
  filter (fun k => negb (mem k on)) ks <> [] ->
  Forall (fun d => sendable on ks d /\ typed (rel_columns rel) ks d) ds ->
  exists rows',
    exec_update stmt (map (renamed on) ds) rel
    = inr (with_rows rel rows', located_total on ds rows0)
    /\ Permutation rows' (fold_left (apply_update on ks) ds rows0).
Proof.
  intros Hrows Hsome Hds. unfold exec_update.
  assert (Hcols : forallb (fun cn => mem (fst cn) (column_names rel)) (upd_values stmt)
                  = true).
  { apply forallb_forall. intros cn Hin. unfold stmt, update_stmt_of in Hin.
    cbn [upd_values] in Hin. apply in_map_iff in Hin.
    destruct Hin as [k [<- Hk]]. cbn [fst]. apply assigned_not_on in Hk.
    destruct Hk as [Hk Hnot]. apply mem_In. now destruct (Hplain k Hk Hnot). }
  rewrite Hcols. cbn [negb].
  destruct (upd_values stmt) as [|v vs] eqn:Hvalues.
  { unfold stmt, update_stmt_of in Hvalues. cbn [upd_values] in Hvalues.
    apply map_eq_nil in Hvalues. contradiction. }
  destruct (update_all_ok ds Hds (rel_rows rel) rows0 0%Z) as [rows' [Hrun Hperm]].
  { now rewrite Hrows. }
  { apply agree_refl. }
  rewrite Hrun. cbn [rbind fst snd]. now exists rows'.
Qed.

End UpdateRun.

Lemma with_db_heap {A} (m : M database A) (w : world) :
  fst (fst (with_db m w)) = fst w.
Proof.
  unfold with_db. now destruct (m (snd w)).
Qed.

Lemma located_total_bounds (on : list string) (rows : list dict) (ds : list dict) :
  (0 <= located_total on ds rows)%Z
  /\ ((forall d, In d ds -> located on d rows = []) ->
      located_total on ds rows = 0%Z).
Proof.
  unfold located_total.
  assert (Hgen : forall n,
    (n <= fold_left (fun n d => n + Z.of_nat (List.length (located on d rows))) ds n)%Z
    /\ ((forall d, In d ds -> located on d rows = []) ->
        fold_left (fun n d => n + Z.of_nat (List.length (located on d rows)))%Z ds n
        = n)).
  { induction ds as [|d ds IH]; intros n; cbn [fold_left].
    - split; [lia | reflexivity].
    - destruct (IH (n + Z.of_nat (List.length (located on d rows)))%Z) as [Hle Hzero].
      split; [lia|]. intros Hnone.
      rewrite Hzero by (intros d' Hd'; apply Hnone; now right).
      rewrite (Hnone d (or_introl eq_refl)). cbn. lia. }
  apply Hgen.
Qed.

(** [update] for records the statement takes: what it returns, what it
    leaves in the table and what it sends. *)
Lemma update_run (self : Self) (table_name : string) (r0 : ref) (rest : list ref)
  (on : list string) (h : heap) (db : database) (rel : relation) :
  find_relation (db_relations db) (schema self, table_name) = Some rel ->
  incl on (column_names rel) ->
  NoDup on -> underscore_free on -> NoDup (r0 :: rest) ->
  (forall r, In r (r0 :: rest) ->
             sendable on (dict_keys (h r0)) (h r)
             /\ typed (rel_columns rel) (dict_keys (h r0)) (h r)) ->
  (forall k, In k (dict_keys (h r0)) -> ~ In k on ->
             In k (column_names rel)
             /\ ~ In k (rel_primary_key rel) /\ ~ In k (rel_uniques rel)) ->
  (exists k, In k (dict_keys (h r0)) /\ ~ In k on) ->
  (forall c, In c on -> ~ In ("_" ++ c)%string (column_names rel)) ->
  exists h' rows',
    update self table_name (DataList (r0 :: rest)) (OnList on) (h, db)
    = ((h', DB (set_relation (db_relations db) (schema self, table_name)
                  (with_rows rel rows'))
              (db_log db ++
                 [SUpdate (update_stmt_of (schema self, table_name) on
                             (dict_keys (h r0)))
                    (map (renamed on) (map h (r0 :: rest)))])),
       inr (located_total on (map h (r0 :: rest)) (rel_rows rel)))
    /\ Permutation rows'
         (fold_left (apply_update on (dict_keys (h r0))) (map h (r0 :: rest))
            (rel_rows rel)).
Proof.
  intros Hfind Hon Hnodup Hfree Hdistinct Hsend Hplain [k0 [Hk0 Hk0not]] Hunder.
  assert (Honks : incl on (dict_keys (h r0))).
  { now destruct (Hsend r0 (or_introl eq_refl)) as [[? _] _]. }
  rewrite (update_unfold self table_name r0 rest on h db rel Hfind Hon).
  destruct (rename_all_ok on (r0 :: rest) Hdistinct h db) as [h1 [Hloop [Hin _]]].
  { intros r Hr. apply can_rename_true; [assumption|].
    now destruct (Hsend r Hr) as [[? _] _]. }
  rewrite Hloop. cbn [fst].
  assert (Hparams : map h1 (r0 :: rest) = map (renamed on) (map h (r0 :: rest))).
  { rewrite map_map. apply map_ext_in. intros r Hr. now apply Hin. }
  rewrite Hparams. cbn [map].
  rewrite (compile_update_ok rel (schema self, table_name) on (dict_keys (h r0))
             Hfree Hplain Hunder (reflect self table_name rel) (h r0) _
             eq_refl eq_refl).
  destruct (exec_update_ok rel (schema self, table_name) on (dict_keys (h r0))
              (rel_rows rel) Hnodup Hfree Honks Hplain Hunder (map h (r0 :: rest)) eq_refl)
    as [rows' [Hexec Hperm]].
  { intros Hnil. assert (Hin0 : In k0 (filter (fun k => negb (mem k on))
                                         (dict_keys (h r0)))).
    { apply filter_In. split; [exact Hk0|]. apply negb_true_iff.
      now apply mem_not_In. }
    rewrite Hnil in Hin0. contradiction. }
  { apply Forall_forall. intros d Hd. apply in_map_iff in Hd.
    destruct Hd as [r [<- Hr]]. now apply Hsend. }
  unfold with_db, execute_update, on_relation, issue.
  cbn [snd fst upd_table update_stmt_of]. rewrite Hfind.
  fold (update_stmt_of (schema self, table_name) on (dict_keys (h r0))).
  cbn [map] in Hexec. rewrite Hexec.
  exists h1, rows'. split; [reflexivity | exact Hperm].
Qed.


Lemma underscore_free_id : underscore_free ["id"].
Proof.
  intros c c' [<-|[]] [<-|[]]. discriminate.
Defined.



(** The scenario of the specification: one row is updated when order 1
    exists, none when the order does not. *)
Example update_counts_rows :
  snd (update me "orders" (DataDict 0) (OnStr "id")
         (one_record [("id", PInt 1); ("total", PInt 99)], shop))
  = inr 1%Z
  /\ snd (update me "orders" (DataDict 0) (OnStr "id")
            (one_record [("id", PInt 7); ("total", PInt 99)], shop))
     = inr 0%Z.
Proof. split; reflexivity. Qed.

(** [data: dict] and [on: str] are the one-element lists. *)
Lemma update_scalar_arguments (self : Self) (table_name : string) (r : ref)
  (c : string) (w : world) :
  update self table_name (DataDict r) (OnStr c) w
  = update self table_name (DataList [r]) (OnList [c]) w.
Proof. reflexivity. Qed.

(** *** update: what the caller sees afterwards *)

(** C10.  [update] writes into the caller's records: after the call,
    whatever the statement did, every record of [data] has lost each match
    field of [on] and holds its value under the underscore-prefixed name;
    its other keys and the objects outside [data] are as before.  So with
    a match field, no record is what was passed in.  The records are
    distinct objects that have the match fields, the match fields are
    distinct columns of the table, none the underscore-prefixed name of
    another. *)
Theorem update_renames_match_fields
  (self : Self) (table_name : string) (data : list ref) (on : list string)
  (h : heap) (db : database) (rel : relation) :
  find_relation (db_relations db) (schema self, table_name) = Some rel ->
  incl on (column_names rel) ->
  NoDup on -> underscore_free on -> NoDup data ->
  (forall r, In r data -> incl on (dict_keys (h r))) ->
  let h' := fst (fst (update self table_name (DataList data) (OnList on) (h, db))) in
  (forall r c, In r data -> In c on ->
               dict_get c (h' r) = None
               /\ dict_get ("_" ++ c)%string (h' r) = dict_get c (h r))
  /\ (forall r k, In r data -> ~ In k on ->
                  (forall c, In c on -> k <> ("_" ++ c)%string) ->
                  dict_get k (h' r) = dict_get k (h r))
  /\ (forall r, ~ In r data -> h' r = h r)
  /\ (on <> [] -> forall r, In r data -> h' r <> h r).
Proof.
  intros Hfind Hon Hnodup Hfree Hdistinct Hhas h'.
  destruct data as [|r0 rest].
  - split; [|split; [|split]].
    + intros r c [].
    + intros r k [].
    + intros r _. subst h'. unfold update.
      unfold bind at 1. unfold with_db at 1. cbn [snd fst].
      unfold get_table at 1. rewrite Hfind.
      unfold bind at 1. unfold lift at 1. rewrite returning_columns by exact Hon.
      unfold bind at 1. unfold lift at 1. rewrite where_columns by exact Hon.
      reflexivity.
    + intros _ r [].
  - destruct (rename_all_ok on (r0 :: rest) Hdistinct h db) as [h1 [Hloop [Hin Hout]]].
    { intros r Hr. apply can_rename_true; [assumption | now apply Hhas]. }
    assert (Hh' : h' = h1).
    { subst h'. now apply (update_heap self table_name r0 rest on h h1 db rel). }
    rewrite Hh'. clear Hh' h'.
    assert (Hgone : forall r c, In r (r0 :: rest) -> In c on ->
                                dict_get c (h1 r) = None).
    { intros r c Hr Hc. rewrite (Hin r Hr). now apply renamed_removed. }
    split; [|split; [|split]].
    + intros r c Hr Hc. split; [now apply Hgone|].
      rewrite (Hin r Hr). apply renamed_underscore; auto.
    + intros r k Hr Hk Hplain. rewrite (Hin r Hr). now apply renamed_other.
    + exact Hout.
    + intros Hne r Hr Heq. destruct on as [|c on']; [contradiction|].
      pose proof (Hgone r c Hr (or_introl eq_refl)) as Hnone.
      rewrite Heq in Hnone. apply dict_get_none in Hnone.
      apply Hnone. apply (Hhas r Hr). now left.
Qed.

Lemma update_renames_match_fields_witness :
  let h := one_record [("id", PInt 1); ("total", PInt 99)] in
  let h' := fst (fst (update me "orders" (DataList [0]) (OnList ["id"]) (h, shop))) in
  (forall r c, In r [0] -> In c ["id"] ->
               dict_get c (h' r) = None
               /\ dict_get ("_" ++ c)%string (h' r) = dict_get c (h r))
  /\ (forall r k, In r [0] -> ~ In k ["id"] ->
                  (forall c, In c ["id"] -> k <> ("_" ++ c)%string) ->
                  dict_get k (h' r) = dict_get k (h r))
  /\ (forall r, ~ In r [0] -> h' r = h r)
  /\ (["id"] <> [] -> forall r, In r [0] -> h' r <> h r).
Proof.
  apply (update_renames_match_fields me "orders" [0] ["id"]
           (one_record [("id", PInt 1); ("total", PInt 99)]) shop orders).
  - reflexivity.
  - intros k [<-|[]]. now left.
  - constructor; [intros [] | constructor].
  - exact underscore_free_id.
  - constructor; [intros [] | constructor].
  - intros r [<-|[]] k [<-|[]]. now left.
Defined.

(** The record of the example after the call. *)
Example update_leaves_renamed_record :
  fst (fst (update me "orders" (DataList [0]) (OnList ["id"])
              (one_record [("id", PInt 1); ("total", PInt 99)], shop))) 0
  = [("total", PInt 99); ("_id", PInt 1)].
Proof. reflexivity. Qed.

(* ===================================================================== *)
(** ** Further properties *)
(* ===================================================================== *)

(** *** Reads *)

Lemma selected_ok (self : Self) (table_name : string) (rel : relation)
  (columns : option (list string)) :
  incl (selection rel columns) (column_names rel) ->
  selected (reflect self table_name rel) columns = inr (selection rel columns).
Proof.
  intros Hincl. unfold selected, selection in *.
  destruct columns as [[|c cs]|]; try reflexivity.
  apply (returning_columns (reflect self table_name rel) (c :: cs) Hincl []).
Qed.

(** X1.  Every method that works on a table reflects it first: when the
    table is not in the schema, [get], [delete], [upsert], [update] and
    [get_table_columns] raise NoSuchTableError and leave the database, and
    the caller's records, as they were. *)
Theorem missing_table_raises
  (op : string -> pyval -> pyval -> option bool) (self : Self)
  (table_name : string) (db : database) :
  find_relation (db_relations db) (schema self, table_name) = None ->
  (forall columns where' limit offset sort_by,
      get op self table_name columns where' limit offset sort_by db
      = (db, inl (NoSuchTableError table_name)))
  /\ (forall where',
        delete op self table_name where' db = (db, inl (NoSuchTableError table_name)))
  /\ (forall data chunk_size overwrite_with_null,
        upsert self table_name data chunk_size overwrite_with_null db
        = (db, inl (NoSuchTableError table_name)))
  /\ (forall data on h,
        update self table_name data on (h, db)
        = ((h, db), inl (NoSuchTableError table_name)))
  /\ get_table_columns self table_name db = (db, inl (NoSuchTableError table_name))
  /\ check_table_exists self table_name None db = (db, inr false).
Proof.
  intros Hnone. repeat split.
  - intros. unfold get. now rewrite bind_get_table, Hnone.
  - intros. unfold delete. now rewrite bind_get_table, Hnone.
  - intros. unfold upsert. now rewrite bind_get_table, Hnone.
  - intros. unfold update, bind, with_db, get_table. cbn [snd fst].
    now rewrite Hnone.
  - unfold get_table_columns. now rewrite bind_get_table, Hnone.
  - unfold check_table_exists. cbn [schema_or]. now rewrite Hnone.
Qed.

Lemma missing_table_raises_witness :
  get pg_op me "invoices" None PNone None None None shop
  = (shop, inl (NoSuchTableError "invoices"))
  /\ upsert me "invoices" (One [("id", PInt 1)]) 1000 false shop
     = (shop, inl (NoSuchTableError "invoices")).
Proof.
  destruct (missing_table_raises pg_op me "invoices" shop eq_refl)
    as [Hget [_ [Hupsert _]]].
  split; [apply Hget | apply Hupsert].
Defined.


(** [get] without limit, offset and sort. *)
Lemma get_rows (op : string -> pyval -> pyval -> option bool) (self : Self)
  (table_name : string) (columns : option (list string)) (where' : pyval)
  (db : database) (rel : relation) (cs : list cond) :
  find_relation (db_relations db) (schema self, table_name) = Some rel ->
  incl (selection rel columns) (column_names rel) ->
  compiled (reflect self table_name rel) where' = inr cs ->
  snd (get op self table_name columns where' None None None db)
  = mapped (selection rel columns)
      (map (returning (selection rel columns))
         (filter (holds op cs) (rel_rows rel))).
Proof.
  intros Hfind Hcols Hcs.
  rewrite (get_run op self table_name columns where' None None None db rel Hfind).
  rewrite selected_ok by assumption. rewrite Hcs.
  cbn [snd truthy_int truthy_str compile_order_by sel_order_by].
  unfold exec_select.
  cbn [sel_columns sel_where sel_order_by sel_offset sel_limit].
  assert (Hall : forallb (fun c => mem c (column_names rel)) (selection rel columns)
                 = true).
  { apply forallb_forall. intros c Hc. apply mem_In. now apply Hcols. }
  rewrite Hall. reflexivity.
Qed.



Lemma exec_select_window (op : string -> pyval -> pyval -> option bool)
  (from : string * string) (cols : list string) (cs : list cond)
  (sort_by : option string) (limit offset : option Z) (rel : relation)
  (rows : list dict) :
  not_negative limit -> not_negative offset ->
  exec_select op (Select from cols cs None sort_by None) rel = inr rows ->
  exec_select op
    (Select from cols cs (if truthy_int offset then offset else None) sort_by
       (if truthy_int limit then limit else None)) rel
  = inr (paginate limit offset rows).
Proof.
  intros Hlimit Hoffset. unfold exec_select.
  cbn [sel_columns sel_where sel_order_by sel_offset sel_limit].
  destruct (negb (forallb _ cols)); [intros Hx; discriminate Hx|].
  unfold rbind at 1 5.
  destruct (match sort_by with Some _ => _ | None => _ end) as [e|sorted];
    [intros Hx; discriminate Hx|].
  cbn [rbind].
  intros [= <-]. unfold paginate.
  destruct offset as [o|]; cbn [truthy_int not_negative] in *.
  - destruct (Z.eqb_spec o 0) as [->|Ho]; cbn [negb rbind].
    + change (Z.to_nat 0) with 0. cbn [skipn].
      destruct limit as [n|]; cbn [truthy_int not_negative] in *; [|reflexivity].
      destruct (Z.eqb_spec n 0) as [->|Hn]; cbn [negb rbind]; [reflexivity|].
      destruct (Z.ltb_spec n 0); [lia|]. cbn [rbind]. now rewrite firstn_map.
    + destruct (Z.ltb_spec o 0); [lia|]. cbn [rbind].
      destruct limit as [n|]; cbn [truthy_int not_negative] in *.
      * destruct (Z.eqb_spec n 0) as [->|Hn]; cbn [negb rbind].
        -- now rewrite skipn_map.
        -- destruct (Z.ltb_spec n 0); [lia|]. cbn [rbind].
           now rewrite skipn_map, firstn_map.
      * cbn [rbind]. now rewrite skipn_map.
  - cbn [rbind].
    destruct limit as [n|]; cbn [truthy_int not_negative] in *; [|reflexivity].
    destruct (Z.eqb_spec n 0) as [->|Hn]; cbn [negb rbind]; [reflexivity|].
    destruct (Z.ltb_spec n 0); [lia|]. cbn [rbind]. now rewrite firstn_map.
Qed.

(** X4.  [get] with a limit and an offset returns a window of what it
    returns without them, for the same columns, predicate and sort: the
    first [offset] rows are skipped, then at most [limit] rows are kept.
    An offset of 0 skips nothing; a limit of 0, like no limit, keeps
    every row. *)
Theorem get_window
  (op : string -> pyval -> pyval -> option bool) (self : Self)
  (table_name : string) (columns : option (list string)) (where' : pyval)
  (limit offset : option Z) (sort_by : option string) (db : database)
  (rows : list dict) :
  not_negative limit -> not_negative offset ->
  snd (get op self table_name columns where' None None sort_by db) = inr rows ->
  snd (get op self table_name columns where' limit offset sort_by db)
  = inr (paginate limit offset rows).
Proof.
  intros Hlimit Hoffset.
  destruct (find_relation (db_relations db) (schema self, table_name))
    as [rel|] eqn:Hfind.
  - rewrite !(get_run op self table_name columns where' _ _ sort_by db rel Hfind).
    destruct (selected _ columns) as [e|cols]; [discriminate|].
    destruct (compiled _ where') as [e|cs]; [discriminate|].
    cbn zeta. unfold compile_order_by.
    cbn [truthy_int sel_order_by].
    destruct (match (if truthy_str sort_by then sort_by else None) with
              | Some _ => _
              | None => _
              end) as [e|[]]; [discriminate|].
    cbn [snd].
    destruct (exec_select op (Select _ cols cs None _ None) rel) as [e|rows0] eqn:Hbase;
      cbn [rbind]; [discriminate|].
    rewrite (exec_select_window op _ _ _ _ _ _ _ _ Hlimit Hoffset Hbase). cbn [rbind].
    unfold mapped. destruct (distinct cols).
    + now intros [= <-].
    + destruct rows0; [|discriminate]. intros [= <-].
      unfold paginate. destruct offset, limit; cbn;
        rewrite ?skipn_nil, ?firstn_nil; try reflexivity;
        destruct (_ =? 0)%Z; now rewrite ?firstn_nil.
  - unfold get. rewrite bind_get_table, Hfind. discriminate.
Qed.

Lemma get_window_witness :
  let db := fst (upsert me "orders"
                   (Many [order 2 5 PNone; order 3 7 PNone; order 4 9 PNone])
                   1000 false shop) in
  snd (get pg_op me "orders" (Some ["id"]) PNone (Some 2%Z) (Some 1%Z) (Some "id") db)
  = inr (paginate (Some 2%Z) (Some 1%Z)
           [[("id", PInt 1)]; [("id", PInt 2)]; [("id", PInt 3)]; [("id", PInt 4)]]).
Proof.
  apply (get_window pg_op me "orders" (Some ["id"]) PNone (Some 2%Z) (Some 1%Z)
           (Some "id")).
  - cbn. lia.
  - cbn. lia.
  - reflexivity.
Defined.

(** The window of the example: orders 2 and 3. *)
Example get_second_page :
  paginate (Some 2%Z) (Some 1%Z)
    [[("id", PInt 1)]; [("id", PInt 2)]; [("id", PInt 3)]; [("id", PInt 4)]]
  = [[("id", PInt 2)]; [("id", PInt 3)]].
Proof. reflexivity. Qed.

Lemma selected_unknown (table : Table) (pre post : list string) (k : string) :
  incl pre (map col_name (t_columns table)) ->
  ~ In k (map col_name (t_columns table)) ->
  selected table (Some (pre ++ k :: post)) = inl (KeyError k).
Proof.
  intros Hpre Hk. unfold selected.
  assert (Hrun : forall acc,
    rfold (fun acc k0 => k' <~ table_c table k0 ;; inr (acc ++ [k'])) acc
      (pre ++ k :: post) = inl (KeyError k)).
  { intros acc. rewrite rfold_app. rewrite returning_columns by assumption.
    cbn [rbind rfold]. unfold table_c. apply mem_not_In in Hk. now rewrite Hk. }
  destruct (pre ++ k :: post) as [|c cs] eqn:Hlist.
  - now destruct pre.
  - apply Hrun.
Qed.

Lemma where_item_unknown {S} `{HasWhere S} (table : Table) (stmt : S)
  (k : string) (v : pyval) :
  ~ In k (map col_name (t_columns table)) -> readable_leaf v ->
  where_item table stmt k v = inl (KeyError k).
Proof.
  intros Hk Hleaf. apply mem_not_In in Hk.
  unfold where_item, table_c. rewrite Hk.
  destruct v; try reflexivity.
  destruct Hleaf as [operator Hop]. unfold dict_getitem. rewrite Hop.
  cbn [rbind str_lower].
  repeat match goal with
         | |- context [if ?b then _ else _] => destruct b
         end; reflexivity.
Qed.

(** X5.  A column the table does not have is refused before anything is
    sent: [get] raises KeyError for the first unknown name among the
    columns asked for, and for the field of a predicate item, and the
    database is untouched. *)
Theorem get_unknown_column
  (op : string -> pyval -> pyval -> option bool) (self : Self)
  (table_name : string) (db : database) (rel : relation) (k : string) :
  find_relation (db_relations db) (schema self, table_name) = Some rel ->
  ~ In k (column_names rel) ->
  (forall pre post where' limit offset sort_by,
      incl pre (column_names rel) ->
      get op self table_name (Some (pre ++ k :: post)) where' limit offset sort_by db
      = (db, inl (KeyError k)))
  /\ (forall columns v limit offset sort_by,
        incl (selection rel columns) (column_names rel) ->
        readable_leaf v ->
        get op self table_name columns (PDict [(k, v)]) limit offset sort_by db
        = (db, inl (KeyError k))).
Proof.
  intros Hfind Hk. split.
  - intros pre post where' limit offset sort_by Hpre.
    rewrite (get_run op self table_name _ where' limit offset sort_by db rel Hfind).
    now rewrite selected_unknown.
  - intros columns v limit offset sort_by Hcols Hleaf.
    rewrite (get_run op self table_name columns _ limit offset sort_by db rel Hfind).
    rewrite selected_ok by assumption.
    unfold compiled, criteria, _where_clause. cbn [truthy rbind rfold where_items fst snd].
    now rewrite where_item_unknown.
Qed.

Lemma get_unknown_column_witness :
  get pg_op me "orders" (Some (["id"] ++ "price" :: ["note"])) PNone None None None shop
  = (shop, inl (KeyError "price"))
  /\ get pg_op me "orders" None (PDict [("price", PInt 3)]) None None None shop
     = (shop, inl (KeyError "price")).
Proof.
  assert (Hnot : ~ In "price" (column_names orders)).
  { cbn. intros [H|[H|[H|[]]]]; discriminate H. }
  destruct (get_unknown_column pg_op me "orders" shop orders "price" eq_refl Hnot)
    as [Hcolumns Hfield].
  split.
  - apply Hcolumns. intros c [<-|[]]. now left.
  - apply Hfield; [intros c Hc; exact Hc | exact I].
Defined.

(** *** Deletes *)

Lemma delete_fold_where (cs : list cond) (s : delete_stmt) :
  fold_left where_ cs s = Delete (del_from s) (del_where s ++ cs).
Proof.
  revert s. induction cs as [|c cs IH]; intros s; cbn [fold_left].
  - rewrite app_nil_r. now destruct s.
  - rewrite IH. unfold where_ at 1 2, delete_where. cbn [del_from del_where].
    now rewrite <- app_assoc.
Qed.

Lemma execute_delete_run (op : string -> pyval -> pyval -> option bool)
  (from : string * string) (cs : list cond) (db : database) (rel : relation) :
  find_relation (db_relations db) from = Some rel ->
  execute_delete op (Delete from cs) db
  = (DB (set_relation (db_relations db) from
           (with_rows rel
              (filter (fun row => negb (holds op cs row)) (rel_rows rel))))
        (db_log db ++ [SDelete (Delete from cs)]),
     inr tt).
Proof.
  intros Hfind. unfold execute_delete, on_relation, issue, exec_delete.
  cbn [del_from del_where rbind]. now rewrite Hfind.
Qed.

(** [delete], once the table is reflected. *)
Lemma delete_run (op : string -> pyval -> pyval -> option bool) (self : Self)
  (table_name : string) (where' : pyval) (db : database) (rel : relation) :
  find_relation (db_relations db) (schema self, table_name) = Some rel ->
  delete op self table_name where' db =
  match compiled (reflect self table_name rel) where' with
  | inl e => (db, inl e)
  | inr cs => execute_delete op (Delete (schema self, table_name) cs) db
  end.
Proof.
  intros Hfind. unfold delete. rewrite bind_get_table, Hfind.
  fold (reflect self table_name rel).
  unfold bind at 1. unfold lift at 1. unfold compiled.
  destruct (truthy where'); [|reflexivity].
  rewrite where_clause_criteria.
  destruct (criteria (reflect self table_name rel) where') as [e|cs];
    cbn [rbind]; [reflexivity|].
  rewrite delete_fold_where. reflexivity.
Qed.

Lemma delete_ok (op : string -> pyval -> pyval -> option bool) (self : Self)
  (table_name : string) (where' : pyval) (db : database) (rel : relation)
  (cs : list cond) :
  find_relation (db_relations db) (schema self, table_name) = Some rel ->
  compiled (reflect self table_name rel) where' = inr cs ->
  delete op self table_name where' db
  = (DB (set_relation (db_relations db) (schema self, table_name)
           (with_rows rel
              (filter (fun row => negb (holds op cs row)) (rel_rows rel))))
        (db_log db ++ [SDelete (Delete (schema self, table_name) cs)]),
     inr tt).
Proof.
  intros Hfind Hcs. rewrite (delete_run op self table_name where' db rel Hfind), Hcs.
  now apply execute_delete_run.
Qed.





Lemma filter_kept_none {A} (p : A -> bool) (l : list A) :
  filter p (filter (fun x => negb (p x)) l) = [].
Proof.
  apply filter_none. intros x Hin. apply filter_In in Hin.
  destruct Hin as [_ Hx]. now apply negb_true_iff in Hx.
Qed.



(** *** Predicates *)

Lemma where_items_columns (table : Table) (d : dict) :
  forall acc cs,
    rfold (fun stmt kv => where_item (S := list cond) table stmt (fst kv) (snd kv))
      acc d = inr cs ->
    exists cs', cs = acc ++ cs'
                /\ map cond_column cs' = map fst d
                /\ incl (map fst d) (map col_name (t_columns table)).
Proof.
  induction d as [|[k v] d IH]; intros acc cs; cbn [rfold map fst snd].
  - intros [= <-]. exists []. rewrite app_nil_r. repeat split. intros c [].
  - rewrite where_item_shift.
    destruct (where_item (S := list cond) table [] k v) as [e|one] eqn:Hitem;
      cbn [rbind]; [discriminate|].
    destruct (where_item_column table k v one Hitem) as [c [-> [Hc Hk]]].
    intros Hrun. destruct (IH _ _ Hrun) as [cs' [-> [Hcols Hincl]]].
    exists (c :: cs'). rewrite <- app_assoc. split; [reflexivity|].
    cbn [map]. rewrite Hc, Hcols. split; [reflexivity|].
    intros x [<-|Hx]; [assumption | now apply Hincl].
Qed.

Lemma where_clause_columns (table : Table) (ws : list pyval) :
  forall acc cs,
    rfold (where_items (S := list cond) table) acc ws = inr cs ->
    exists cs', cs = acc ++ cs'
                /\ map cond_column cs' = map fst (items_of (PList ws))
                /\ incl (map fst (items_of (PList ws))) (map col_name (t_columns table)).
Proof.
  induction ws as [|w ws IH]; intros acc cs; cbn [rfold items_of flat_map].
  - intros [= <-]. exists []. rewrite app_nil_r. repeat split. intros c [].
  - destruct (where_items (S := list cond) table acc w) as [e|acc1] eqn:Hw;
      cbn [rbind]; [discriminate|].
    destruct w; try discriminate Hw. cbn [where_items] in Hw.
    destruct (where_items_columns table d acc acc1 Hw) as [cs1 [-> [Hc1 Hi1]]].
    intros Hrun. destruct (IH _ _ Hrun) as [cs2 [-> [Hc2 Hi2]]].
    exists (cs1 ++ cs2). rewrite <- app_assoc. split; [reflexivity|].
    cbn [items_of] in Hc2, Hi2. rewrite !map_app, Hc1, Hc2. split; [reflexivity|].
    intros x Hx. apply in_app_or in Hx. destruct Hx; [now apply Hi1 | now apply Hi2].
Qed.

(** X9.  A predicate that compiles puts exactly one criterion per item on
    the statement, in the order of the items, each on the column the item
    names; every such column is a column of the table. *)
Theorem criteria_one_per_item (table : Table) (where' : pyval) (cs : list cond) :
  criteria table where' = inr cs ->
  map cond_column cs = map fst (items_of where')
  /\ incl (map fst (items_of where')) (map col_name (t_columns table)).
Proof.
  unfold criteria, _where_clause. destruct where'; cbn [rbind]; try discriminate.
  - destruct s as [|a s]; cbn [chars map rfold rbind where_items].
    + intros [= <-]. split; [reflexivity | intros c []].
    + discriminate.
  - intros Hrun. destruct (where_clause_columns table l [] cs Hrun) as [cs' [-> ?]].
    assumption.
  - cbn [rfold]. destruct (where_items (S := list cond) table [] (PDict d))
      as [e|cs1] eqn:Hw; cbn [rbind]; [discriminate|].
    intros [= <-]. cbn [where_items] in Hw.
    destruct (where_items_columns table d [] cs1 Hw) as [cs' [-> ?]]. assumption.
Qed.

Lemma criteria_one_per_item_witness :
  map cond_column [COp "total" "<" (PInt 15); CEq "note" (PStr "gift")]
  = map fst (items_of
               (PList [PDict [("total", PDict [("operator", PStr "<");
                                               ("value", PInt 15)])];
                       PDict [("note", PStr "gift")]]))
  /\ incl (map fst (items_of
                      (PList [PDict [("total", PDict [("operator", PStr "<");
                                                      ("value", PInt 15)])];
                              PDict [("note", PStr "gift")]])))
       (map col_name (t_columns orders_table)).
Proof.
  apply (criteria_one_per_item orders_table
           (PList [PDict [("total", PDict [("operator", PStr "<"); ("value", PInt 15)])];
                   PDict [("note", PStr "gift")]])).
  reflexivity.
Defined.

Lemma where_one_item {S} `{HasWhere S} (stmt : S) (table : Table) (k : string)
  (d : dict) :
  _where_clause stmt table (one_item k d) = where_item table stmt k (PDict d).
Proof.
  unfold _where_clause, one_item. cbn [rbind rfold where_items fst snd].
  now destruct (where_item table stmt k (PDict d)).
Qed.

(** X10.  The operators [_where_clause] knows are read without regard to
    case: two items that differ only in the case of such an operator give
    the same statement, or the same exception. *)
Theorem where_operator_ignores_case {S} `{HasWhere S} (stmt : S) (table : Table)
  (k o1 o2 : string) (d1 d2 : dict) :
  dict_get "operator" d1 = Some (PStr o1) ->
  dict_get "operator" d2 = Some (PStr o2) ->
  dict_get "value" d1 = dict_get "value" d2 ->
  lower o1 = lower o2 ->
  is_recognized o1 = true ->
  _where_clause stmt table (one_item k d1) = _where_clause stmt table (one_item k d2).
Proof.
  intros Ho1 Ho2 Hvalue Hlower Hrec. rewrite !where_one_item.
  unfold where_item, dict_getitem. rewrite Ho1, Ho2, Hvalue. cbn [rbind str_lower].
  rewrite <- Hlower. revert Hrec. unfold is_recognized, recognized, mem.
  cbn [existsb].
  repeat match goal with
         | |- context [if ?b then _ else _] => destruct b
         end; intros Hrec; try reflexivity; discriminate Hrec.
Qed.

Lemma where_operator_ignores_case_witness :
  _where_clause all_orders orders_table
    (one_item "id" [("operator", PStr "NOT IN"); ("value", PList [PInt 1; PInt 2])])
  = _where_clause all_orders orders_table
      (one_item "id" [("operator", PStr "not in"); ("value", PList [PInt 1; PInt 2])]).
Proof.
  apply (where_operator_ignores_case all_orders orders_table "id" "NOT IN" "not in");
    reflexivity.
Defined.

(** X11.  The two null tests read no ['value']: with or without one they
    give IS NULL and IS NOT NULL on the column.  Every other operator
    needs it: an item without ['value'] raises KeyError. *)
Theorem where_null_tests_need_no_value {S} `{HasWhere S} (stmt : S) (table : Table)
  (k o : string) (d : dict) :
  In k (map col_name (t_columns table)) ->
  dict_get "operator" d = Some (PStr o) ->
  (lower o = "is null" ->
   _where_clause stmt table (one_item k d) = inr (where_ stmt (CIsNull k)))
  /\ (lower o = "is not null" ->
      _where_clause stmt table (one_item k d) = inr (where_ stmt (CIsNotNull k)))
  /\ (lower o <> "is null" -> lower o <> "is not null" ->
      dict_get "value" d = None ->
      _where_clause stmt table (one_item k d) = inl (KeyError "value")).
Proof.
  intros Hk Ho. rewrite !where_one_item.
  unfold where_item, dict_getitem. rewrite Ho. cbn [rbind str_lower].
  rewrite (table_c_in table k Hk). cbn [rbind].
  split; [|split].
  - intros ->. reflexivity.
  - intros ->. reflexivity.
  - intros Hn1 Hn2 ->. cbn [rbind].
    apply String.eqb_neq in Hn1, Hn2. rewrite Hn1, Hn2.
    repeat match goal with
           | |- context [if ?b then _ else _] => destruct b
           end; reflexivity.
Qed.

Lemma where_null_tests_need_no_value_witness :
  _where_clause all_orders orders_table
    (one_item "note" [("operator", PStr "IS NULL"); ("value", PInt 3)])
  = inr (where_ all_orders (CIsNull "note")).
Proof.
  apply (where_null_tests_need_no_value all_orders orders_table "note" "IS NULL"
           [("operator", PStr "IS NULL"); ("value", PInt 3)]).
  - cbn. auto.
  - reflexivity.
  - reflexivity.
Defined.

(** An operator that compares, without ['value']. *)
Example where_like_without_value :
  _where_clause all_orders orders_table (one_item "note" [("operator", PStr "like")])
  = inl (KeyError "value").
Proof. reflexivity. Qed.

(** X12.  [between] and [not between] read the first two elements of the
    list under ['value'] as the bounds and ignore any further element; a
    list with fewer than two elements raises IndexError. *)
Theorem where_between_reads_two_bounds {S} `{HasWhere S} (stmt : S) (table : Table)
  (k o : string) (d : dict) (value : list pyval) :
  In k (map col_name (t_columns table)) ->
  dict_get "operator" d = Some (PStr o) ->
  dict_get "value" d = Some (PList value) ->
  (lower o = "between" ->
   _where_clause stmt table (one_item k d) =
   match value with
   | lo :: hi :: _ => inr (where_ stmt (CBetween k lo hi))
   | _ => inl (IndexError "list index out of range")
   end)
  /\ (lower o = "not between" ->
      _where_clause stmt table (one_item k d) =
      match value with
      | lo :: hi :: _ => inr (where_ stmt (CNot (CBetween k lo hi)))
      | _ => inl (IndexError "list index out of range")
      end).
Proof.
  intros Hk Ho Hvalue. rewrite !where_one_item.
  unfold where_item, dict_getitem. rewrite Ho, Hvalue. cbn [rbind str_lower].
  rewrite (table_c_in table k Hk). cbn [rbind].
  split; intros ->; cbn [String.eqb Ascii.eqb Bool.eqb];
    destruct value as [|lo [|hi rest]]; reflexivity.
Qed.

Lemma where_between_reads_two_bounds_witness :
  _where_clause all_orders orders_table
    (one_item "total" [("operator", PStr "Between");
                       ("value", PList [PInt 5; PInt 15; PInt 99])])
  = inr (where_ all_orders (CBetween "total" (PInt 5) (PInt 15))).
Proof.
  apply (where_between_reads_two_bounds all_orders orders_table "total" "Between"
           [("operator", PStr "Between"); ("value", PList [PInt 5; PInt 15; PInt 99])]
           [PInt 5; PInt 15; PInt 99]).
  - cbn. auto.
  - reflexivity.
  - reflexivity.
  - reflexivity.
Defined.

(** *** Sorting *)

Lemma value_leb_total (a b : pyval) : value_leb a b = true \/ value_leb b a = true.
Proof.
  destruct a, b; cbn; auto.
  - destruct (Z.leb_spec z z0); [now left|]. right. apply Z.leb_le. lia.
  - apply String.leb_total.
Qed.

Lemma insert_sorted_perm (c : string) (row : dict) (sorted : list dict) :
  Permutation (insert_sorted c row sorted) (row :: sorted).
Proof.
  induction sorted as [|r sorted IH]; cbn [insert_sorted]; [reflexivity|].
  destruct (value_leb (row_get c r) (row_get c row)); [|reflexivity].
  rewrite IH. apply perm_swap.
Qed.

Lemma order_by_perm (c : string) (rows : list dict) :
  Permutation (order_by c rows) rows.
Proof.
  unfold order_by.
  assert (Hgen : forall acc,
    Permutation (fold_left (fun sorted row => insert_sorted c row sorted) rows acc)
      (acc ++ rows)).
  { induction rows as [|r rows IH]; intros acc; cbn [fold_left].
    - now rewrite app_nil_r.
    - rewrite IH, insert_sorted_perm. apply Permutation_middle. }
  apply (Hgen []).
Qed.

Lemma insert_sorted_ascending (c : string) (row : dict) (sorted : list dict) :
  ascending c sorted = true -> ascending c (insert_sorted c row sorted) = true.
Proof.
  induction sorted as [|r sorted IH]; cbn [insert_sorted]; [reflexivity|].
  intros Hsorted.
  destruct (value_leb (row_get c r) (row_get c row)) eqn:Hle.
  - cbn [ascending] in Hsorted |- *. apply andb_true_iff in Hsorted.
    destruct Hsorted as [Hhead Htail]. specialize (IH Htail).
    apply andb_true_iff. split; [|exact IH].
    destruct sorted as [|r' sorted]; cbn [insert_sorted]; [exact Hle|].
    destruct (value_leb (row_get c r') (row_get c row)); assumption.
  - change (ascending c (row :: r :: sorted))
      with (value_leb (row_get c row) (row_get c r) && ascending c (r :: sorted)).
    rewrite Hsorted, andb_true_r.
    destruct (value_leb_total (row_get c r) (row_get c row)); congruence.
Qed.

Lemma order_by_ascending (c : string) (rows : list dict) :
  ascending c (order_by c rows) = true.
Proof.
  unfold order_by.
  assert (Hgen : forall acc, ascending c acc = true ->
    ascending c (fold_left (fun sorted row => insert_sorted c row sorted) rows acc)
    = true).
  { induction rows as [|r rows IH]; intros acc Hacc; cbn [fold_left]; [exact Hacc|].
    apply IH. now apply insert_sorted_ascending. }
  now apply Hgen.
Qed.

Lemma returning_get (cols : list string) (row : dict) (c : string) :
  In c cols -> row_get c (returning cols row) = row_get c row.
Proof.
  unfold returning, row_get at 1. induction cols as [|k cols IH]; [intros []|].
  intros Hin. cbn [map dict_get]. destruct (String.eqb_spec k c) as [->|Hne].
  - reflexivity.
  - destruct Hin as [->|Hin]; [contradiction | now apply IH].
Qed.

Lemma ascending_returning (cols : list string) (c : string) (rows : list dict) :
  In c cols -> ascending c (map (returning cols) rows) = ascending c rows.
Proof.
  intros Hc. induction rows as [|a rows IH]; [reflexivity|].
  cbn [map ascending]. rewrite IH. destruct rows as [|b rows]; [reflexivity|].
  cbn [map]. now rewrite !returning_get.
Qed.



(** The rows of the example, by ascending total. *)
Example get_sorted_by_total :
  snd (get pg_op me "orders" (Some ["id"; "total"]) PNone None None (Some "total")
         (fst (upsert me "orders" (Many [order 2 5 PNone; order 3 7 PNone])
                 1000 false shop)))
  = inr [[("id", PInt 2); ("total", PInt 5)]; [("id", PInt 3); ("total", PInt 7)];
         [("id", PInt 1); ("total", PInt 10)]].
Proof. reflexivity. Qed.



(** *** Upserts *)

(** X15.  A chunk size that is not positive sends nothing: with 0,
    [upsert] of a list raises the ValueError of [range]; with a negative
    size it returns an empty list, and the records are not written. *)
Theorem upsert_chunk_size_not_positive
  (self : Self) (table_name : string) (data : list dict) (c : Z) (ow : bool)
  (db : database) (rel : relation) :
  find_relation (db_relations db) (schema self, table_name) = Some rel ->
  rel_primary_key rel <> [] ->
  (c <= 0)%Z ->
  upsert self table_name (Many data) c ow db
  = (db, if (c =? 0)%Z then inl (ValueError "range() arg 3 must not be zero")
         else inr (Rows [])).
Proof.
  intros Hfind Hpk Hc. rewrite (upsert_run self table_name _ c ow db rel Hfind Hpk).
  cbn [chunks_for]. unfold chunks_of, py_range.
  destruct (Z.eqb_spec c 0) as [->|Hne]; [reflexivity|].
  destruct (Z.ltb_spec 0 c); [lia|].
  destruct (Z.ltb_spec (Z.of_nat (List.length data)) 0); [lia|].
  reflexivity.
Qed.

Lemma upsert_chunk_size_not_positive_witness :
  upsert me "orders" (Many [order 2 5 PNone]) (-1) false shop
  = (shop, if (-1 =? 0)%Z then inl (ValueError "range() arg 3 must not be zero")
           else inr (Rows [])).
Proof.
  apply (upsert_chunk_size_not_positive me "orders" [order 2 5 PNone] (-1) false shop
           orders).
  - reflexivity.
  - discriminate.
  - lia.
Defined.

(** X16.  Whatever it is given and however it ends, [upsert] leaves the
    columns and keys of the table as they were, removes no row of it, and
    leaves every other table alone: for every row there was, there is a
    row with the same primary key, next to the rows that are new. *)
Theorem upsert_keeps_schema_and_rows
  (self : Self) (table_name : string) (data : records) (c : Z) (ow : bool)
  (db : database) (rel : relation) :
  find_relation (db_relations db) (schema self, table_name) = Some rel ->
  (exists rows',
      find_relation (db_relations (fst (upsert self table_name data c ow db)))
        (schema self, table_name)
      = Some (with_rows rel rows')
      /\ keeps_rows (rel_primary_key rel) (rel_rows rel) rows')
  /\ (forall n, (schema self, table_name) <> n ->
        find_relation (db_relations (fst (upsert self table_name data c ow db))) n
        = find_relation (db_relations db) n).
Proof.
  intros Hfind.
  assert (Hsame : exists rows', find_relation (db_relations db) (schema self, table_name)
                                = Some (with_rows rel rows')
                                /\ keeps_rows (rel_primary_key rel) (rel_rows rel) rows').
  { exists (rel_rows rel). rewrite with_rows_same. split; [exact Hfind|].
    apply keeps_rows_refl. }
  destruct (rel_primary_key rel) as [|k pk] eqn:Hpk.
  - unfold upsert. rewrite bind_get_table, Hfind. cbn [t_primary_key]. rewrite Hpk.
    cbn [raise fst]. now split.
  - rewrite <- Hpk in *.
    rewrite (upsert_run self table_name data c ow db rel Hfind) by congruence.
    destruct (chunks_for data c) as [e|chunks]; [now split|].
    destruct (for_fold _ [] chunks db) as [db' r] eqn:Hrun.
    destruct (upsert_chunks_run (reflect self table_name rel) _ _ _ _ _ _ _ _ Hfind Hrun)
      as [Hrows [Hothers _]].
    cbn [t_name reflect] in *.
    destruct r as [e|results]; [now split|].
    destruct data as [d|l]; [destruct results|]; now split.
Qed.

Lemma upsert_keeps_schema_and_rows_witness :
  (exists rows',
      find_relation
        (db_relations (fst (upsert me "orders" (One (order 1 5 PNone)) 1000 false shop)))
        (schema me, "orders")
      = Some (with_rows orders rows')
      /\ keeps_rows (rel_primary_key orders) (rel_rows orders) rows')
  /\ (forall n, (schema me, "orders") <> n ->
        find_relation
          (db_relations (fst (upsert me "orders" (One (order 1 5 PNone)) 1000 false shop)))
          n
        = find_relation (db_relations shop) n).
Proof.
  apply (upsert_keeps_schema_and_rows me "orders" (One (order 1 5 PNone)) 1000 false
           shop orders).
  reflexivity.
Defined.

(** X17.  When [upsert] of a list returns, it returns one mapping per
    record given, and the keys of each are the primary-key columns of the
    table, in their order. *)
Theorem upsert_returns_key_per_record
  (self : Self) (table_name : string) (data : list dict) (c : Z) (ow : bool)
  (db db' : database) (rel : relation) (rs : list dict) :
  find_relation (db_relations db) (schema self, table_name) = Some rel ->
  (1 <= c)%Z ->
  upsert self table_name (Many data) c ow db = (db', inr (Rows rs)) ->
  List.length rs = List.length data
  /\ Forall (fun r => dict_keys r = rel_primary_key rel) rs.
Proof.
  intros Hfind Hc.
  destruct (rel_primary_key rel) as [|k pk] eqn:Hpk.
  - unfold upsert. rewrite bind_get_table, Hfind. cbn [t_primary_key]. rewrite Hpk.
    discriminate.
  - rewrite (upsert_run self table_name _ c ow db rel Hfind) by congruence.
    cbn [chunks_for]. destruct (chunks_of data c) as [e|chunks] eqn:Hchunks;
      [discriminate|].
    destruct (for_fold _ [] chunks db) as [db1 r] eqn:Hrun.
    destruct (upsert_chunks_run (reflect self table_name rel) _ _ _ _ _ _ _ _ Hfind Hrun) as [_ [_ Hres]].
    destruct r as [e|results]; [discriminate|]. intros [= <- <-].
    destruct Hres as [stmts [rs' [_ [_ [-> [Hn Hkeys]]]]]]. cbn [app].
    rewrite (chunks_of_concat data c chunks Hc Hchunks) in Hn.
    cbn [reflect] in Hkeys. rewrite ?Hpk in Hkeys. now split.
Qed.

Lemma upsert_returns_key_per_record_witness :
  List.length [[("id", PInt 2)]; [("id", PInt 3)]]
  = List.length [order 2 5 PNone; order 3 7 PNone]
  /\ Forall (fun r => dict_keys r = rel_primary_key orders)
       [[("id", PInt 2)]; [("id", PInt 3)]].
Proof.
  apply (upsert_returns_key_per_record me "orders" [order 2 5 PNone; order 3 7 PNone]
           1 false shop
           (fst (upsert me "orders" (Many [order 2 5 PNone; order 3 7 PNone]) 1 false
                   shop))
           orders).
  - reflexivity.
  - lia.
  - reflexivity.
Defined.

Lemma chunks_of_single (d : dict) (c : Z) :
  (1 <= c)%Z -> chunks_of [d] c = inr [[d]].
Proof.
  intros Hc. rewrite chunks_of_nat by assumption. cbn [List.length].
  assert (Hone : ceil_div (Z.of_nat 1) c = 1%Z).
  { unfold ceil_div. replace (Z.of_nat 1 + c - 1)%Z with c by lia.
    apply Z.div_same. lia. }
  rewrite Hone. change (Z.to_nat 1) with 1. cbn [seq map]. unfold chunk_at.
  destruct (Z.to_nat c) as [|k] eqn:Hk; [lia|].
  cbn [Nat.mul skipn firstn]. now rewrite firstn_nil.
Qed.

(** X18.  A single mapping is sent as one chunk of one record, whatever
    the chunk size: [upsert] of a mapping does to the database what
    [upsert] of the one-element list does, returns the one element of its
    result, and raises what it raises. *)
Theorem upsert_single_record
  (self : Self) (table_name : string) (d : dict) (c c' : Z) (ow : bool)
  (db : database) :
  (1 <= c')%Z ->
  fst (upsert self table_name (One d) c ow db)
  = fst (upsert self table_name (Many [d]) c' ow db)
  /\ (forall r, snd (upsert self table_name (One d) c ow db) = inr (Row r)
                <-> snd (upsert self table_name (Many [d]) c' ow db) = inr (Rows [r]))
  /\ (forall e, snd (upsert self table_name (One d) c ow db) = inl e
                <-> snd (upsert self table_name (Many [d]) c' ow db) = inl e).
Proof.
  intros Hc.
  destruct (find_relation (db_relations db) (schema self, table_name)) as [rel|]
    eqn:Hfind.
  - destruct (rel_primary_key rel) as [|k pk] eqn:Hpk.
    + unfold upsert. rewrite !bind_get_table, Hfind. cbn [t_primary_key]. rewrite Hpk.
      cbn [raise fst snd]. repeat split; intros; try discriminate; assumption.
    + rewrite !(upsert_run self table_name _ _ ow db rel Hfind) by congruence.
      cbn [chunks_for]. rewrite (chunks_of_single d c' Hc).
      destruct (for_fold _ [] [[d]] db) as [db1 r] eqn:Hrun.
      destruct (upsert_chunks_run (reflect self table_name rel) _ _ _ _ _ _ _ _
                  Hfind Hrun) as [_ [_ Hres]].
      destruct r as [e|results].
      * cbn [fst snd]. repeat split; intros; try discriminate; assumption.
      * destruct Hres as [stmts [rs [_ [_ [-> [Hn _]]]]]].
        cbn [List.concat List.length app] in *.
        destruct rs as [|r0 [|r1 rs]]; try discriminate Hn. cbn [fst snd].
        repeat split; intros; try discriminate; congruence.
  - unfold upsert. rewrite !bind_get_table, Hfind. cbn [fst snd].
    repeat split; intros; try discriminate; assumption.
Qed.

Lemma upsert_single_record_witness :
  fst (upsert me "orders" (One (order 2 5 PNone)) 0 false shop)
  = fst (upsert me "orders" (Many [order 2 5 PNone]) 1000 false shop)
  /\ (forall r, snd (upsert me "orders" (One (order 2 5 PNone)) 0 false shop)
                = inr (Row r)
                <-> snd (upsert me "orders" (Many [order 2 5 PNone]) 1000 false shop)
                    = inr (Rows [r]))
  /\ (forall e, snd (upsert me "orders" (One (order 2 5 PNone)) 0 false shop) = inl e
                <-> snd (upsert me "orders" (Many [order 2 5 PNone]) 1000 false shop)
                    = inl e).
Proof.
  apply (upsert_single_record me "orders" (order 2 5 PNone) 0 1000 false shop). lia.
Defined.

Lemma for_fold_app {S A B} (body : B -> A -> M S B) (l1 l2 : list A) :
  forall (acc : B) (s : S),
    for_fold body acc (l1 ++ l2) s =
    match for_fold body acc l1 s with
    | (s', inl e) => (s', inl e)
    | (s', inr acc') => for_fold body acc' l2 s'
    end.
Proof.
  induction l1 as [|x l1 IH]; intros acc s; cbn [app for_fold]; [reflexivity|].
  unfold bind. destruct (body acc x s) as [s1 [e|acc1]]; [reflexivity|]. apply IH.
Qed.

Lemma upsert_chunk_shift (table : Table) (index : list string) (ow : bool)
  (acc results chunk : list dict) (db : database) :
  upsert_chunk table index ow (acc ++ results) chunk db =
  match upsert_chunk table index ow results chunk db with
  | (db', inl e) => (db', inl e)
  | (db', inr rs) => (db', inr (acc ++ rs))
  end.
Proof.
  unfold upsert_chunk, bind, lift, ret.
  destruct (upsert_stmt table index ow chunk) as [e|stmt]; [reflexivity|].
  destruct (compile_insert table stmt) as [e|[]]; [reflexivity|].
  destruct (execute_insert stmt db) as [db1 [e|res]]; [reflexivity|].
  now rewrite app_assoc.
Qed.

Lemma upsert_chunks_shift (table : Table) (index : list string) (ow : bool)
  (chunks : list (list dict)) :
  forall (acc results : list dict) (db : database),
    for_fold (upsert_chunk table index ow) (acc ++ results) chunks db =
    match for_fold (upsert_chunk table index ow) results chunks db with
    | (db', inl e) => (db', inl e)
    | (db', inr rs) => (db', inr (acc ++ rs))
    end.
Proof.
  induction chunks as [|chunk chunks IH]; intros acc results db; cbn [for_fold];
    [reflexivity|].
  unfold bind. rewrite upsert_chunk_shift.
  destruct (upsert_chunk table index ow results chunk db) as [db1 [e|rs]];
    [reflexivity|].
  apply IH.
Qed.

Lemma map_seq_shift {A} (f g : nat -> A) (m : nat) :
  (forall i, f (m + i) = g i) ->
  forall q start, map f (seq (m + start) q) = map g (seq start q).
Proof.
  intros Hfg. induction q as [|q IH]; intros start; [reflexivity|].
  cbn [seq map]. rewrite Hfg. f_equal.
  replace (S (m + start)) with (m + S start) by lia. apply IH.
Qed.

Lemma chunks_of_app (good bad : list dict) (c : Z) (m : nat) :
  (1 <= c)%Z -> List.length good = m * Z.to_nat c ->
  exists ch1 ch2,
    chunks_of good c = inr ch1 /\ chunks_of bad c = inr ch2
    /\ chunks_of (good ++ bad) c = inr (ch1 ++ ch2).
Proof.
  intros Hc Hlen. rewrite !chunks_of_nat by assumption.
  do 2 eexists. split; [reflexivity|]. split; [reflexivity|]. f_equal.
  set (k := Z.to_nat c) in *.
  assert (Hk : Z.of_nat k = c) by (unfold k; lia).
  assert (Hq1 : Z.to_nat (ceil_div (Z.of_nat (List.length good)) c) = m).
  { unfold ceil_div. rewrite Hlen, Nat2Z.inj_mul, Hk.
    replace (Z.of_nat m * c + c - 1)%Z with (Z.of_nat m * c + (c - 1))%Z by lia.
    rewrite Z.div_add_l by lia. rewrite Z.div_small by lia. lia. }
  assert (Hq : Z.to_nat (ceil_div (Z.of_nat (List.length (good ++ bad))) c)
               = m + Z.to_nat (ceil_div (Z.of_nat (List.length bad)) c)).
  { unfold ceil_div. rewrite length_app, Hlen, Nat2Z.inj_add, Nat2Z.inj_mul, Hk.
    replace (Z.of_nat m * c + Z.of_nat (List.length bad) + c - 1)%Z
      with (Z.of_nat m * c + (Z.of_nat (List.length bad) + c - 1))%Z by lia.
    rewrite Z.div_add_l by lia.
    assert (0 <= (Z.of_nat (List.length bad) + c - 1) / c)%Z
      by (apply Z.div_pos; lia).
    lia. }
  rewrite Hq, Hq1, seq_app, map_app. f_equal.
  - apply map_ext_in. intros i Hi. apply in_seq in Hi. unfold chunk_at.
    rewrite skipn_app, firstn_app.
    assert (Hik : i * k + k <= m * k) by nia.
    replace (i * k - List.length good) with 0 by lia.
    rewrite length_skipn. replace (k - (List.length good - i * k)) with 0 by lia.
    cbn [skipn firstn]. now rewrite app_nil_r.
  - replace (0 + m) with (m + 0) by lia.
    apply (map_seq_shift _ _ m). intros i. unfold chunk_at.
    rewrite skipn_app.
    rewrite (skipn_all2 good) by nia. cbn [app].
    f_equal. f_equal. nia.
Qed.

(** X19.  The chunks are committed one by one and nothing is rolled back:
    when the records of [good], a whole number of chunks, go through,
    [upsert] of [good] followed by more records ends in the database that
    [upsert] of those records reaches from the one [good] left, with its
    result after that of [good], or with its exception. *)
Theorem upsert_commits_chunk_by_chunk
  (self : Self) (table_name : string) (good bad : list dict) (c : Z) (m : nat)
  (ow : bool) (db db1 : database) (rs1 : list dict) :
  (1 <= c)%Z ->
  List.length good = m * Z.to_nat c ->
  upsert self table_name (Many good) c ow db = (db1, inr (Rows rs1)) ->
  upsert self table_name (Many (good ++ bad)) c ow db =
  match upsert self table_name (Many bad) c ow db1 with
  | (db2, inr (Rows rs2)) => (db2, inr (Rows (rs1 ++ rs2)))
  | (db2, r) => (db2, r)
  end.
Proof.
  intros Hc Hlen.
  destruct (find_relation (db_relations db) (schema self, table_name)) as [rel|]
    eqn:Hfind.
  2:{ unfold upsert at 1. rewrite bind_get_table, Hfind. discriminate. }
  destruct (rel_primary_key rel) as [|k pk] eqn:Hpk.
  { unfold upsert at 1. rewrite bind_get_table, Hfind. cbn [t_primary_key].
    rewrite Hpk. discriminate. }
  assert (Hkey : rel_primary_key rel <> []) by congruence.
  destruct (chunks_of_app good bad c m Hc Hlen) as [ch1 [ch2 [H1 [H2 H12]]]].
  rewrite !(upsert_run self table_name _ c ow db rel Hfind Hkey).
  cbn [chunks_for]. rewrite H1, H12, for_fold_app.
  destruct (for_fold _ [] ch1 db) as [db1' r1] eqn:Hrun1.
  destruct r1 as [e|results1]; [discriminate|]. intros [= -> ->].
  destruct (upsert_chunks_run (reflect self table_name rel) _ _ _ _ _ _ _ _
              Hfind Hrun1) as [[rows1 [Hfind1 _]] _].
  cbn [t_name reflect] in Hfind1.
  rewrite (upsert_run self table_name _ c ow db1 _ Hfind1) by exact Hkey.
  cbn [chunks_for]. rewrite H2, reflect_with_rows.
  cbn [rel_primary_key with_rows].
  rewrite <- (app_nil_r rs1) at 1. rewrite upsert_chunks_shift.
  now destruct (for_fold _ [] ch2 db1) as [db2 [e|rs2]].
Qed.

Lemma upsert_commits_chunk_by_chunk_witness :
  let db1 := fst (upsert me "orders" (Many [order 2 5 PNone]) 1 false shop) in
  upsert me "orders" (Many ([order 2 5 PNone] ++ [[("id", PInt 3); ("price", PInt 1)]]))
    1 false shop
  = match upsert me "orders" (Many [[("id", PInt 3); ("price", PInt 1)]]) 1 false db1 with
    | (db2, inr (Rows rs2)) => (db2, inr (Rows ([[("id", PInt 2)]] ++ rs2)))
    | (db2, r) => (db2, r)
    end.
Proof.
  apply (upsert_commits_chunk_by_chunk me "orders" [order 2 5 PNone]
           [[("id", PInt 3); ("price", PInt 1)]] 1 1 false shop).
  - lia.
  - reflexivity.
  - reflexivity.
Defined.

(** The call of the example raises at its second chunk, and the first
    chunk has been written. *)
Example upsert_first_chunk_stays :
  let out := upsert me "orders"
               (Many [order 2 5 PNone; [("id", PInt 3); ("price", PInt 1)]])
               1 false shop in
  snd out = inl (KeyError "price")
  /\ option_map rel_rows (find_relation (db_relations (fst out)) ("public", "orders"))
     = Some [order 1 10 (PStr "gift"); order 2 5 PNone].
Proof. split; reflexivity. Qed.

(** *** Tables and columns *)

Lemma declared_names (mappings : list ColumnModel.t) :
  map col_name (map declared_column mappings) = map ColumnModel.name mappings.
Proof. rewrite map_map. reflexivity. Qed.

Lemma table_add_column_names (cols : list column) (c : column) (k : string) :
  In k (map col_name (table_add_column cols c))
  <-> In k (map col_name cols) \/ k = col_name c.
Proof.
  unfold table_add_column. destruct (mem (col_name c) (map col_name cols)) eqn:Hmem.
  - assert (Hsame : map col_name
                      (map (fun c0 => if col_name c0 =? col_name c then c else c0) cols)
                    = map col_name cols).
    { rewrite map_map. apply map_ext. intros c0.
      destruct (String.eqb_spec (col_name c0) (col_name c)); congruence. }
    rewrite Hsame. apply mem_In in Hmem. split; [now left|].
    intros [Hin| ->]; assumption.
  - rewrite map_app, in_app_iff. cbn [map In]. split.
    + intros [Hin|[<-|[]]]; [now left | now right].
    + intros [Hin| ->]; [now left | right; now left].
Qed.

Lemma table_columns_names (args : list column) :
  forall acc k,
    In k (map col_name (fold_left table_add_column args acc))
    <-> In k (map col_name acc) \/ In k (map col_name args).
Proof.
  induction args as [|c args IH]; intros acc k; cbn [fold_left map In].
  - tauto.
  - rewrite IH, table_add_column_names. split.
    + intros [[Hin| ->]|Hin]; auto.
    + intros [Hin|[<-|Hin]]; auto.
Qed.

Lemma table_columns_distinct (args : list column) :
  forall acc,
    NoDup (map col_name (acc ++ args)) ->
    fold_left table_add_column args acc = acc ++ args.
Proof.
  induction args as [|c args IH]; intros acc Hnodup; cbn [fold_left].
  - now rewrite app_nil_r.
  - assert (Hfresh : mem (col_name c) (map col_name acc) = false).
    { apply mem_not_In. intros Hin. rewrite map_app in Hnodup. cbn [map] in Hnodup.
      apply NoDup_remove_2 in Hnodup. apply Hnodup. apply in_or_app. now left. }
    unfold table_add_column at 2. rewrite Hfresh.
    rewrite IH; rewrite <- app_assoc; [reflexivity | exact Hnodup].
Qed.

Lemma table_columns_declared (mappings : list ColumnModel.t) :
  NoDup (map ColumnModel.name mappings) ->
  table_columns mappings = map declared_column mappings.
Proof.
  intros Hnodup. unfold table_columns.
  rewrite table_columns_distinct; [reflexivity|].
  cbn [app]. now rewrite declared_names.
Qed.

Lemma new_table_run (name : string * string) (args : list column)
  (primary_key uniques : list string) :
  incl (primary_key ++ uniques) (map col_name args) ->
  new_table name args primary_key uniques
  = inr {| t_name := name;
           t_columns := fold_left table_add_column args [];
           t_primary_key := primary_key |}.
Proof.
  intros Hincl. unfold new_table.
  assert (Hkeys : forall l,
    incl l (map col_name args) ->
    rfold (fun (_ : unit) k =>
             if mem k (map col_name (fold_left table_add_column args []))
             then inr tt else inl (KeyError k)) tt l = inr tt).
  { induction l as [|k l IH]; intros Hl; cbn [rfold]; [reflexivity|].
    assert (Hk : mem k (map col_name (fold_left table_add_column args [])) = true).
    { apply mem_In. apply table_columns_names. right. apply Hl. now left. }
    rewrite Hk. cbn [rbind]. apply IH. intros x Hx. apply Hl. now right. }
  now rewrite (Hkeys _ Hincl).
Qed.

Lemma new_table_built (name : string * string) (args : list column)
  (primary_key uniques : list string) (table : Table) :
  new_table name args primary_key uniques = inr table ->
  t_name table = name /\ t_columns table = fold_left table_add_column args [].
Proof.
  unfold new_table. destruct (rfold _ tt (primary_key ++ uniques)) as [e|[]];
    cbn [rbind]; [discriminate|].
  intros [= <-]. now split.
Qed.

(** [create_table] when the table is not looked for, or not found. *)
Lemma create_table_else (self : Self) (table_name : string)
  (mappings : list ColumnModel.t) (primary_key : option (string + list string))
  (unique_columns : option (list string)) (check_existing : bool) (db : database) :
  (check_existing = true ->
   find_relation (db_relations db) (schema self, table_name) = None) ->
  create_table self table_name mappings primary_key unique_columns check_existing db
  = match new_table (schema self, table_name) (map declared_column mappings)
            (primary_key_of primary_key) (uniques_of unique_columns) with
    | inl e => (db, inl e)
    | inr table =>
        execute_ddl (CreateTable (t_name table) (t_columns table)
                       (primary_key_of primary_key) (uniques_of unique_columns)) db
    end.
Proof.
  intros Hfind. unfold create_table.
  change (map (fun m => Column (ColumnModel.name m) (dialect_impl (ColumnModel.type m))
                          (ColumnModel.default m) (ColumnModel.server_default m)
                          (ColumnModel.autoincrement m) (ColumnModel.foreign_key m))
            mappings)
    with (map declared_column mappings).
  fold (primary_key_of primary_key). fold (uniques_of unique_columns).
  destruct check_existing.
  - specialize (Hfind eq_refl). unfold bind at 1. unfold check_table_exists at 1.
    cbn [schema_or]. rewrite Hfind. unfold bind at 1. unfold lift.
    destruct (new_table _ _ _ _) as [e|table]; [reflexivity|].
    unfold bind, check_table_exists. cbn [schema_or]. now rewrite Hfind.
  - unfold bind at 1. unfold ret at 1. unfold bind at 1. unfold lift.
    now destruct (new_table _ _ _ _) as [e|table].
Qed.

Lemma create_table_fresh_run (self : Self) (table_name : string)
  (mappings : list ColumnModel.t) (primary_key : option (string + list string))
  (unique_columns : option (list string)) (check_existing : bool) (db : database) :
  (check_existing = true ->
   find_relation (db_relations db) (schema self, table_name) = None) ->
  incl (primary_key_of primary_key ++ uniques_of unique_columns)
    (map ColumnModel.name mappings) ->
  create_table self table_name mappings primary_key unique_columns check_existing db
  = execute_ddl (CreateTable (schema self, table_name) (table_columns mappings)
                   (primary_key_of primary_key) (uniques_of unique_columns)) db.
Proof.
  intros Hfind Hkeys. rewrite create_table_else by exact Hfind.
  rewrite new_table_run; [reflexivity|]. now rewrite declared_names.
Qed.





Lemma add_columns_run (self : Self) (table_name : string)
  (missing : list (string * satype)) :
  (forall column, In column missing ->
                  reads_as_meant self table_name (fst column) (snd column)) ->
  forall (db db' : database) (rel : relation),
    find_relation (db_relations db) (schema self, table_name) = Some rel ->
    for_fold (fun _ column => add_column self table_name (fst column) (snd column))
      tt missing db = (db', inr tt) ->
    exists rel',
      find_relation (db_relations db') (schema self, table_name) = Some rel'
      /\ column_names rel' = column_names rel ++ map fst missing.
Proof.
  induction missing as [|[c ty] missing IH]; intros Hreads db db' rel Hfind;
    cbn [for_fold].
  - unfold ret. intros [= <-]. exists rel. now rewrite app_nil_r.
  - unfold bind. cbn [fst snd].
    rewrite add_column_run by (apply (Hreads (c, ty)); now left). rewrite Hfind.
    destruct (mem c (column_names rel)); [discriminate|].
    intros Hrest. eapply IH in Hrest.
    2:{ intros column Hin. apply Hreads. now right. }
    2:{ cbn [db_relations]. apply find_set_relation_eq. }
    destruct Hrest as [rel' [Hfind' Hcols]]. exists rel'. split; [exact Hfind'|].
    rewrite Hcols. unfold column_names. cbn [rel_columns map].
    rewrite map_app, <- app_assoc. reflexivity.
Qed.

Lemma create_table_nothing_missing (self : Self) (table_name : string)
  (mappings : list ColumnModel.t) (primary_key : option (string + list string))
  (unique_columns : option (list string)) (db : database) (rel : relation) :
  find_relation (db_relations db) (schema self, table_name) = Some rel ->
  (forall m, In m mappings -> In (ColumnModel.name m) (column_names rel)) ->
  create_table self table_name mappings primary_key unique_columns true db
  = (db, inr tt).
Proof.
  intros Hfind Hall. unfold create_table. unfold bind at 1.
  unfold check_table_exists at 1. cbn [schema_or]. rewrite Hfind.
  unfold get_table_columns. unfold bind at 1. rewrite bind_get_table, Hfind.
  unfold ret. cbn [t_columns].
  rewrite filter_none; [reflexivity|].
  intros m Hm. apply negb_false_iff. apply mem_In. now apply Hall.
Qed.

(** X21.  With [check_existing] left on, [create_table] can be repeated:
    after a call that went through, the same call changes nothing and
    issues no statement.  The text written for each column to add reads
    as the statement it is meant to be. *)
Theorem create_table_twice
  (self : Self) (table_name : string) (mappings : list ColumnModel.t)
  (primary_key : option (string + list string))
  (unique_columns : option (list string)) (db db1 : database) :
  (forall m, In m mappings ->
             reads_as_meant self table_name (ColumnModel.name m) (ColumnModel.type m)) ->
  create_table self table_name mappings primary_key unique_columns true db
  = (db1, inr tt) ->
  create_table self table_name mappings primary_key unique_columns true db1
  = (db1, inr tt).
Proof.
  intros Hreads.
  destruct (find_relation (db_relations db) (schema self, table_name)) as [rel|]
    eqn:Hfind.
  - unfold create_table at 1. unfold bind at 1.
    unfold check_table_exists at 1. cbn [schema_or]. rewrite Hfind.
    unfold get_table_columns. unfold bind at 1. rewrite bind_get_table, Hfind.
    unfold ret at 1. cbn [t_columns]. fold (column_names rel).
    intros Hrun. apply (add_columns_run _ _ _) with (rel := rel) in Hrun;
      [|idtac|exact Hfind].
    + destruct Hrun as [rel1 [Hfind1 Hcols]].
      apply (create_table_nothing_missing _ _ _ _ _ _ rel1 Hfind1).
      intros m Hm. rewrite Hcols. apply in_or_app.
      destruct (mem (ColumnModel.name m) (column_names rel)) eqn:Hmem.
      * left. now apply mem_In.
      * right. rewrite map_map. cbn [fst].
        apply (in_map ColumnModel.name). apply filter_In. split; [exact Hm|].
        now rewrite Hmem.
    + intros column Hin. apply in_map_iff in Hin. destruct Hin as [m [<- Hm]].
      cbn [fst snd]. apply Hreads. apply filter_In in Hm. now destruct Hm.
  - rewrite create_table_else by (intros _; exact Hfind).
    destruct (new_table _ _ _ _) as [e|table] eqn:Htable; [discriminate|].
    apply new_table_built in Htable. destruct Htable as [Hname Hcolumns].
    rewrite Hname, Hcolumns.
    unfold execute_ddl, exec_ddl, issue. rewrite Hfind.
    destruct (negb (distinct _)); [discriminate|].
    destruct (negb (forallb _ _)); [discriminate|].
    intros [= <-].
    eapply create_table_nothing_missing.
    + cbn [db_relations]. apply find_set_relation_eq.
    + intros m Hm. unfold column_names. cbn [rel_columns].
      apply table_columns_names. right. rewrite declared_names.
      now apply (in_map ColumnModel.name).
Qed.

Lemma create_table_twice_witness :
  let db1 := fst (create_table me "orders"
                    [spec_of "id" "INTEGER"; spec_of "status" "TEXT"]
                    (Some (inl "id")) None true shop) in
  create_table me "orders" [spec_of "id" "INTEGER"; spec_of "status" "TEXT"]
    (Some (inl "id")) None true db1
  = (db1, inr tt).
Proof.
  apply (create_table_twice me "orders" [spec_of "id" "INTEGER"; spec_of "status" "TEXT"]
           (Some (inl "id")) None shop).
  - intros m [<-|[<-|[]]]; reflexivity.
  - reflexivity.
Defined.



(** A key column that is not among the specs is found out when the
    [Table] is built: KeyError, and nothing is sent. *)
Example create_table_unknown_key :
  create_table me "invoices" [spec_of "id" "INTEGER"] (Some (inl "nope")) None true shop
  = (shop, inl (KeyError "nope")).
Proof. reflexivity. Qed.



(** *** Updates *)

Lemma table_columns_unknown (table : Table) (pre post : list string) (k : string) :
  incl pre (map col_name (t_columns table)) ->
  ~ In k (map col_name (t_columns table)) ->
  forall acc,
    rfold (fun acc c => c' <~ table_c table c ;; inr (acc ++ [c'])) acc
      (pre ++ k :: post) = inl (KeyError k).
Proof.
  intros Hpre Hk acc. rewrite rfold_app, returning_columns by assumption.
  cbn [rbind rfold]. unfold table_c. apply mem_not_In in Hk. now rewrite Hk.
Qed.

(** X24.  [update] checks before it writes: a match field that is not a
    column of the table raises KeyError, and an empty list of records
    raises IndexError, with the records and the database untouched and no
    statement issued. *)
Theorem update_checks_before_writing
  (self : Self) (table_name : string) (h : heap) (db : database) (rel : relation) :
  find_relation (db_relations db) (schema self, table_name) = Some rel ->
  (forall data pre k post,
      incl pre (column_names rel) -> ~ In k (column_names rel) ->
      update self table_name data (OnList (pre ++ k :: post)) (h, db)
      = ((h, db), inl (KeyError k)))
  /\ (forall on,
        incl on (column_names rel) ->
        update self table_name (DataList []) (OnList on) (h, db)
        = ((h, db), inl (IndexError "list index out of range"))).
Proof.
  intros Hfind. split.
  - intros data pre k post Hpre Hk. unfold update.
    unfold bind at 1. unfold with_db at 1. cbn [snd fst].
    unfold get_table at 1. rewrite Hfind.
    unfold bind at 1. unfold lift at 1.
    now rewrite table_columns_unknown.
  - intros on Hon. unfold update.
    unfold bind at 1. unfold with_db at 1. cbn [snd fst].
    unfold get_table at 1. rewrite Hfind.
    unfold bind at 1. unfold lift at 1.
    rewrite returning_columns by exact Hon.
    unfold bind at 1. unfold lift at 1.
    rewrite where_columns by exact Hon.
    reflexivity.
Qed.

Lemma update_checks_before_writing_witness :
  update me "orders" (DataDict 0) (OnList (["id"] ++ "price" :: []))
    (one_record [("id", PInt 1); ("price", PInt 3)], shop)
  = ((one_record [("id", PInt 1); ("price", PInt 3)], shop), inl (KeyError "price"))
  /\ update me "orders" (DataList []) (OnList ["id"])
       (one_record [("id", PInt 1); ("price", PInt 3)], shop)
     = ((one_record [("id", PInt 1); ("price", PInt 3)], shop),
        inl (IndexError "list index out of range")).
Proof.
  destruct (update_checks_before_writing me "orders"
              (one_record [("id", PInt 1); ("price", PInt 3)]) shop orders eq_refl)
    as [Hfield Hempty].
  split.
  - apply Hfield.
    + intros c [<-|[]]. cbn. auto.
    + cbn. intros [H|[H|[H|[]]]]; discriminate H.
  - apply Hempty. intros c [<-|[]]. cbn. auto.
Defined.

(** X25.  The records are renamed one after the other before anything is
    sent: when a record lacks a match field, [update] raises KeyError and
    sends nothing, but the records before it keep their renamed match
    fields; the records after it are as they were. *)
Theorem update_partial_rename
  (self : Self) (table_name : string) (pre post : list ref) (r0 : ref)
  (on : list string) (h : heap) (db : database) (rel : relation) :
  find_relation (db_relations db) (schema self, table_name) = Some rel ->
  incl on (column_names rel) ->
  NoDup pre -> ~ In r0 pre ->
  (forall r, In r pre -> can_rename on (h r) = true) ->
  can_rename on (h r0) = false ->
  exists h' k,
    update self table_name (DataList (pre ++ r0 :: post)) (OnList on) (h, db)
    = ((h', db), inl (KeyError k))
    /\ In k on
    /\ (forall r, In r pre -> h' r = renamed on (h r))
    /\ (forall r, ~ In r pre -> r <> r0 -> h' r = h r).
Proof.
  intros Hfind Hon Hnodup Hfresh Hpre Hr0.
  destruct (rename_all_ok on pre Hnodup h db Hpre) as [h1 [Hloop [Hin Hout]]].
  destruct (rename_match_fields_spec on h1 db r0) as [h' [Hothers Hstep]].
  rewrite (Hout r0 Hfresh), Hr0 in Hstep. destruct Hstep as [k [Hk Hstep]].
  assert (Hrun : for_fold (fun _ record => rename_match_fields on record) tt
                   (pre ++ r0 :: post) (h, db)
                 = ((h', db), inl (KeyError k))).
  { rewrite for_fold_app, Hloop. cbn [for_fold]. unfold bind at 1.
    now rewrite Hstep. }
  exists h', k. split; [|split; [exact Hk|split]].
  - destruct (pre ++ r0 :: post) as [|a rest] eqn:Hdata.
    + now destruct pre.
    + rewrite (update_unfold self table_name a rest on h db rel Hfind Hon).
      now rewrite Hrun.
  - intros r Hr. rewrite Hothers; [now apply Hin|]. intros ->. contradiction.
  - intros r Hr Hne. rewrite Hothers by exact Hne. now apply Hout.
Qed.

Lemma update_partial_rename_witness :
  exists h' k,
    update me "orders" (DataList ([0] ++ 1 :: [])) (OnList ["id"])
      (two_records [("id", PInt 1); ("total", PInt 5)] [("total", PInt 9)], shop)
    = ((h', shop), inl (KeyError k))
    /\ In k ["id"]
    /\ (forall r, In r [0] ->
          h' r = renamed ["id"]
                   (two_records [("id", PInt 1); ("total", PInt 5)] [("total", PInt 9)] r))
    /\ (forall r, ~ In r [0] -> r <> 1 ->
          h' r = two_records [("id", PInt 1); ("total", PInt 5)] [("total", PInt 9)] r).
Proof.
  apply (update_partial_rename me "orders" [0] [] 1 ["id"]
           (two_records [("id", PInt 1); ("total", PInt 5)] [("total", PInt 9)])
           shop orders).
  - reflexivity.
  - intros c [<-|[]]. cbn. auto.
  - repeat constructor. intros [].
  - intros [H|[]]. discriminate H.
  - intros r [<-|[]]. reflexivity.
  - reflexivity.
Defined.



(** The row of the example after the call. *)
Example update_sets_total :
  option_map rel_rows
    (find_relation
       (db_relations
          (snd (fst (update me "orders" (DataList [0]) (OnList ["id"])
                       (one_record [("id", PInt 1); ("total", PInt 99)], shop)))))
       ("public", "orders"))
  = Some [order 1 99 (PStr "gift")].
Proof. reflexivity. Qed.

(** *** Repeating an upsert *)

Lemma dict_set_same (k : string) (v : pyval) (d : dict) :
  dict_get k d = Some v -> dict_set k v d = d.
Proof.
  induction d as [|[k' v'] d IH]; cbn [dict_get dict_set]; [discriminate|].
  destruct (String.eqb_spec k' k) as [->|Hne].
  - now intros [= ->].
  - intros Hget. now rewrite IH.
Qed.

Lemma resolve_fixed (set_ : list (string * sqlexpr)) (excluded stored : dict) :
  (forall ke, In ke set_ ->
              dict_get (fst ke) stored = Some (eval_expr excluded stored (snd ke))) ->
  resolve set_ excluded stored = stored.
Proof.
  unfold resolve. intros Hall.
  assert (Hgen : forall l, incl l set_ ->
    fold_left (fun row ke => dict_set (fst ke) (eval_expr excluded stored (snd ke)) row)
      l stored = stored).
  { induction l as [|ke l IH]; intros Hl; cbn [fold_left]; [reflexivity|].
    rewrite dict_set_same by (apply Hall, Hl; now left).
    apply IH. intros x Hx. apply Hl. now right. }
  apply Hgen. intros x Hx. exact Hx.
Qed.

Lemma resolve_has (set_ : list (string * sqlexpr)) (excluded stored : dict)
  (k : string) :
  In k (map fst set_) -> dict_has k (resolve set_ excluded stored) = true.
Proof.
  unfold resolve.
  assert (Hgen : forall l row,
    In k (map fst l) \/ dict_has k row = true ->
    dict_has k
      (fold_left (fun row ke => dict_set (fst ke) (eval_expr excluded stored (snd ke)) row)
         l row) = true).
  { induction l as [|[k0 e] l IH]; intros row Hk; cbn [fold_left fst snd map] in *.
    - destruct Hk as [[]|Hk]. exact Hk.
    - apply IH. destruct (String.eqb_spec k0 k) as [->|Hne].
      + right. unfold dict_has. now rewrite dict_get_set_eq.
      + destruct Hk as [[Hk|Hk]|Hk]; [contradiction | now left |].
        right. unfold dict_has in *. now rewrite dict_get_set_ne. }
  intros Hk. apply Hgen. now left.
Qed.

Lemma In_set_for (ow : bool) (ks : list string) (ke : string * sqlexpr) :
  In ke (set_for ow ks) ->
  In (fst ke) ks
  /\ snd ke = (if ow then Excluded (fst ke)
               else Coalesce (Excluded (fst ke)) (TableCol (fst ke))).
Proof.
  unfold set_for. intros Hin. apply in_map_iff in Hin.
  destruct Hin as [k [<- Hk]]. now split.
Qed.

(** Resolving a conflict a second time changes nothing. *)
Lemma resolve_again (ow : bool) (ks : list string) (excluded stored : dict) :
  resolve (set_for ow ks) excluded (resolve (set_for ow ks) excluded stored)
  = resolve (set_for ow ks) excluded stored.
Proof.
  apply resolve_fixed. intros ke Hke. apply In_set_for in Hke.
  destruct Hke as [Hk ->].
  pose proof (resolve_has (set_for ow ks) excluded stored (fst ke)) as Hhas.
  rewrite set_for_keys in Hhas. specialize (Hhas Hk).
  pose proof (resolve_get ow ks excluded stored (fst ke)) as Hget.
  apply mem_In in Hk. rewrite Hk in Hget.
  unfold dict_has in Hhas. unfold row_get at 1 in Hget.
  destruct (dict_get (fst ke) (resolve (set_for ow ks) excluded stored)) as [v|] eqn:Hv;
    [|discriminate].
  f_equal. subst v. destruct ow; cbn [eval_expr]; [reflexivity|].
  destruct (row_get (fst ke) excluded); try reflexivity.
  unfold row_get at 2. now rewrite Hv.
Qed.

(** A row proposed for insertion is what its own conflict resolves to. *)
Lemma resolve_proposed (rel : relation) (ow : bool) (ks : list string) (r : dict) :
  incl ks (column_names rel) ->
  resolve (set_for ow ks) (proposed_row rel ks r) (proposed_row rel ks r)
  = proposed_row rel ks r.
Proof.
  intros Hks. apply resolve_fixed. intros ke Hke. apply In_set_for in Hke.
  destruct Hke as [Hk ->].
  assert (Hhas : In (fst ke) (dict_keys (proposed_row rel ks r))).
  { unfold proposed_row, dict_keys. rewrite map_map. cbn [fst]. now apply Hks. }
  apply dict_get_keys in Hhas. destruct Hhas as [v Hv]. rewrite Hv. f_equal.
  destruct ow; cbn [eval_expr]; unfold row_get; rewrite Hv; [reflexivity|].
  now destruct v.
Qed.

Lemma same_key_refl (l : list pyval) : forallb scalar l = true -> same_key l l = true.
Proof.
  induction l as [|v l IH]; cbn [forallb same_key]; [reflexivity|].
  intros Hl. apply andb_true_iff in Hl. destruct Hl as [Hv Hl]. rewrite IH by exact Hl.
  destruct v; try discriminate Hv; cbn [sql_eq is_true3].
  - now rewrite Z.eqb_refl.
  - now rewrite String.eqb_refl.
Qed.

Lemma find_conflict_none (index : list string) (key : list pyval) (rows : list dict) :
  (forall r, In r rows -> same_key (key_of index r) key = false) ->
  find_conflict index key rows = None.
Proof.
  induction rows as [|r0 rows IH]; intros Hnone; cbn [find_conflict]; [reflexivity|].
  rewrite IH by (intros r Hr; apply Hnone; now right).
  now rewrite (Hnone r0 (or_introl eq_refl)).
Qed.

Lemma find_conflict_last (index : list string) (key : list pyval)
  (before : list dict) (x : dict) :
  same_key (key_of index x) key = true ->
  find_conflict index key (before ++ [x]) = Some (before, x, []).
Proof.
  intros Hx. induction before as [|r before IH]; cbn [app find_conflict].
  - now rewrite Hx.
  - now rewrite IH.
Qed.

Lemma key_of_returning (index : list string) (a b : dict) :
  returning index a = returning index b -> key_of index a = key_of index b.
Proof.
  unfold returning, key_of. intros Heq.
  apply (f_equal (map snd)) in Heq. now rewrite !map_map in Heq.
Qed.

(** Inserting a record that has just been inserted leaves the rows as
    they are and returns the same key. *)
Lemma insert_row_again (rel : relation) (into : string * string) (ow : bool)
  (d : dict) (st1 : insert_state) :
  incl (dict_keys d) (column_names rel) ->
  incl (rel_primary_key rel) (dict_keys d) ->
  forallb scalar (key_of (rel_primary_key rel) d) = true ->
  insert_row rel (stmt_of into (rel_primary_key rel) ow (dict_keys d) [d]) (dict_keys d)
    (InsertState (rel_rows rel) [] []) d = inr st1 ->
  insert_row rel (stmt_of into (rel_primary_key rel) ow (dict_keys d) [d]) (dict_keys d)
    (InsertState (st_rows st1) [] []) d = inr st1.
Proof.
  intros Hks Hpk Hscalar. unfold insert_row.
  cbn [ins_index_elements ins_set ins_returning stmt_of st_rows st_touched st_returned
       existsb].
  assert (Hkey : key_of (rel_primary_key rel) (proposed_row rel (dict_keys d) d)
                 = key_of (rel_primary_key rel) d).
  { apply key_of_proposed; [|exact Hpk]. intros k Hk. apply Hks. now apply Hpk. }
  rewrite Hkey.
  destruct (check_stored _ _) as [e|[]]; cbn [rbind]; [discriminate|].
  destruct (existsb is_null (key_of (rel_primary_key rel) d)); [discriminate|].
  destruct (find_conflict (rel_primary_key rel) (key_of (rel_primary_key rel) d)
              (rel_rows rel)) as [[[before stored] after]|] eqn:Hfc.
  - destruct (violates_unique _ (before ++ after) _) eqn:Hv; [discriminate|].
    intros [= <-]. cbn [st_rows app].
    rewrite app_assoc, find_conflict_last.
    + rewrite resolve_again, app_nil_r, Hv. cbn [app]. now rewrite <- app_assoc.
    + rewrite (key_of_returning _ _ d).
      * now apply same_key_refl.
      * now apply returning_resolved.
  - destruct (violates_unique _ (rel_rows rel) _) eqn:Hv; [discriminate|].
    intros [= <-]. cbn [st_rows app].
    rewrite find_conflict_last.
    + rewrite resolve_proposed by exact Hks. rewrite app_nil_r, Hv. reflexivity.
    + rewrite Hkey. now apply same_key_refl.
Qed.

Lemma exec_insert_again (rel rel1 : relation) (into : string * string) (ow : bool)
  (d : dict) (rs : list dict) :
  incl (dict_keys d) (column_names rel) ->
  incl (rel_primary_key rel) (dict_keys d) ->
  forallb scalar (key_of (rel_primary_key rel) d) = true ->
  exec_insert (stmt_of into (rel_primary_key rel) ow (dict_keys d) [d]) rel
  = inr (rel1, rs) ->
  exec_insert (stmt_of into (rel_primary_key rel) ow (dict_keys d) [d]) rel1
  = inr (rel1, rs).
Proof.
  intros Hks Hpk Hscalar. unfold exec_insert.
  cbn [ins_values stmt_of insert_columns rfold].
  destruct (check_values rel [d]) as [e|[]] eqn:Hcheck; cbn [rbind]; [discriminate|].
  destruct (insert_row rel _ (dict_keys d) (InsertState (rel_rows rel) [] []) d)
    as [e|st1] eqn:Hrow; cbn [rbind]; [discriminate|].
  intros [= <- <-].
  change (check_values (with_rows rel (st_rows st1)) [d]) with (check_values rel [d]).
  rewrite Hcheck. cbn [rbind].
  change (insert_row (with_rows rel (st_rows st1))) with (insert_row rel).
  cbn [rel_rows with_rows].
  rewrite (insert_row_again rel into ow d st1 Hks Hpk Hscalar Hrow). reflexivity.
Qed.

(** [upsert] of one mapping, once the table is reflected. *)
Lemma upsert_one_run (self : Self) (table_name : string) (d : dict) (c : Z)
  (ow : bool) (db : database) (rel : relation) :
  find_relation (db_relations db) (schema self, table_name) = Some rel ->
  rel_primary_key rel <> [] ->
  upsert self table_name (One d) c ow db =
  match upsert_stmt (reflect self table_name rel) (rel_primary_key rel) ow [d] with
  | inl e => (db, inl e)
  | inr s =>
      match compile_insert (reflect self table_name rel) s with
      | inl e => (db, inl e)
      | inr _ =>
          match exec_insert s rel with
          | inl e => (issue (SInsert s) db, inl e)
          | inr (rel', rs) =>
              let db' := DB (set_relation (db_relations db) (schema self, table_name)
                               rel')
                           (db_log db ++ [SInsert s]) in
              match rs with
              | r :: _ => (db', inr (Row r))
              | [] => (db', inl (IndexError "list index out of range"))
              end
          end
      end
  end.
Proof.
  intros Hfind Hpk. rewrite (upsert_run self table_name _ c ow db rel Hfind Hpk).
  cbn [chunks_for for_fold]. unfold bind, upsert_chunk, bind, lift, ret.
  destruct (upsert_stmt (reflect self table_name rel) (rel_primary_key rel) ow [d])
    as [e|s] eqn:Hs; [reflexivity|].
  destruct (compile_insert _ s) as [e|[]]; [reflexivity|].
  destruct (upsert_stmt_built _ _ _ _ _ Hs) as [first [rest [_ [_ [_ Hstmt]]]]].
  assert (Hinto : ins_into s = (schema self, table_name)) by now rewrite Hstmt.
  unfold execute_insert, on_relation. rewrite Hinto, Hfind.
  destruct (exec_insert _ rel) as [e|[rel' rs]]; [reflexivity|].
  cbn [app issue db_log]. now destruct rs.
Qed.

(** X27.  Repeating the [upsert] of a mapping changes nothing more: the
    second call leaves every table as the first left it and returns the
    same key.  The mapping must give the primary key, with integers or
    strings. *)
Theorem upsert_twice
  (self : Self) (table_name : string) (d : dict) (c : Z) (ow : bool)
  (db db1 : database) (rel : relation) (r : dict) :
  find_relation (db_relations db) (schema self, table_name) = Some rel ->
  incl (rel_primary_key rel) (dict_keys d) ->
  forallb scalar (key_of (rel_primary_key rel) d) = true ->
  upsert self table_name (One d) c ow db = (db1, inr (Row r)) ->
  snd (upsert self table_name (One d) c ow db1) = inr (Row r)
  /\ db_relations (fst (upsert self table_name (One d) c ow db1)) = db_relations db1.
Proof.
  intros Hfind Hpk Hscalar.
  destruct (rel_primary_key rel) as [|k0 pk0] eqn:Hkeys.
  { unfold upsert. rewrite bind_get_table, Hfind. cbn [t_primary_key].
    rewrite Hkeys. discriminate. }
  rewrite <- Hkeys in *.
  assert (Hne : rel_primary_key rel <> []) by congruence.
  rewrite (upsert_one_run self table_name d c ow db rel Hfind Hne).
  destruct (upsert_stmt (reflect self table_name rel) (rel_primary_key rel) ow [d])
    as [e|s] eqn:Hs; [discriminate|].
  destruct (compile_insert (reflect self table_name rel) s) as [e|[]] eqn:Hcompile;
    [discriminate|].
  destruct (upsert_stmt_built _ _ _ _ _ Hs) as [first [rest [Hd [_ [Hks Hstmt]]]]].
  injection Hd as <- <-. cbn [t_columns t_name reflect] in Hks, Hstmt.
  fold (column_names rel) in Hks.
  fold (stmt_of (schema self, table_name) (rel_primary_key rel) ow (dict_keys d) [d])
    in Hstmt.
  subst s.
  destruct (exec_insert _ rel) as [e|[rel1 rs]] eqn:Hexec; [discriminate|].
  destruct rs as [|r1 rs]; [discriminate|]. cbn zeta. intros [= <- <-].
  destruct (exec_insert_run
              (stmt_of (schema self, table_name) (rel_primary_key rel) ow (dict_keys d)
                 [d])
              ow (dict_keys d) rel rel1 (r1 :: rs) eq_refl Hexec)
    as [[rows1 [Hrel1 _]] _].
  assert (Hfind1 : find_relation
                     (set_relation (db_relations db) (schema self, table_name) rel1)
                     (schema self, table_name) = Some rel1)
    by apply find_set_relation_eq.
  apply (exec_insert_again rel rel1 _ ow d _ Hks Hpk Hscalar) in Hexec.
  rewrite (upsert_one_run self table_name d c ow _ rel1); cbn [db_relations];
    [|exact Hfind1 | now subst rel1].
  assert (Hpk1 : rel_primary_key rel1 = rel_primary_key rel) by now rewrite Hrel1.
  assert (Hrefl : reflect self table_name rel1 = reflect self table_name rel)
    by now rewrite Hrel1.
  rewrite Hrefl, Hpk1, Hs, Hcompile, Hexec. cbn [fst snd db_relations].
  split; [reflexivity|].
  now apply set_relation_same.
Qed.

Lemma upsert_twice_witness :
  let db1 := fst (upsert me "orders" (One (order 1 20 PNone)) 1000 false shop) in
  snd (upsert me "orders" (One (order 1 20 PNone)) 1000 false db1)
  = inr (Row [("id", PInt 1)])
  /\ db_relations (fst (upsert me "orders" (One (order 1 20 PNone)) 1000 false db1))
     = db_relations db1.
Proof.
  apply (upsert_twice me "orders" (order 1 20 PNone) 1000 false shop _ orders).
  - reflexivity.
  - intros k [<-|[]]. cbn. auto.
  - reflexivity.
  - reflexivity.
Defined.
